(** * ARLO: condition grouping, satisfiability partitioning, weighting and
      pattern selection

    A shallow embedding of the Python pipeline
    ([app/architect/architect.py], [app/services/optimizer_service.py],
    [app/services/clustering_service.py], [app/models/matrix.py],
    [app/models/concern.py]) and the properties of its specification.

    Conventions of the embedding:
    - a Python [int] is a [Z]; a Python [float] is a binary64 [float];
    - a Python [str] is a [string] whose characters are the code points
      below 256;
    - a [dict] whose iteration order is consumed by the code (the matrix
      rows, the columns of a row, the row groups) is an association list in
      insertion order; a [dict] that is only looked up and compared (the
      quality weights, the satisfaction scores) is a [gmap];
    - a raised exception is the [Raise] case of [result]; the state an
      exception leaves behind is kept. *)

From Stdlib Require Import ZArith Ascii String PrimFloat.
From stdpp Require Import base option list strings gmap.

Local Open Scope string_scope.
Local Open Scope Z_scope.
Local Open Scope list_scope.

(** ** Exceptions *)

Inductive exn : Type :=
  | ValueError
  | IndexError
  | KeyError
  | Exception (msg : string).

Inductive result (A : Type) : Type :=
  | Ok (a : A)
  | Raise (e : exn).
Arguments Ok {A} a.
Arguments Raise {A} e.

Definition bind {A B : Type} (r : result A) (k : A → result B) : result B :=
  match r with
  | Ok a => k a
  | Raise e => Raise e
  end.

Notation "x ←! r ; k" := (bind r (λ x, k))
  (at level 20, r at level 100, k at level 200, only parsing).

(** A list comprehension whose element expression may raise. *)
Fixpoint comprehension {A B : Type} (f : A → result B) (l : list A)
  : result (list B) :=
  match l with
  | [] => Ok []
  | x :: l' => y ←! f x; ys ←! comprehension f l'; Ok (y :: ys)
  end.

(** ** The built-ins of Python the pipeline calls *)

Module Py.

(** [str.isspace] of a character; also the class [\s] of [re] and the
    characters [str.strip()] removes. *)
Definition isspace (c : ascii) : bool :=
  let n := Z.of_N (N_of_ascii c) in
  bool_decide (9 ≤ n ≤ 13) || bool_decide (28 ≤ n ≤ 31)
  || bool_decide (n = 32) || bool_decide (n = 133) || bool_decide (n = 160).

Fixpoint lstrip_with (p : ascii → bool) (s : string) : string :=
  match s with
  | EmptyString => EmptyString
  | String c s' => if p c then lstrip_with p s' else s
  end.

Fixpoint rstrip_with (p : ascii → bool) (s : string) : string :=
  match s with
  | EmptyString => EmptyString
  | String c s' =>
      match rstrip_with p s' with
      | EmptyString => if p c then EmptyString else String c EmptyString
      | r => String c r
      end
  end.

(** [s.strip()] *)
Definition strip (s : string) : string :=
  rstrip_with isspace (lstrip_with isspace s).

Fixpoint char_in (c : ascii) (chars : string) : bool :=
  match chars with
  | EmptyString => false
  | String d chars' => Ascii.eqb c d || char_in c chars'
  end.

(** [s.strip(chars)] *)
Definition strip_chars (chars : string) (s : string) : string :=
  rstrip_with (λ c, char_in c chars) (lstrip_with (λ c, char_in c chars) s).

(** [s.split(sep)] for a separator of one character. *)
Fixpoint split (sep : ascii) (s : string) : list string :=
  match s with
  | EmptyString => [EmptyString]
  | String c s' =>
      if Ascii.eqb c sep then EmptyString :: split sep s'
      else match split sep s' with
           | t :: ts => String c t :: ts
           | [] => [String c EmptyString]
           end
  end.

(** [s.lower()] *)
Definition lower_char (c : ascii) : ascii :=
  let n := Z.of_N (N_of_ascii c) in
  if bool_decide (65 ≤ n ≤ 90)
     || (bool_decide (192 ≤ n ≤ 222) && negb (bool_decide (n = 215)))
  then ascii_of_N (N_of_ascii c + 32) else c.

Fixpoint lower (s : string) : string :=
  match s with
  | EmptyString => EmptyString
  | String c s' => String (lower_char c) (lower s')
  end.

(** [sub in s] *)
Fixpoint contains (sub s : string) : bool :=
  String.prefix sub s
  || match s with
     | EmptyString => false
     | String _ s' => contains sub s'
     end.

(** *** [re.split(r"\)\s*,\s*\(", s)] *)

Fixpoint skip_spaces (s : string) : nat * string :=
  match s with
  | EmptyString => (0%nat, EmptyString)
  | String c s' =>
      if isspace c then let '(n, r) := skip_spaces s' in (S n, r)
      else (0%nat, s)
  end.

(** The length of the match of the pattern at the start of [s].  The three
    literals and the class [\s] are pairwise disjoint, so the greedy
    [\s*] never has to give a character back. *)
Definition match_delimiter (s : string) : option nat :=
  match s with
  | String ")" s1 =>
      let '(n1, s2) := skip_spaces s1 in
      match s2 with
      | String "," s3 =>
          let '(n2, s4) := skip_spaces s3 in
          match s4 with
          | String "(" _ => Some (n1 + n2 + 3)%nat
          | _ => None
          end
      | _ => None
      end
  | _ => None
  end.

(** The pieces between the leftmost non-overlapping matches; [skip] counts
    the characters of the current match still to pass over. *)
Fixpoint re_split_from (skip : nat) (s : string) : list string :=
  match s with
  | EmptyString => [EmptyString]
  | String c s' =>
      match skip with
      | S k => re_split_from k s'
      | O =>
          match match_delimiter s with
          | Some n => EmptyString :: re_split_from (n - 1) s'
          | None =>
              match re_split_from 0 s' with
              | t :: ts => String c t :: ts
              | [] => [String c EmptyString]
              end
          end
      end
  end.

Definition re_split_groups (s : string) : list string := re_split_from 0 s.

(** *** [int(s)] *)

(** The white space [int] skips around the number. *)
Definition int_isspace (c : ascii) : bool :=
  let n := Z.of_N (N_of_ascii c) in
  bool_decide (9 ≤ n ≤ 13) || bool_decide (n = 32)
  || bool_decide (n = 133) || bool_decide (n = 160).

Definition digit_value (c : ascii) : option Z :=
  let n := Z.of_N (N_of_ascii c) in
  if bool_decide (48 ≤ n ≤ 57) then Some (n - 48) else None.

(** The digits after a first digit, single underscores allowed between
    two digits; the value and the number of digits read. *)
Fixpoint int_digits (acc : Z) (count : nat) (s : string) : option (Z * nat) :=
  match s with
  | EmptyString => Some (acc, count)
  | String c s' =>
      match digit_value c with
      | Some d => int_digits (acc * 10 + d) (S count) s'
      | None =>
          if Ascii.eqb c "_" then
            match s' with
            | String c' s'' =>
                match digit_value c' with
                | Some d => int_digits (acc * 10 + d) (S count) s''
                | None => None
                end
            | EmptyString => None
            end
          else None
      end
  end.

(** The default of [sys.get_int_max_str_digits()]. *)
Definition int_max_str_digits : nat := 4300.

Definition int (s : string) : result Z :=
  let s := rstrip_with int_isspace (lstrip_with int_isspace s) in
  let '(sign, s) :=
    match s with
    | String "+" r => (1, r)
    | String "-" r => (-1, r)
    | _ => (1, s)
    end in
  match s with
  | String c s' =>
      match digit_value c with
      | Some d =>
          match int_digits d 1 s' with
          | Some (v, n) =>
              if bool_decide (n ≤ int_max_str_digits)%nat
              then Ok (sign * v) else Raise ValueError
          | None => Raise ValueError
          end
      | None => Raise ValueError
      end
  | EmptyString => Raise ValueError
  end.

(** [list(range(n))] *)
Definition range (n : nat) : list Z := Z.of_nat <$> seq 0 n.

(** [sum(l)] *)
Definition sum (l : list Z) : Z := foldl Z.add 0 l.

(** [l[i]] *)
Definition list_getitem {A : Type} (l : list A) (i : Z) : result A :=
  let j := if bool_decide (i < 0) then i + Z.of_nat (length l) else i in
  if bool_decide (0 ≤ j) then
    match l !! Z.to_nat j with
    | Some x => Ok x
    | None => Raise IndexError
    end
  else Raise IndexError.

End Py.

(** ** Insertion-ordered dictionaries *)

Module Dict.
Section dict.
Context {K V : Type} `{EqDecision K}.

Fixpoint get (d : list (K * V)) (k : K) : option V :=
  match d with
  | [] => None
  | (k', v) :: d' => if decide (k' = k) then Some v else get d' k
  end.

(** [d[k]] *)
Definition getitem (d : list (K * V)) (k : K) : result V :=
  match get d k with
  | Some v => Ok v
  | None => Raise KeyError
  end.

(** [d[k] = v]: a key already present keeps its place. *)
Fixpoint set (d : list (K * V)) (k : K) (v : V) : list (K * V) :=
  match d with
  | [] => [(k, v)]
  | (k', v') :: d' =>
      if decide (k' = k) then (k, v) :: d' else (k', v') :: set d' k v
  end.

Definition keys (d : list (K * V)) : list K := d.*1.
Definition values (d : list (K * V)) : list V := d.*2.
End dict.
End Dict.

(** ** The models ([app/models]) *)

Module Requirement.
Record t : Type := mk {
  id : Z;
  description : string;
  is_architecturally_significant : bool;
  quality_attributes : list string;
  condition_text : string;
  condition_embeddings : list float;
}.

Definition set_condition_embeddings (r : t) (e : list float) : t :=
  mk (id r) (description r) (is_architecturally_significant r)
     (quality_attributes r) (condition_text r) e.
End Requirement.

Module ConditionGroup.
Record t : Type := mk {
  nominal_condition : string;
  requirements : list Requirement.t;
}.
End ConditionGroup.

Module SatisfiableGroup.
Record t : Type := mk {
  condition_groups : list ConditionGroup.t;
}.
End SatisfiableGroup.

(** [Decision.score] is an [int], or the float [-inf] the greedy search
    starts from. *)
Inductive score : Type :=
  | NegInf
  | Int (z : Z).

Module Decision.
Record t : Type := mk {
  arch_pattern_name : string;
  selected_pattern : string;
  score : score;
  satisfied_qualities : list (string * Z);
  unsatisfied_qualities : list (string * Z);
}.
End Decision.

Definition score_add (a b : score) : score :=
  match a, b with
  | Int x, Int y => Int (x + y)
  | _, _ => NegInf
  end.

(** [Concern.total_score]: [sum(d.score for d in self.decisions)] *)
Definition total_score (decisions : list Decision.t) : score :=
  foldl (λ acc d, score_add acc (Decision.score d)) (Int 0) decisions.

Module Concern.
Record t : Type := mk {
  desired_qualities : gmap string Z;
  decisions : list Decision.t;
  satisfiable_group : SatisfiableGroup.t;
}.

(** [Concern.conditions] *)
Definition conditions (self : t) : list string :=
  ConditionGroup.nominal_condition
    <$> SatisfiableGroup.condition_groups (satisfiable_group self).
End Concern.

(** ** The scoring matrix ([app/models/matrix.py]) *)

Module Matrix.
Definition row : Type := list (string * Z).

Record t : Type := mk {
  _rows : list (string * row);
  row_groups : list (string * string);
}.

Definition set_element (self : t) (row_key column_key : string) (value : Z)
  : t :=
  let rows :=
    match Dict.get (_rows self) row_key with
    | None => Dict.set (_rows self) row_key []
    | Some _ => _rows self
    end in
  mk (Dict.set rows row_key
        (Dict.set (default [] (Dict.get rows row_key)) column_key value))
     (row_groups self).

Definition get_element (self : t) (row_key column_key : string) : result Z :=
  match Dict.get (_rows self) row_key with
  | Some columns =>
      match Dict.get columns column_key with
      | Some value => Ok value
      | None => Raise KeyError
      end
  | None => Raise KeyError
  end.

Definition get_rows (self : t) : list (string * row) := _rows self.

Definition get_rows_by_group (self : t) (group : string)
  : result (list (string * row)) :=
  foldl (λ acc '(row_key, row_group),
           group_rows ←! acc;
           if decide (row_group = group) then
             r ←! Dict.getitem (_rows self) row_key;
             Ok (Dict.set group_rows row_key r)
           else Ok group_rows)
        (Ok []) (row_groups self).

Definition get_all_groups (self : t) : gset string :=
  list_to_set (Dict.values (row_groups self)).

(** Quality attribute abbreviation mappings *)
Definition QA_MAPPINGS : list (string * string) :=
  [("PE", "Performance Efficiency"); ("CO", "Compatibility");
   ("US", "Usability"); ("RE", "Reliability"); ("SE", "Security");
   ("MA", "Maintainability"); ("PO", "Portability");
   ("CE", "Cost Efficiency")].

(** [[p.strip() for p in line.split(delimiter) if p.strip()]] *)
Definition stripped_parts (delimiter : ascii) (line : string) : list string :=
  filter (λ p, p ≠ "") (Py.strip <$> Py.split delimiter line).

(** [load_from_csv] from [lines = f.readlines()] on. *)
Definition load_from_csv (lines : list string) (tab_separated : bool)
  : result t :=
  let matrix := mk [] [] in
  let delimiter := if tab_separated then "009"%char else ","%char in
  header ←! Py.list_getitem lines 0;
  let header_parts := stripped_parts delimiter header in
  let qualities :=
    (λ abbr, default abbr (Dict.get QA_MAPPINGS abbr)) <$> header_parts in
  foldl (λ acc line,
           matrix ←! acc;
           let parts := stripped_parts delimiter line in
           if bool_decide (length parts < 3)%nat then Ok matrix
           else
             group ←! Py.list_getitem parts 0;
             pattern ←! Py.list_getitem parts 1;
             let matrix :=
               mk (_rows matrix)
                  (Dict.set (row_groups matrix) pattern group) in
             foldl (λ acc '(i, value_str),
                      matrix ←! acc;
                      if bool_decide (i < length qualities)%nat then
                        match Py.int value_str with
                        | Ok value =>
                            quality ←!
                              Py.list_getitem qualities (Z.of_nat i);
                            Ok (set_element matrix pattern quality value)
                        | Raise ValueError => Ok matrix
                        | Raise e => Raise e
                        end
                      else Ok matrix)
                   (Ok matrix) (imap pair (drop 2 parts)))
        (Ok matrix) (drop 1 lines).
End Matrix.

(** ** Clustering ([app/services/clustering_service.py]) *)

Module ClusteringService.
Section kmeans.
(** [KMeans(n_clusters=k, random_state=42, n_init=10)] of scikit-learn,
    fitted on the data: its [inertia_] and its [fit_predict], or the
    exception the fitting raises. *)
Variable KMeans_inertia : list (list float) → Z → result float.
Variable KMeans_fit_predict : list (list float) → Z → result (list Z).

(** [np.array(embeddings)]: vectors of one length make a matrix; for
    vectors of unequal lengths NumPy raises [ValueError]. *)
Definition np_array (embeddings : list (list float))
  : result (list (list float)) :=
  if bool_decide (Forall (λ v, length v
                               = length (default [] (head embeddings)))
                         embeddings)
  then Ok embeddings else Raise ValueError.

(** The indices the loop reads are within the list. *)
Definition _find_elbow_point (wcss_list : list float) : nat :=
  if bool_decide (length wcss_list ≤ 2)%nat then 0%nat
  else
    snd (foldl (λ '(max_diff, optimal_k_index) i,
                  let diff :=
                    PrimFloat.sub
                      (default PrimFloat.zero (wcss_list !! (i - 1)%nat))
                      (default PrimFloat.zero (wcss_list !! i)) in
                  if PrimFloat.ltb max_diff diff then (diff, i)
                  else (max_diff, optimal_k_index))
               (neg_infinity, 0%nat)
               (seq 1 (length wcss_list - 2))).

Definition cluster_conditions (embeddings : list (list float))
    (max_clusters max_cluster_size : Z) : result (list Z) :=
  if bool_decide (embeddings = []) || bool_decide (length embeddings < 2)%nat
  then Ok (Py.range (length embeddings))
  else
    data ←! np_array embeddings;
    let n_samples := Z.of_nat (length embeddings) in
    let min_k := 2 `max` (n_samples `div` 10) in
    let max_k :=
      max_clusters `min` ((n_samples `div` 5) `min` (n_samples - 1)) in
    if bool_decide (max_k ≤ min_k) then Ok (Py.range (Z.to_nat n_samples))
    else
      wcss_list ←!
        comprehension (λ k, KMeans_inertia data k)
          ((λ i, min_k + Z.of_nat i)
             <$> seq 0 (Z.to_nat (max_k + 1 - min_k)));
      let optimal_k_index := _find_elbow_point wcss_list in
      let optimal_k := min_k + Z.of_nat optimal_k_index in
      KMeans_fit_predict data optimal_k.
End kmeans.

Definition map_to_clusters {A : Type} (items : list A)
    (cluster_assignments : list Z) : list (Z * list A) :=
  foldl (λ cluster_map '(item, cluster_id),
           let cluster_map :=
             match Dict.get cluster_map cluster_id with
             | None => Dict.set cluster_map cluster_id []
             | Some _ => cluster_map
             end in
           Dict.set cluster_map cluster_id
             (default [] (Dict.get cluster_map cluster_id) ++ [item]))
        [] (zip items cluster_assignments).
End ClusteringService.

(** ** The orchestration ([app/architect/architect.py]) *)

Module RequirementParser.
Definition ANY_CIRCUMSTANCES_CONDITION : string := "under any circumstances".

(** [load_from_text]: the requirements it leaves in [self.requirements].
    The first component of the accumulator is [Requirement._id_counter],
    which [reset_id_counter] sets to 0 and the construction of a
    requirement without an id increments. *)
Definition load_from_text (text : string) : list Requirement.t :=
  let lines := Py.split "010" (Py.strip text) in
  snd (foldl (λ '(_id_counter, requirements) line,
                let line := Py.strip line in
                if bool_decide (line ≠ "") then
                  (_id_counter + 1,
                   requirements
                   ++ [Requirement.mk (_id_counter + 1) line false [] "" []])
                else (_id_counter, requirements))
             (0, []) lines).
End RequirementParser.

Module Architect.

Inductive QualityWeightsMode : Type :=
  | EQUALLY_IMPORTANT
  | ALL_REQUIRED
  | INFERRED
  | PROVIDED.

#[global] Instance QualityWeightsMode_eq_dec : EqDecision QualityWeightsMode.
Proof. solve_decision. Defined.

(** The attributes of [self] the grouping stages read and write;
    [oracle_calls] counts the calls made to [ollama_service.call]. *)
Record t : Type := mk {
  matrix : Matrix.t;
  asrs : list Requirement.t;
  condition_groups : list ConditionGroup.t;
  satisfiable_groups : list SatisfiableGroup.t;
  oracle_calls : nat;
}.

Definition set_asrs (self : t) (l : list Requirement.t) : t :=
  mk (matrix self) l (condition_groups self) (satisfiable_groups self)
     (oracle_calls self).
Definition set_condition_groups (self : t) (l : list ConditionGroup.t) : t :=
  mk (matrix self) (asrs self) l (satisfiable_groups self) (oracle_calls self).
Definition set_satisfiable_groups (self : t) (l : list SatisfiableGroup.t)
  : t :=
  mk (matrix self) (asrs self) (condition_groups self) l (oracle_calls self).
Definition set_oracle_calls (self : t) (n : nat) : t :=
  mk (matrix self) (asrs self) (condition_groups self)
     (satisfiable_groups self) n.

Definition truthy {A : Type} (l : list A) : bool :=
  match l with
  | [] => false
  | _ :: _ => true
  end.

Section oracles.
(** The answer of the text oracle to its k-th call: a text, or an
    exception.  The instructions and the prompt are not part of the
    model: every property below holds for all answers. *)
Variable ollama_call : nat → result string.
(** The embedding oracle. *)
Variable get_embeddings : list string → list (list float).
Variable KMeans_inertia : list (list float) → Z → result float.
Variable KMeans_fit_predict : list (list float) → Z → result (list Z).

Definition call (self : t) : result string * t :=
  (ollama_call (oracle_calls self),
   set_oracle_calls self (S (oracle_calls self))).

Definition _check_condition_equivalence (condition1 condition2 : string)
    (self : t) : bool * t :=
  let '(r, self) := call self in
  match r with
  | Ok response => (Py.contains "true" (Py.lower response), self)
  | Raise _ => (false, self)
  end.

(** *** Condition groups *)

(** [req.condition_embeddings = embeddings[i]] for the i-th requirement
    with a condition; the requirement objects are those of [self.asrs]. *)
Fixpoint store_embeddings (embeddings : list (list float)) (i : nat)
    (reqs : list Requirement.t) : list Requirement.t :=
  match reqs with
  | [] => []
  | r :: rest =>
      if decide (Requirement.condition_text r
                 ≠ RequirementParser.ANY_CIRCUMSTANCES_CONDITION)
      then
        match embeddings !! i with
        | Some e => Requirement.set_condition_embeddings r e
        | None => r
        end :: store_embeddings embeddings (S i) rest
      else r :: store_embeddings embeddings i rest
  end.

(** The scan [for group in cluster_groups] of one requirement. *)
Fixpoint find_equivalent (req : Requirement.t)
    (cluster_groups : list ConditionGroup.t) (self : t)
  : option (list ConditionGroup.t) * t :=
  match cluster_groups with
  | [] => (None, self)
  | group :: rest =>
      let '(is_equivalent, self) :=
        _check_condition_equivalence (Requirement.condition_text req)
          (ConditionGroup.nominal_condition group) self in
      if is_equivalent then
        (Some (ConditionGroup.mk (ConditionGroup.nominal_condition group)
                 (ConditionGroup.requirements group ++ [req])
               :: rest), self)
      else
        let '(found, self) := find_equivalent req rest self in
        (cons group <$> found, self)
  end.

Definition group_cluster (cluster_reqs : list Requirement.t) (self : t)
  : list ConditionGroup.t * t :=
  foldl (λ '(cluster_groups, self) req,
           let fresh :=
             ConditionGroup.mk (Requirement.condition_text req) [req] in
           if truthy cluster_groups then
             let '(found, self) :=
               find_equivalent req cluster_groups self in
             match found with
             | Some cluster_groups => (cluster_groups, self)
             | None => ((cluster_groups ++ [fresh]), self)
             end
           else ([fresh], self))
        ([], self) cluster_reqs.

(** The stage returns, or raises what [cluster_conditions] raised; the
    groups appended and the embeddings stored before stay in [self]. *)
Definition _generate_condition_groups (self : t) : result unit * t :=
  let any_condition := RequirementParser.ANY_CIRCUMSTANCES_CONDITION in
  let reqs_with_conditions :=
    filter (λ r, Requirement.condition_text r ≠ any_condition)
           (asrs self) in
  let reqs_without_conditions :=
    filter (λ r, Requirement.condition_text r = any_condition)
           (asrs self) in
  let self :=
    if truthy reqs_without_conditions then
      set_condition_groups self
        (condition_groups self
         ++ [ConditionGroup.mk any_condition reqs_without_conditions])
    else self in
  if negb (truthy reqs_with_conditions) then (Ok (), self)
  else
    let conditions := Requirement.condition_text <$> reqs_with_conditions in
    let embeddings := get_embeddings conditions in
    let self := set_asrs self (store_embeddings embeddings 0 (asrs self)) in
    let reqs_with_conditions :=
      filter (λ r, Requirement.condition_text r ≠ any_condition)
             (asrs self) in
    let valid_embeddings := filter (λ e, truthy e) embeddings in
    if bool_decide (length valid_embeddings < 2)%nat then
      (Ok (),
       foldl (λ self req,
                set_condition_groups self
                  (condition_groups self
                   ++ [ConditionGroup.mk (Requirement.condition_text req)
                         [req]]))
             self reqs_with_conditions)
    else
      match ClusteringService.cluster_conditions KMeans_inertia
              KMeans_fit_predict valid_embeddings 20 30 with
      | Raise e => (Raise e, self)
      | Ok cluster_assignments =>
          let cluster_map :=
            ClusteringService.map_to_clusters reqs_with_conditions
              cluster_assignments in
          (Ok (),
           foldl (λ self cluster_reqs,
                    let '(cluster_groups, self) :=
                      group_cluster cluster_reqs self in
                    set_condition_groups self
                      (condition_groups self ++ cluster_groups))
                 self (Dict.values cluster_map))
      end.

(** *** Satisfiable groups *)

(** The inner loop over the tokens of one segment. *)
Definition segment_ids (self : t) (group_str : string) : result (list Z) :=
  foldl (λ acc id_str,
           ids ←! acc;
           let id_str := Py.strip_chars "()" (Py.strip id_str) in
           match Py.int id_str with
           | Ok idx =>
               if bool_decide
                    (1 ≤ idx ≤ Z.of_nat (length (condition_groups self)))
               then Ok (ids ++ [idx])
               else Ok ids
           | Raise ValueError => Ok ids
           | Raise e => Raise e
           end)
        (Ok []) (Py.split "," group_str).

Definition _parse_satisfiable_groups_response (response : string)
    (self : t) : result unit * t :=
  let response := Py.strip_chars "()" (Py.strip response) in
  let groups := Py.re_split_groups response in
  foldl (λ '(r, self) group_str,
           match r with
           | Raise e => (Raise e, self)
           | Ok _ =>
               match segment_ids self group_str with
               | Raise e => (Raise e, self)
               | Ok ids =>
                   if truthy ids then
                     match comprehension
                             (λ i, Py.list_getitem (condition_groups self)
                                     (i - 1)) ids with
                     | Raise e => (Raise e, self)
                     | Ok cgs =>
                         (Ok (),
                          set_satisfiable_groups self
                            (satisfiable_groups self
                             ++ [SatisfiableGroup.mk cgs]))
                     end
                   else (Ok (), self)
               end
           end)
        (Ok (), self) groups.

(** [for _ in range(n)] with its [try]/[except Exception], then the
    fallback after the loop. *)
Fixpoint retry (n : nat) (self : t) : result unit * t :=
  match n with
  | O =>
      (Ok (),
       set_satisfiable_groups self
         (satisfiable_groups self
          ++ [SatisfiableGroup.mk (condition_groups self)]))
  | S n' =>
      let '(r, self) := call self in
      match r with
      | Raise _ => retry n' self
      | Ok response =>
          let '(r, self) :=
            _parse_satisfiable_groups_response response self in
          match r with
          | Raise _ => retry n' self
          | Ok _ =>
              if truthy (satisfiable_groups self) then (Ok (), self)
              else retry n' self
          end
      end
  end.

Definition _generate_satisfiable_groups (self : t) : result unit * t :=
  if bool_decide (length (condition_groups self) ≤ 1)%nat then
    if truthy (condition_groups self) then
      (Ok (),
       set_satisfiable_groups self
         (satisfiable_groups self
          ++ [SatisfiableGroup.mk (condition_groups self)]))
    else (Ok (), self)
  else retry 3 self.
End oracles.

(** *** Quality weights *)

Definition truthy_weights (provided_weights : option (gmap string Z))
  : bool :=
  match provided_weights with
  | Some w => negb (bool_decide (w = ∅))
  | None => false
  end.

Definition _calculate_quality_weights (self : t)
    (satisfiable_group : SatisfiableGroup.t) (mode : QualityWeightsMode)
    (provided_weights : option (gmap string Z)) : gmap string Z :=
  let weights : gmap string Z := ∅ in
  if bool_decide (mode = PROVIDED) && truthy_weights provided_weights then
    default ∅ provided_weights
  else if bool_decide (mode = EQUALLY_IMPORTANT) then
    match Matrix.get_rows (matrix self) with
    | (_, columns) :: _ =>
        foldl (λ weights quality, <[quality := 1]> weights)
              weights (Dict.keys columns)
    | [] => weights
    end
  else
    foldl (λ weights cg,
             foldl (λ weights req,
                      foldl (λ weights quality,
                               <[quality :=
                                   default 0 (weights !! quality) + 1]>
                                 weights)
                            weights (Requirement.quality_attributes req))
                   weights (ConditionGroup.requirements cg))
          weights (SatisfiableGroup.condition_groups satisfiable_group).

(** [sum(weights.values())] *)
Definition sum_values (weights : gmap string Z) : Z :=
  map_fold (λ _ v acc, acc + v) 0 weights.

Definition _normalize_weights (weights : gmap string Z) : gmap string Z :=
  let total := sum_values weights in
  if bool_decide (total = 0) then weights
  else (λ v, (v * 100) `div` total) <$> weights.

End Architect.

(** ** The linear solver of OR-tools, as far as the optimizer uses it *)

Module pywraplp.
(** [solver.IntVar(lb, ub, name)] *)
Record IntVar : Type := mkIntVar {
  var_lb : Z;
  var_ub : Z;
  var_name : string;
}.

(** [solver.Constraint(lb, ub, name)] with the coefficients
    [SetCoefficient] gave it, by variable name. *)
Record Constraint : Type := mkConstraint {
  lb : Z;
  ub : Z;
  name : string;
  coefficients : list (string * Z);
}.

(** What the solver has been told when [Solve] is called; the objective
    is maximized. *)
Record Model : Type := mkModel {
  variables : list IntVar;
  constraints : list Constraint;
  objective : list (string * Z);
}.

(** The status of [Solve], with [solution_value] by variable name when
    the status is [OPTIMAL]. *)
Inductive Outcome : Type :=
  | OPTIMAL (solution_value : string → Z)
  | NOT_OPTIMAL.

Definition linear (coefs : list (string * Z)) (x : string → Z) : Z :=
  Py.sum ((λ '(v, c), c * x v) <$> coefs).

Definition feasible (m : Model) (x : string → Z) : Prop :=
  (∀ v, v ∈ variables m → var_lb v ≤ x (var_name v) ≤ var_ub v)
  ∧ (∀ c, c ∈ constraints m → lb c ≤ linear (coefficients c) x ≤ ub c).

Definition optimal (m : Model) (x : string → Z) : Prop :=
  feasible m x
  ∧ ∀ y, feasible m y → linear (objective m) y ≤ linear (objective m) x.

(** The contract of [Solve] on one model: an [OPTIMAL] answer is a
    feasible point of greatest objective, and another status is only given
    when the model has no feasible point. *)
Definition correct_on (solve : Model → Outcome) (m : Model) : Prop :=
  match solve m with
  | OPTIMAL x => optimal m x
  | NOT_OPTIMAL => ∀ x, ¬ feasible m x
  end.
End pywraplp.

(** ** The optimizer ([app/services/optimizer_service.py]) *)

Module Optimizer.

Inductive OptimizerMode : Type :=
  | ILP
  | GREEDY.

(** [row_value > decision.score] *)
Definition exceeds (row_value : Z) (s : score) : bool :=
  match s with
  | NegInf => true
  | Int z => bool_decide (z < row_value)
  end.

Definition _calculate_satisfaction_scores (matrix : Matrix.t)
    (column_weights : gmap string Z) (decisions : list Decision.t)
  : result (gmap string Z) :=
  foldl (λ acc decision,
           satisfaction_scores ←! acc;
           group_rows ←!
             Matrix.get_rows_by_group matrix
               (Decision.arch_pattern_name decision);
           match Dict.get group_rows (Decision.selected_pattern decision) with
           | Some ((_ :: _) as selected_row) =>
               Ok (foldl (λ (satisfaction_scores : gmap string Z)
                            '(col_name, col_value),
                            let weight :=
                              default 0 (column_weights !! col_name) in
                            <[col_name :=
                                default 0 (satisfaction_scores !! col_name)
                                + col_value * weight]> satisfaction_scores)
                         satisfaction_scores selected_row)
           | _ => Ok satisfaction_scores
           end)
        (Ok ∅) decisions.

(** The satisfied and the unsatisfied qualities of a row, as both modes
    collect them. *)
Definition collect (desired_qualities : list string)
    (columns : Matrix.row) : list (string * Z) * list (string * Z) :=
  foldl (λ '(satisfied, unsatisfied) '(col_name, col_value),
           if bool_decide (col_name ∈ desired_qualities) then
             if bool_decide (col_value > 0) then
               ((satisfied ++ [(col_name, col_value)]), unsatisfied)
             else if bool_decide (col_value < 0) then
               (satisfied, (unsatisfied ++ [(col_name, col_value)]))
             else (satisfied, unsatisfied)
           else (satisfied, unsatisfied))
        ([], []) columns.

(** [row_value] of the greedy scan of one row. *)
Definition row_value (desired_qualities : list string)
    (column_weights : gmap string Z) (columns : Matrix.row) : Z :=
  foldl (λ row_value '(col_name, col_value),
           if bool_decide (col_name ∈ desired_qualities) then
             let weight := default 0 (column_weights !! col_name) in
             row_value + col_value * weight
           else row_value)
        0 columns.

(** [sum(columns.get(q, 0) * column_weights.get(q, 0) for q in
    desired_qualities)] *)
Definition row_score (desired_qualities : list string)
    (column_weights : gmap string Z) (columns : Matrix.row) : Z :=
  Py.sum ((λ q, default 0 (Dict.get columns q)
                * default 0 (column_weights !! q)) <$> desired_qualities).

Section optimizer.
(** The order in which a [set] of strings is iterated. *)
Variable set_iter : gset string → list string.
(** [pywraplp.Solver.CreateSolver("SCIP")]: [None], or a solver whose
    [Solve] answers the model it was given. *)
Variable CreateSolver : option (pywraplp.Model → pywraplp.Outcome).

Definition greedy_scan (desired_qualities : list string)
    (column_weights : gmap string Z) (group : string)
    (group_rows : list (string * Matrix.row)) (decision : Decision.t)
  : Decision.t :=
  foldl (λ decision '(pattern, columns),
           let '(satisfied, unsatisfied) :=
             collect desired_qualities columns in
           let row_value :=
             row_value desired_qualities column_weights columns in
           if exceeds row_value (Decision.score decision) then
             Decision.mk group pattern (Int row_value) satisfied
               unsatisfied
           else decision)
        decision group_rows.

Definition _greedy (desired_qualities : list string) (matrix : Matrix.t)
    (column_weights : gmap string Z)
  : result (list Decision.t * gmap string Z) :=
  let groups := set_iter (Matrix.get_all_groups matrix) in
  decisions ←!
    foldl (λ acc group,
             decisions ←! acc;
             let decision := Decision.mk group "" NegInf [] [] in
             group_rows ←! Matrix.get_rows_by_group matrix group;
             Ok (decisions
                 ++ [greedy_scan desired_qualities column_weights group
                       group_rows decision]))
          (Ok []) groups;
  satisfaction_scores ←!
    _calculate_satisfaction_scores matrix column_weights decisions;
  Ok (decisions, satisfaction_scores).

(** The model [_ilp] hands to the solver. *)
Definition ilp_variables (matrix : Matrix.t)
  : list (string * pywraplp.IntVar) :=
  foldl (λ variables '(pattern, _),
           Dict.set variables pattern (pywraplp.mkIntVar 0 1 pattern))
        [] (Matrix.get_rows matrix).

Definition ilp_constraints (matrix : Matrix.t)
    (variables : list (string * pywraplp.IntVar)) (groups : list string)
  : result (list pywraplp.Constraint) :=
  foldl (λ acc group,
           constraints ←! acc;
           group_rows ←! Matrix.get_rows_by_group matrix group;
           coefs ←!
             foldl (λ acc pattern,
                      coefs ←! acc;
                      var ←! Dict.getitem variables pattern;
                      Ok (Dict.set coefs (pywraplp.var_name var) 1))
                   (Ok []) (Dict.keys group_rows);
           Ok (constraints
               ++ [pywraplp.mkConstraint 1 1
                     ("OnlyOneRowInGroup_" +:+ group) coefs]))
        (Ok []) groups.

Definition ilp_objective (desired_qualities : list string)
    (matrix : Matrix.t) (column_weights : gmap string Z)
    (variables : list (string * pywraplp.IntVar))
  : result (list (string * Z)) :=
  foldl (λ acc '(pattern, columns),
           coefs ←! acc;
           let row_score :=
             row_score desired_qualities column_weights columns in
           var ←! Dict.getitem variables pattern;
           Ok (Dict.set coefs (pywraplp.var_name var) row_score))
        (Ok []) (Matrix.get_rows matrix).

Definition ilp_model (desired_qualities : list string) (matrix : Matrix.t)
    (column_weights : gmap string Z) : result pywraplp.Model :=
  let variables := ilp_variables matrix in
  let groups := set_iter (Matrix.get_all_groups matrix) in
  constraints ←! ilp_constraints matrix variables groups;
  objective ←!
    ilp_objective desired_qualities matrix column_weights variables;
  Ok (pywraplp.mkModel (Dict.values variables) constraints objective).

(** The inner loop of the extraction: the first pattern of the group
    whose variable is 1. *)
Fixpoint ilp_extract (desired_qualities : list string)
    (column_weights : gmap string Z)
    (variables : list (string * pywraplp.IntVar))
    (solution_value : string → Z) (group : string)
    (group_rows : list (string * Matrix.row))
  : result (option Decision.t) :=
  match group_rows with
  | [] => Ok None
  | (pattern, columns) :: rest =>
      var ←! Dict.getitem variables pattern;
      if bool_decide (solution_value (pywraplp.var_name var) = 1) then
        let '(satisfied, unsatisfied) :=
          collect desired_qualities columns in
        let score :=
          row_score desired_qualities column_weights columns in
        Ok (Some (Decision.mk group pattern (Int score) satisfied
                    unsatisfied))
      else
        ilp_extract desired_qualities column_weights variables
          solution_value group rest
  end.

Definition _ilp (desired_qualities : list string) (matrix : Matrix.t)
    (column_weights : gmap string Z)
  : result (list Decision.t * gmap string Z) :=
  match CreateSolver with
  | None => Ok ([], ∅)
  | Some solve =>
      let variables := ilp_variables matrix in
      let groups := set_iter (Matrix.get_all_groups matrix) in
      model ←! ilp_model desired_qualities matrix column_weights;
      match solve model with
      | pywraplp.NOT_OPTIMAL => Ok ([], ∅)
      | pywraplp.OPTIMAL solution_value =>
          decisions ←!
            foldl (λ acc group,
                     decisions ←! acc;
                     group_rows ←! Matrix.get_rows_by_group matrix group;
                     found ←!
                       ilp_extract desired_qualities column_weights
                         variables solution_value group group_rows;
                     match found with
                     | Some decision => Ok (decisions ++ [decision])
                     | None => Ok decisions
                     end)
                  (Ok []) groups;
          satisfaction_scores ←!
            _calculate_satisfaction_scores matrix column_weights decisions;
          Ok (decisions, satisfaction_scores)
      end
  end.

Definition optimize (mode : OptimizerMode) (desired_qualities : list string)
    (matrix : Matrix.t) (column_weights : gmap string Z)
  : result (list Decision.t * gmap string Z) :=
  match mode with
  | ILP => _ilp desired_qualities matrix column_weights
  | GREEDY => _greedy desired_qualities matrix column_weights
  end.
End optimizer.
End Optimizer.

(** ** The analysis ([Architect.analyze]) *)

Module Analyze.
Section analyze.
Variable ollama_call : nat → result string.
Variable get_embeddings : list string → list (list float).
Variable KMeans_inertia : list (list float) → Z → result float.
Variable KMeans_fit_predict : list (list float) → Z → result (list Z).
Variable set_iter : gset string → list string.
Variable CreateSolver : option (pywraplp.Model → pywraplp.Outcome).
(** [list(d.keys())] of a dictionary of weights. *)
Variable dict_keys : gmap string Z → list string.


End analyze.
End Analyze.

(** ** Notions of the specification *)

(** [r] is the floor of the rational [a / b]. *)
Definition is_floor (r a b : Z) : Prop :=
  (0 < b → r * b ≤ a < (r + 1) * b) ∧ (b < 0 → (r + 1) * b < a ≤ r * b).

Definition Zsum {A : Type} (f : A → Z) (l : list A) : Z :=
  foldr (λ x acc, f x + acc) 0 l.

(** The occurrences of the quality [q] in the quality attributes of the
    requirements of a condition group. *)
Definition quality_count (q : string) (cg : ConditionGroup.t) : Z :=
  Zsum (λ req, Z.of_nat (length (filter (λ a, a = q)
                                   (Requirement.quality_attributes req))))
       (ConditionGroup.requirements cg).

(** *** The scoring matrix and the selection, as the specification reads
    them *)

(** A matrix as a scoring table gives it: the keys of each dictionary are
    distinct, and every pattern that has a category has a row. *)
Definition matrix_wf (m : Matrix.t) : Prop :=
  NoDup (Dict.keys (Matrix._rows m))
  ∧ NoDup (Dict.keys (Matrix.row_groups m))
  ∧ Forall (λ r, NoDup (Dict.keys r.2)) (Matrix._rows m)
  ∧ Forall (λ p, p ∈ Dict.keys (Matrix._rows m))
           (Dict.keys (Matrix.row_groups m)).

#[global] Instance matrix_wf_dec m : Decision (matrix_wf m).
Proof. unfold matrix_wf. apply _. Defined.

(** A table read under a header of the given qualities: distinct keys, no
    row without a category, no row without a column, and no column the
    header does not name. *)
Definition matrix_loaded (qualities : list string) (m : Matrix.t) : Prop :=
  NoDup (Dict.keys (Matrix._rows m))
  ∧ NoDup (Dict.keys (Matrix.row_groups m))
  ∧ Forall (λ r, NoDup (Dict.keys r.2) ∧ r.2 ≠ []
                 ∧ ∀ q, q ∈ Dict.keys r.2 → q ∈ qualities)
           (Matrix._rows m)
  ∧ ∀ p, p ∈ Dict.keys (Matrix._rows m) → p ∈ Dict.keys (Matrix.row_groups m).

(** A data line of the table that names the pattern [p]: it has a
    category, the pattern and at least one cell. *)
Definition line_names (delimiter : ascii) (p : string) (line : string)
  : Prop :=
  ∃ group cells,
    Matrix.stripped_parts delimiter line = group :: p :: cells ∧ cells ≠ [].

(** A data line that gives the pattern [p] a value: one of its first [n]
    cells is an integer. *)
Definition line_gives_value (delimiter : ascii) (n : nat) (p : string)
    (line : string) : Prop :=
  ∃ group cells i cell value,
    Matrix.stripped_parts delimiter line = group :: p :: cells
    ∧ cells !! i = Some cell ∧ (i < n)%nat ∧ Py.int cell = Ok value.

(** Vectors all of the same length. *)
Definition same_length (embeddings : list (list float)) : Prop :=
  ∀ v v', v ∈ embeddings → v' ∈ embeddings → length v = length v'.


(** Iterating a set visits each member once. *)
Definition set_iter_spec (set_iter : gset string → list string) : Prop :=
  ∀ X, NoDup (set_iter X) ∧ ∀ x, x ∈ set_iter X ↔ x ∈ X.

(** The patterns of a decision category, each with its row. *)
Definition patterns_of (m : Matrix.t) (group : string)
  : list (string * Matrix.row) :=
  omap (λ '(p, g),
          if decide (g = group)
          then pair p <$> Dict.get (Matrix._rows m) p else None)
       (Matrix.row_groups m).

(** The row score: the sum over the desired qualities of the matrix value
    times the weight of the quality, a missing entry counting as 0. *)
Definition documented_score (desired_qualities : list string)
    (weights : gmap string Z) (columns : Matrix.row) : Z :=
  Zsum (λ q, default 0 (Dict.get columns q) * default 0 (weights !! q))
       desired_qualities.

(** The 0/1 program of the exact mode: one variable per pattern, one
    constraint per category (its variables sum to 1), the row scores as
    objective. *)
Definition exact_model (groups : list string) (desired_qualities : list string)
    (m : Matrix.t) (weights : gmap string Z) : pywraplp.Model :=
  pywraplp.mkModel
    ((λ '(p, _), pywraplp.mkIntVar 0 1 p) <$> Matrix._rows m)
    ((λ g, pywraplp.mkConstraint 1 1 ("OnlyOneRowInGroup_" +:+ g)
             ((λ p, (p, 1)) <$> Dict.keys (patterns_of m g))) <$> groups)
    ((λ '(p, columns),
        (p, documented_score desired_qualities weights columns))
       <$> Matrix._rows m).

(** A 0/1 assignment with the choice moved from [p] to [p']. *)
Definition swap (x : string → Z) (p p' : string) : string → Z :=
  λ q, if decide (q = p) then 0 else if decide (q = p') then 1 else x q.

(** The decision of a category selects one of its patterns, of greatest
    row score, and carries that score. *)
Definition selects_maximum (desired_qualities : list string) (m : Matrix.t)
    (weights : gmap string Z) (group : string) (d : Decision.t) : Prop :=
  Decision.arch_pattern_name d = group
  ∧ ∃ columns,
      (Decision.selected_pattern d, columns) ∈ patterns_of m group
      ∧ Decision.score d = Int (documented_score desired_qualities weights columns)
      ∧ ∀ p' columns',
          (p', columns') ∈ patterns_of m group →
          documented_score desired_qualities weights columns'
          ≤ documented_score desired_qualities weights columns.

(** *** The partition response, as the specification reads it *)

(** The text between the outer parentheses, cut at every
    close-paren, comma, open-paren delimiter. *)
Definition segments (response : string) : list string :=
  Py.re_split_groups (Py.strip_chars "()" (Py.strip response)).

Definition tokens (segment : string) : list string := Py.split "," segment.

(** The 1-based index a token names among [n] condition groups; [None]
    for a token that is not a number or is out of range. *)
Definition token_index (n : nat) (token : string) : option Z :=
  match Py.int (Py.strip_chars "()" (Py.strip token)) with
  | Ok i => if bool_decide (1 ≤ i ≤ Z.of_nat n) then Some i else None
  | Raise _ => None
  end.

(** The valid indices of a segment: every valid token, in order. *)
Definition segment_indices (n : nat) (segment : string) : list Z :=
  omap (token_index n) (tokens segment).

Definition select (cgs : list ConditionGroup.t) (ids : list Z)
  : list ConditionGroup.t :=
  omap (λ i, cgs !! Z.to_nat (i - 1)) ids.

(** A segment with at least one valid index is one satisfiable group. *)
Definition segment_group (cgs : list ConditionGroup.t) (segment : string)
  : option SatisfiableGroup.t :=
  match segment_indices (length cgs) segment with
  | [] => None
  | ids => Some (SatisfiableGroup.mk (select cgs ids))
  end.

Definition parsed_groups (cgs : list ConditionGroup.t) (response : string)
  : list SatisfiableGroup.t :=
  omap (segment_group cgs) (segments response).

(** The satisfiable groups the k-th call of the oracle yields: those read
    in its answer; none when the call raised. *)
Definition attempt_groups (ollama_call : nat → result string)
    (cgs : list ConditionGroup.t) (k : nat) : list SatisfiableGroup.t :=
  match ollama_call k with
  | Ok response => parsed_groups cgs response
  | Raise _ => []
  end.

(** The number of condition groups that hold a requirement of the given
    id. *)
Definition groups_holding (id : Z) (cgs : list ConditionGroup.t) : nat :=
  length (filter (λ cg, id ∈ Requirement.id <$> ConditionGroup.requirements cg)
                 cgs).

(** The union of the column sets of all rows of a matrix. *)
Definition all_columns (m : Matrix.t) : gset string :=
  ⋃ ((λ '(_, columns), list_to_set (Dict.keys columns)) <$> Matrix.get_rows m).

(** ** Sample data *)

Module Sample.
(** A K-Means that cannot be fitted: what is proved with it does not
    depend on K-Means. *)
Definition no_inertia : list (list float) → Z → result float :=
  λ _ _, Raise (Exception "K-Means is not available").
Definition no_fit_predict : list (list float) → Z → result (list Z) :=
  λ _ _, Raise (Exception "K-Means is not available").
(** A stand-in for a K-Means that fits: some inertia, and the labels
    [0, ..., k-1] given in turn. *)
Definition some_inertia : list (list float) → Z → result float :=
  λ _ _, Ok PrimFloat.one.
Definition some_fit_predict : list (list float) → Z → result (list Z) :=
  λ data k, Ok ((λ i, Z.of_nat i `mod` k) <$> seq 0 (length data)).
(** Fifteen points on a line, and two vectors of unequal length. *)
Definition fifteen_points : list (list float) :=
  [[1%float]; [2%float]; [3%float]; [4%float]; [5%float]; [6%float];
   [7%float]; [8%float]; [9%float]; [10%float]; [11%float]; [12%float];
   [13%float]; [14%float]; [15%float]].
Definition unequal_vectors : list (list float) :=
  [[1%float]; [1%float; 2%float]].
Definition three_vectors : list (list float) :=
  [[1%float]; [2%float]; [3%float]].
Definition weights_1_2 : gmap string Z :=
  <["Security" := 1]> (<["Usability" := 2]> ∅).

Definition req (id : Z) (condition : string) (qualities : list string)
  : Requirement.t :=
  Requirement.mk id "" true qualities condition [].
Definition r1 : Requirement.t := req 1 "when offline" ["Security"].
Definition r2 : Requirement.t := req 2 "during peak load" ["Usability"].
Definition r3 : Requirement.t := req 3 "in the EU" ["Reliability"].
Definition cg1 : ConditionGroup.t := ConditionGroup.mk "when offline" [r1].
Definition cg2 : ConditionGroup.t := ConditionGroup.mk "during peak load" [r2].
Definition sg1 : SatisfiableGroup.t := SatisfiableGroup.mk [cg1].

(** A matrix whose first row lacks a column of the second: the table
    loader skips a cell that is not an integer. *)
Definition ragged : Matrix.t :=
  Matrix.mk [("Monolith", [("Security", 1)]);
             ("Microservices", [("Security", 0); ("Usability", 1)])]
            [("Monolith", "Deployment"); ("Microservices", "Deployment")].

Definition r0 : Requirement.t :=
  req 4 RequirementParser.ANY_CIRCUMSTANCES_CONDITION ["Security"].
Definition cg_any : ConditionGroup.t :=
  ConditionGroup.mk RequirementParser.ANY_CIRCUMSTANCES_CONDITION [r0].

(** A partition oracle that leaves group 1 out, and one that always fails. *)
Definition oracle_2_3 : nat → result string := λ _, Ok "((2),(3))".
Definition oracle_down : nat → result string :=
  λ _, Raise (Exception "Error calling Ollama API: Too many retries").
(** An oracle whose first answer cannot be parsed. *)
Definition oracle_second : nat → result string :=
  λ k, match k with
       | O => Ok "I cannot group these."
       | _ => Ok "((1,2),(1,3))"
       end.

(** An embedding oracle that fails on the first of three texts. *)
Definition partial_embeddings : list string → list (list float) :=
  λ _, [[]; [1%float]; [2%float]].

(** The deployment patterns of the optimizer's tests. *)
Definition deployment : Matrix.t :=
  Matrix.mk
    [("Monolith",
      [("Performance Efficiency", 1); ("Security", 1); ("Maintainability", -1)]);
     ("Microservices",
      [("Performance Efficiency", 0); ("Security", 0); ("Maintainability", 1)])]
    [("Monolith", "Deployment"); ("Microservices", "Deployment")].
Definition desired_perf_sec : list string :=
  ["Performance Efficiency"; "Security"].
Definition weights_50_50 : gmap string Z :=
  <["Performance Efficiency" := 50]> (<["Security" := 50]> ∅).
(** A table in which [Monolith] has a category and no row, as the loader
    leaves it when no cell of its line is an integer; and a table of one
    pattern. *)
Definition missing_row : Matrix.t :=
  Matrix.mk [("Microservices", [("Security", 1)])]
            [("Monolith", "Deployment"); ("Microservices", "Deployment")].
Definition one_pattern : Matrix.t :=
  Matrix.mk [("Monolith", [("Security", -1)])] [("Monolith", "Deployment")].
Definition security_twice : list string := ["Security"; "Security"].
Definition weights_security : gmap string Z := <["Security" := 100]> ∅.
(** A solver that answers with the assignment choosing [Monolith]. *)
Definition solve_monolith : pywraplp.Model → pywraplp.Outcome :=
  λ _, pywraplp.OPTIMAL (λ p, if decide (p = "Monolith") then 1 else 0).

Definition architect (m : Matrix.t) (asrs : list Requirement.t)
    (cgs : list ConditionGroup.t) : Architect.t :=
  Architect.mk m asrs cgs [] 0.
End Sample.

(** * Properties *)

(** ** Clustering *)


Lemma range_lookup n i : (i < n)%nat → Py.range n !! i = Some (Z.of_nat i).
Proof.
  intros Hi. unfold Py.range.
  rewrite list_lookup_fmap, lookup_seq_lt by done. done.
Qed.

Lemma np_array_same_length (embeddings : list (list float)) :
  same_length embeddings →
  ClusteringService.np_array embeddings = Ok embeddings.
Proof.
  intros Hsame. unfold ClusteringService.np_array.
  rewrite bool_decide_eq_true_2; [done|].
  apply Forall_forall. intros v Hv.
  destruct embeddings as [|v0 embeddings]; [by apply elem_of_nil in Hv|].
  simpl. apply Hsame; [done|left].
Qed.

Lemma np_array_unequal (embeddings : list (list float)) :
  ¬ same_length embeddings →
  ClusteringService.np_array embeddings = Raise ValueError.
Proof.
  intros Hnot. unfold ClusteringService.np_array.
  rewrite bool_decide_eq_false_2; [done|]. intros Hall. apply Hnot.
  rewrite Forall_forall in Hall. intros v v' Hv Hv'.
  by rewrite (Hall v Hv), (Hall v' Hv').
Qed.

(** C9, amended: [cluster_conditions] returns the identity assignment
    [0, 1, ..., n-1] when there are fewer than 2 vectors, and, for vectors
    all of the same length, when [max_k <= min_k] for
    [min_k = max(2, n div 10)] and
    [max_k = min(max_clusters, n div 5, n - 1)].  For two or more vectors
    not all of the same length it raises [ValueError], whatever [max_k]
    and [min_k] are. *)
Theorem cluster_conditions_identity
    (KMeans_inertia : list (list float) → Z → result float)
    (KMeans_fit_predict : list (list float) → Z → result (list Z))
    (embeddings : list (list float)) (max_clusters max_cluster_size : Z) :
  let n := Z.of_nat (length embeddings) in
  let min_k := 2 `max` (n `div` 10) in
  let max_k := max_clusters `min` ((n `div` 5) `min` (n - 1)) in
  (n < 2 ∨ (max_k ≤ min_k ∧ same_length embeddings) →
   ClusteringService.cluster_conditions KMeans_inertia KMeans_fit_predict
     embeddings max_clusters max_cluster_size
   = Ok (Z.of_nat <$> seq 0 (length embeddings)))
  ∧ (2 ≤ n → ¬ same_length embeddings →
     ClusteringService.cluster_conditions KMeans_inertia KMeans_fit_predict
       embeddings max_clusters max_cluster_size
     = Raise ValueError).
Proof.
  intros n min_k max_k.
  unfold ClusteringService.cluster_conditions. split.
  - intros H.
    destruct (bool_decide (embeddings = [])
              || bool_decide (length embeddings < 2)%nat)
      eqn:Hsmall; [done|].
    apply orb_false_iff in Hsmall as [_ Hlen].
    apply bool_decide_eq_false in Hlen.
    destruct H as [H|[H Hsame]]; [unfold n in H; lia|].
    rewrite np_array_same_length by done. cbn [bind].
    fold n. fold min_k. fold max_k.
    rewrite bool_decide_eq_true_2 by done.
    unfold n. by rewrite Nat2Z.id.
  - intros Hn Hnot.
    rewrite (bool_decide_eq_false_2 (embeddings = []))
      by (intros ->; simpl in n; lia).
    rewrite (bool_decide_eq_false_2 (length embeddings < 2)%nat)
      by (unfold n in Hn; lia).
    cbn [orb]. by rewrite np_array_unequal.
Qed.

Lemma cluster_conditions_identity_witness :
  ClusteringService.cluster_conditions Sample.no_inertia Sample.no_fit_predict
    Sample.three_vectors 20 30 = Ok [0; 1; 2].
Proof.
  apply (cluster_conditions_identity Sample.no_inertia Sample.no_fit_predict
           Sample.three_vectors 20 30).
  right. split; [by vm_compute|].
  intros v v' Hv Hv'. unfold Sample.three_vectors in *.
  repeat (apply elem_of_cons in Hv as [->|Hv]);
    [| | |by apply elem_of_nil in Hv];
    (repeat (apply elem_of_cons in Hv' as [->|Hv']);
     [done..|by apply elem_of_nil in Hv']).
Defined.

(** C9, the claim as it was stated: two vectors of unequal length have
    [max_k <= min_k], and [cluster_conditions] raises [ValueError] in
    [np.array] instead of returning [[0, 1]]. *)
Lemma cluster_conditions_unequal_lengths :
  let n := Z.of_nat (length Sample.unequal_vectors) in
  20 `min` ((n `div` 5) `min` (n - 1)) ≤ 2 `max` (n `div` 10)
  ∧ ClusteringService.cluster_conditions Sample.no_inertia
      Sample.no_fit_predict Sample.unequal_vectors 20 30
    = Raise ValueError
  ∧ ClusteringService.cluster_conditions Sample.no_inertia
      Sample.no_fit_predict Sample.unequal_vectors 20 30
    ≠ Ok [0; 1].
Proof. split; [by vm_compute|]. split; [by vm_compute|by vm_compute]. Qed.

(** ** Weights *)

Lemma sum_values_empty : Architect.sum_values ∅ = 0.
Proof. done. Qed.

Lemma sum_values_insert (weights : gmap string Z) q v :
  weights !! q = None →
  Architect.sum_values (<[q := v]> weights) = Architect.sum_values weights + v.
Proof.
  intros Hq. unfold Architect.sum_values.
  rewrite map_fold_insert_L; [done| |done].
  intros. lia.
Qed.

Lemma div_is_floor a b : b ≠ 0 → is_floor (a `div` b) a b.
Proof.
  intros Hb. split; intros Hs.
  - pose proof (Z.mod_pos_bound a b Hs). pose proof (Z.div_mod a b Hb). nia.
  - pose proof (Z.mod_neg_bound a b Hs). pose proof (Z.div_mod a b Hb). nia.
Qed.

(** C8: for a weight map of nonzero total, normalization keeps the key set
    and maps every weight [v] to the floor of [v * 100 / total]; a weight
    map of total 0 (the empty map among them) is returned unchanged. *)
Theorem normalize_weights_floor (weights : gmap string Z) :
  let total := Architect.sum_values weights in
  (total ≠ 0 →
   dom (Architect._normalize_weights weights) = dom weights
   ∧ ∀ q v, weights !! q = Some v →
       ∃ r, Architect._normalize_weights weights !! q = Some r
            ∧ r = (v * 100) `div` total
            ∧ is_floor r (v * 100) total)
  ∧ (total = 0 → Architect._normalize_weights weights = weights).
Proof.
  intros total. unfold Architect._normalize_weights. fold total. split.
  - intros Htotal. rewrite bool_decide_eq_false_2 by done. split.
    + apply dom_fmap_L.
    + intros q v Hq. exists ((v * 100) `div` total).
      rewrite lookup_fmap, Hq. split; [done|]. split; [done|].
      by apply div_is_floor.
  - intros Htotal. by rewrite bool_decide_eq_true_2.
Qed.

Lemma normalize_weights_floor_witness :
  (dom (Architect._normalize_weights Sample.weights_1_2)
   = dom Sample.weights_1_2
   ∧ ∀ q v, Sample.weights_1_2 !! q = Some v →
       ∃ r, Architect._normalize_weights Sample.weights_1_2 !! q = Some r
            ∧ r = (v * 100) `div` 3
            ∧ is_floor r (v * 100) 3)
  ∧ Architect._normalize_weights ∅ = ∅.
Proof.
  split.
  - apply (proj1 (normalize_weights_floor Sample.weights_1_2)).
    vm_compute. discriminate.
  - apply (proj2 (normalize_weights_floor ∅)). reflexivity.
Defined.

Lemma equally_important_fold (columns : list string) (w : gmap string Z) q :
  foldl (λ weights quality, <[quality := 1]> weights) w columns !! q
  = if bool_decide (q ∈ columns) then Some 1 else w !! q.
Proof.
  revert w. induction columns as [|c columns IH]; intros w; simpl; [done|].
  rewrite IH. destruct (decide (c = q)) as [->|Hne].
  - rewrite (bool_decide_eq_true_2 (q ∈ q :: columns)) by set_solver.
    case_bool_decide; [done|]. by rewrite lookup_insert_eq.
  - rewrite lookup_insert_ne by done.
    destruct (decide (q ∈ columns)).
    + by rewrite !bool_decide_eq_true_2 by set_solver.
    + by rewrite !bool_decide_eq_false_2 by set_solver.
Qed.

(** With EQUALLY_IMPORTANT the weights are 1 on the columns of the first
    row of the matrix, whatever the satisfiable group and the provided
    weights. *)
Lemma equally_important_first_row self sg provided_weights q :
  Architect._calculate_quality_weights self sg Architect.EQUALLY_IMPORTANT
    provided_weights !! q
  = match Matrix.get_rows (Architect.matrix self) with
    | (_, columns) :: _ =>
        if bool_decide (q ∈ Dict.keys columns) then Some 1 else None
    | [] => None
    end.
Proof.
  unfold Architect._calculate_quality_weights. simpl.
  destruct (Matrix.get_rows _) as [|[p columns] rows]; [done|].
  by rewrite equally_important_fold, lookup_empty.
Qed.

(** When every row has the columns of the first one, these are all the
    columns of the matrix. *)
Lemma equally_important_rectangular self sg provided_weights p columns rows q :
  Matrix.get_rows (Architect.matrix self) = (p, columns) :: rows →
  Forall (λ r, ∀ c, c ∈ Dict.keys r.2 ↔ c ∈ Dict.keys columns) rows →
  Architect._calculate_quality_weights self sg Architect.EQUALLY_IMPORTANT
    provided_weights !! q = Some 1
  ↔ q ∈ all_columns (Architect.matrix self).
Proof.
  intros Hrows Hrect. rewrite equally_important_first_row.
  unfold all_columns. rewrite Hrows, fmap_cons, union_list_cons.
  rewrite elem_of_union, elem_of_list_to_set, elem_of_union_list.
  rewrite Forall_forall in Hrect. split.
  - case_bool_decide; [by left|done].
  - intros [Hq|(X & ([p' columns'] & -> & Hin)%list_elem_of_fmap & Hq)].
    + by rewrite bool_decide_eq_true_2.
    + apply elem_of_list_to_set, (Hrect _ Hin) in Hq.
      by rewrite bool_decide_eq_true_2.
Qed.

(** C6 (the code departs from the claim): on a matrix whose first row lacks
    the column [Usability] of a later row, EQUALLY_IMPORTANT gives
    [Usability] no weight, although it is a column of the matrix. *)
Theorem equally_important_misses_column :
  "Usability" ∈ all_columns Sample.ragged
  ∧ Architect._calculate_quality_weights
      (Sample.architect Sample.ragged [] []) Sample.sg1
      Architect.EQUALLY_IMPORTANT None !! "Usability" = None
  ∧ Architect._calculate_quality_weights
      (Sample.architect Sample.ragged [] []) Sample.sg1
      Architect.EQUALLY_IMPORTANT None = {["Security" := 1]}.
Proof.
  split; [|split].
  - unfold all_columns. simpl. set_solver.
  - by rewrite equally_important_first_row.
  - apply map_eq. intros q. rewrite equally_important_first_row. simpl.
    destruct (decide (q = "Security")) as [->|Hne].
    + done.
    + rewrite lookup_singleton_ne by done.
      rewrite bool_decide_eq_false_2; [done|]. set_solver.
Qed.

(** C7, as stated, fails: with PROVIDED and the empty map the result is not
    the empty map but the inferred weights. *)
Lemma provided_empty_not_verbatim :
  Architect._calculate_quality_weights (Sample.architect Sample.ragged [] [])
    Sample.sg1 Architect.PROVIDED (Some ∅) ≠ ∅.
Proof.
  intros H. apply (f_equal (λ w : gmap string Z, w !! "Security")) in H.
  vm_compute in H. discriminate.
Qed.

(** C7, amended: with PROVIDED and a non-empty map of provided weights the
    result is that map, whatever its keys; with the empty map, or none,
    the result is the weights of the INFERRED mode. *)
Theorem provided_weights_verbatim self sg (provided_weights : gmap string Z) :
  (provided_weights ≠ ∅ →
   Architect._calculate_quality_weights self sg Architect.PROVIDED
     (Some provided_weights) = provided_weights)
  ∧ Architect._calculate_quality_weights self sg Architect.PROVIDED (Some ∅)
    = Architect._calculate_quality_weights self sg Architect.INFERRED None
  ∧ Architect._calculate_quality_weights self sg Architect.PROVIDED None
    = Architect._calculate_quality_weights self sg Architect.INFERRED None.
Proof.
  unfold Architect._calculate_quality_weights, Architect.truthy_weights.
  split; [|done].
  intros Hne. simpl. by rewrite bool_decide_eq_false_2.
Qed.

Lemma provided_weights_verbatim_witness :
  Architect._calculate_quality_weights (Sample.architect Sample.ragged [] [])
    Sample.sg1 Architect.PROVIDED (Some Sample.weights_1_2)
  = Sample.weights_1_2.
Proof.
  apply (proj1 (provided_weights_verbatim (Sample.architect Sample.ragged [] [])
                  Sample.sg1 Sample.weights_1_2)).
  intros H. apply (f_equal (λ w : gmap string Z, w !! "Security")) in H.
  vm_compute in H. discriminate.
Defined.

(** ** The partition response *)

Lemma omap_cons {A B : Type} (f : A → option B) x l :
  omap f (x :: l)
  = match f x with Some y => y :: omap f l | None => omap f l end.
Proof. done. Qed.

Lemma int_raises_ValueError s e : Py.int s = Raise e → e = ValueError.
Proof.
  unfold Py.int.
  destruct (match Py.rstrip_with _ _ with
            | String "+" r => _ | String "-" r => _ | _ => _ end)
    as [sign t].
  destruct t as [|c t]; [by intros [= <-]|].
  destruct (Py.digit_value c); [|by intros [= <-]].
  destruct (Py.int_digits _ _ _) as [[v n]|]; [|by intros [= <-]].
  case_bool_decide; [done|by intros [= <-]].
Qed.

Lemma token_index_range n token i :
  token_index n token = Some i → 1 ≤ i ≤ Z.of_nat n.
Proof.
  unfold token_index. destruct (Py.int _); [|done].
  case_bool_decide; [|done]. by intros [= <-].
Qed.

Lemma segment_indices_range n segment :
  Forall (λ i, 1 ≤ i ≤ Z.of_nat n) (segment_indices n segment).
Proof.
  apply Forall_forall. intros i Hi.
  apply list_elem_of_omap in Hi as (token & _ & Hi).
  by eapply token_index_range.
Qed.

Lemma segment_ids_spec self segment :
  Architect.segment_ids self segment
  = Ok (segment_indices (length (Architect.condition_groups self)) segment).
Proof.
  unfold Architect.segment_ids, segment_indices, tokens.
  generalize (Py.split "," segment). intros toks.
  match goal with
  | |- foldl ?F _ _ = _ =>
      assert (∀ acc, foldl F (Ok acc) toks
                     = Ok (acc ++ omap (token_index
                             (length (Architect.condition_groups self))) toks))
        as H
  end; [|apply H].
  induction toks as [|tok toks IH]; intros acc; simpl.
  - by rewrite app_nil_r.
  - destruct (Py.int (Py.strip_chars "()" (Py.strip tok)))
      as [idx|e] eqn:Hint.
    + case_bool_decide as Hidx; rewrite IH; unfold token_index; rewrite Hint.
      * rewrite bool_decide_eq_true_2 by done. by rewrite <- app_assoc.
      * by rewrite bool_decide_eq_false_2 by done.
    + pose proof (int_raises_ValueError _ _ Hint) as ->.
      rewrite IH. unfold token_index. by rewrite Hint.
Qed.

Lemma comprehension_select cgs ids :
  Forall (λ i, 1 ≤ i ≤ Z.of_nat (length cgs)) ids →
  comprehension (λ i, Py.list_getitem cgs (i - 1)) ids = Ok (select cgs ids)
  ∧ Forall2 (λ i cg, cgs !! Z.to_nat (i - 1) = Some cg) ids (select cgs ids).
Proof.
  induction 1 as [|i ids Hi _ [IH1 IH2]]; simpl; [by split|].
  simpl in Hi. unfold Py.list_getitem at 1.
  rewrite (bool_decide_eq_false_2 (i - 1 < 0)) by lia.
  rewrite bool_decide_eq_true_2 by lia.
  destruct (lookup_lt_is_Some_2 cgs (Z.to_nat (i - 1))) as [cg Hcg]; [lia|].
  unfold select in *. simpl. rewrite Hcg, IH1. simpl. split; [done|].
  by constructor.
Qed.

(** The parser never raises, leaves the condition groups as they are, and
    appends the groups the specification reads in the response. *)
Lemma parse_spec response self :
  Architect._parse_satisfiable_groups_response response self
  = (Ok (),
     Architect.set_satisfiable_groups self
       (Architect.satisfiable_groups self
        ++ parsed_groups (Architect.condition_groups self) response)).
Proof.
  unfold Architect._parse_satisfiable_groups_response, parsed_groups, segments.
  generalize (Py.re_split_groups (Py.strip_chars "()" (Py.strip response))).
  intros segs. revert self.
  induction segs as [|seg segs IH]; intros self.
  - simpl. rewrite app_nil_r. by destruct self.
  - cbn [foldl]. rewrite segment_ids_spec, omap_cons. unfold segment_group at 1.
    pose proof (segment_indices_range
                  (length (Architect.condition_groups self)) seg) as Hrange.
    destruct (segment_indices _ seg) as [|i ids] eqn:Hids.
    + cbn [Architect.truthy]. apply IH.
    + destruct (comprehension_select _ _ Hrange) as [-> _].
      cbn [Architect.truthy]. rewrite IH. simpl. by rewrite <- app_assoc.
Qed.

Lemma token_index_Some n token i :
  token_index n token = Some i
  ↔ Py.int (Py.strip_chars "()" (Py.strip token)) = Ok i ∧ 1 ≤ i ≤ Z.of_nat n.
Proof.
  unfold token_index. destruct (Py.int _) as [j|e].
  - case_bool_decide; split.
    + by intros [= ->].
    + by intros [[= ->] _].
    + done.
    + intros [[= ->] ?]. done.
  - split; [done|]. by intros [? _].
Qed.

Lemma segment_indices_app n segment ts1 t ts2 :
  tokens segment = ts1 ++ t :: ts2 →
  segment_indices n segment
  = omap (token_index n) ts1 ++ option_list (token_index n t)
    ++ omap (token_index n) ts2.
Proof.
  intros Htok. unfold segment_indices. rewrite Htok, omap_app, omap_cons.
  by destruct (token_index n t).
Qed.

Lemma parsed_groups_none cgs response :
  (∀ segment token,
     segment ∈ segments response → token ∈ tokens segment →
     token_index (length cgs) token = None) →
  parsed_groups cgs response = [].
Proof.
  intros Hnone. unfold parsed_groups.
  induction (segments response) as [|seg segs IH]; [done|].
  rewrite omap_cons.
  assert (segment_indices (length cgs) seg = []) as Hids.
  { unfold segment_indices.
    assert (∀ token, token ∈ tokens seg →
                     token_index (length cgs) token = None) as Htok.
    { intros token Hin. apply (Hnone seg); [left|done]. }
    induction (tokens seg) as [|tok toks IHt]; [done|].
    rewrite omap_cons, (Htok tok) by left.
    apply IHt. intros token Hin. apply Htok. by right. }
  unfold segment_group. rewrite Hids. apply IH.
  intros segment token Hs. apply Hnone. by right.
Qed.

(** C4: the response [(1,2),(3,4)] against four condition groups gives two
    satisfiable groups, of groups 1 and 2 and of groups 3 and 4; in any
    response a token that is not a number, or is a number outside
    [1, groupCount], is dropped alone and the valid tokens of its segment
    are kept, in order; a response without any valid token gives no
    satisfiable group. *)
Theorem parse_response_spec (self : Architect.t) :
  let cgs := Architect.condition_groups self in
  let n := length cgs in
  (∀ cg1 cg2 cg3 cg4,
     cgs = [cg1; cg2; cg3; cg4] →
     Architect.satisfiable_groups self = [] →
     Architect._parse_satisfiable_groups_response "(1,2),(3,4)" self
     = (Ok (),
        Architect.set_satisfiable_groups self
          [SatisfiableGroup.mk [cg1; cg2]; SatisfiableGroup.mk [cg3; cg4]]))
  ∧ (∀ response,
       Architect._parse_satisfiable_groups_response response self
       = (Ok (),
          Architect.set_satisfiable_groups self
            (Architect.satisfiable_groups self ++ parsed_groups cgs response)))
  ∧ (∀ token i,
       token_index n token = Some i
       ↔ Py.int (Py.strip_chars "()" (Py.strip token)) = Ok i ∧ 1 ≤ i ≤ Z.of_nat n)
  ∧ (∀ segment ts1 t ts2,
       tokens segment = ts1 ++ t :: ts2 →
       segment_indices n segment
       = omap (token_index n) ts1 ++ option_list (token_index n t)
         ++ omap (token_index n) ts2)
  ∧ (∀ response,
       Architect.satisfiable_groups self = [] →
       (∀ segment token,
          segment ∈ segments response → token ∈ tokens segment →
          token_index n token = None) →
       Architect._parse_satisfiable_groups_response response self
       = (Ok (), Architect.set_satisfiable_groups self [])).
Proof.
  intros cgs n. split; [|split; [|split; [|split]]].
  - intros cg1 cg2 cg3 cg4 Hcgs Hsgs. rewrite parse_spec, Hsgs. fold cgs.
    rewrite Hcgs. by vm_compute.
  - intros response. apply parse_spec.
  - apply token_index_Some.
  - apply segment_indices_app.
  - intros response Hsgs Hnone. rewrite parse_spec, Hsgs.
    by rewrite parsed_groups_none.
Qed.

Lemma parse_response_spec_witness :
  (Architect._parse_satisfiable_groups_response "(1,2),(3,4)"
     (Sample.architect Sample.ragged []
        [Sample.cg1; Sample.cg2; Sample.cg1; Sample.cg2])).2
  = Architect.mk Sample.ragged []
      [Sample.cg1; Sample.cg2; Sample.cg1; Sample.cg2]
      [SatisfiableGroup.mk [Sample.cg1; Sample.cg2];
       SatisfiableGroup.mk [Sample.cg1; Sample.cg2]] 0
  ∧ (Architect._parse_satisfiable_groups_response "(x,7),(0)"
       (Sample.architect Sample.ragged [] [Sample.cg1; Sample.cg2])).2
    = Sample.architect Sample.ragged [] [Sample.cg1; Sample.cg2].
Proof.
  split.
  - rewrite (proj1 (parse_response_spec
                      (Sample.architect Sample.ragged []
                         [Sample.cg1; Sample.cg2; Sample.cg1; Sample.cg2]))
               Sample.cg1 Sample.cg2 Sample.cg1 Sample.cg2);
      reflexivity.
  - rewrite (proj2 (proj2 (proj2 (proj2 (parse_response_spec
               (Sample.architect Sample.ragged []
                  [Sample.cg1; Sample.cg2])))))).
    + reflexivity.
    + reflexivity.
    + intros segment token Hs Ht.
      vm_compute in Hs.
      apply list_elem_of_In in Hs. simpl in Hs.
      destruct Hs as [<-|[<-|[]]]; vm_compute in Ht;
        apply list_elem_of_In in Ht; simpl in Ht;
        repeat (destruct Ht as [<-|Ht]; [reflexivity|]); destruct Ht.
Defined.

(** ** Inferred weights *)

Lemma inferred_attrs (attrs : list string) (w : gmap string Z) q :
  default 0
    (foldl (λ (weights : gmap string Z) quality,
              <[quality := default 0 (weights !! quality) + 1]> weights)
           w attrs !! q)
  = default 0 (w !! q) + Z.of_nat (length (filter (λ a, a = q) attrs)).
Proof.
  revert w. induction attrs as [|a attrs IH]; intros w; simpl; [lia|].
  rewrite IH. destruct (decide (a = q)) as [->|Hne].
  - rewrite lookup_insert_eq, filter_cons_True by done. simpl. lia.
  - rewrite lookup_insert_ne, filter_cons_False by done. done.
Qed.

Lemma inferred_requirements (reqs : list Requirement.t) (w : gmap string Z) q :
  default 0
    (foldl (λ (weights : gmap string Z) req,
              foldl (λ (weights : gmap string Z) quality,
                       <[quality := default 0 (weights !! quality) + 1]> weights)
                    weights (Requirement.quality_attributes req))
           w reqs !! q)
  = default 0 (w !! q)
    + Zsum (λ req, Z.of_nat (length (filter (λ a, a = q)
                                       (Requirement.quality_attributes req))))
           reqs.
Proof.
  revert w. induction reqs as [|req reqs IH]; intros w; simpl; [lia|].
  rewrite IH, inferred_attrs. lia.
Qed.

Lemma inferred_groups (cgs : list ConditionGroup.t) (w : gmap string Z) q :
  default 0
    (foldl (λ (weights : gmap string Z) cg,
              foldl (λ (weights : gmap string Z) req,
                       foldl (λ (weights : gmap string Z) quality,
                                <[quality := default 0 (weights !! quality) + 1]>
                                  weights)
                             weights (Requirement.quality_attributes req))
                    weights (ConditionGroup.requirements cg))
           w cgs !! q)
  = default 0 (w !! q) + Zsum (quality_count q) cgs.
Proof.
  revert w. induction cgs as [|cg cgs IH]; intros w; simpl; [lia|].
  rewrite IH, inferred_requirements. unfold quality_count. lia.
Qed.

(** With INFERRED the weight of a quality is the number of its occurrences
    over the members of the satisfiable group, a member listed twice being
    counted twice. *)
Lemma inferred_weight self sg provided_weights q :
  default 0
    (Architect._calculate_quality_weights self sg Architect.INFERRED
       provided_weights !! q)
  = Zsum (quality_count q) (SatisfiableGroup.condition_groups sg).
Proof.
  unfold Architect._calculate_quality_weights. simpl.
  by rewrite inferred_groups, lookup_empty.
Qed.

Lemma segment_indices_occurrences n segment i :
  length (filter (λ j, j = i) (segment_indices n segment))
  = length (filter (λ t, token_index n t = Some i) (tokens segment)).
Proof.
  unfold segment_indices.
  induction (tokens segment) as [|t ts IH]; [done|].
  rewrite omap_cons. destruct (token_index n t) as [j|] eqn:Ht.
  - destruct (decide (j = i)) as [->|Hne].
    + rewrite !filter_cons_True by done. simpl. by rewrite IH.
    + rewrite !filter_cons_False by congruence. done.
  - by rewrite filter_cons_False by congruence.
Qed.

Lemma parsed_groups_1_1_2 cg1 cg2 rest :
  parsed_groups (cg1 :: cg2 :: rest) "(1,1,2)"
  = [SatisfiableGroup.mk [cg1; cg1; cg2]].
Proof.
  unfold parsed_groups.
  change (segments "(1,1,2)") with ["1,1,2"].
  rewrite omap_cons. unfold segment_group, segment_indices.
  change (tokens "1,1,2") with ["1"; "1"; "2"].
  rewrite !omap_cons.
  rewrite (proj2 (token_index_Some _ "1" 1)), (proj2 (token_index_Some _ "2" 2)).
  - done.
  - split; [done|]. simpl length. lia.
  - split; [done|]. simpl length. lia.
Qed.

(** C10: a valid index repeated in a segment, as in [(1,1,2)], puts the
    condition group into the satisfiable group once per occurrence (the
    indices of a segment are all its valid tokens, with their
    multiplicities), and the INFERRED weights count the qualities of that
    condition group once per occurrence. *)
Theorem repeated_index_kept (self : Architect.t) :
  let cgs := Architect.condition_groups self in
  let n := length cgs in
  (∀ cg1 cg2 rest,
     cgs = cg1 :: cg2 :: rest →
     Architect.satisfiable_groups self = [] →
     Architect._parse_satisfiable_groups_response "(1,1,2)" self
     = (Ok (),
        Architect.set_satisfiable_groups self
          [SatisfiableGroup.mk [cg1; cg1; cg2]]))
  ∧ (∀ response,
       Architect._parse_satisfiable_groups_response response self
       = (Ok (),
          Architect.set_satisfiable_groups self
            (Architect.satisfiable_groups self ++ parsed_groups cgs response)))
  ∧ (∀ segment,
       Forall2 (λ i cg, cgs !! Z.to_nat (i - 1) = Some cg)
         (segment_indices n segment) (select cgs (segment_indices n segment)))
  ∧ (∀ segment i,
       length (filter (λ j, j = i) (segment_indices n segment))
       = length (filter (λ t, token_index n t = Some i) (tokens segment)))
  ∧ (∀ sg provided_weights q,
       default 0
         (Architect._calculate_quality_weights self sg Architect.INFERRED
            provided_weights !! q)
       = Zsum (quality_count q) (SatisfiableGroup.condition_groups sg))
  ∧ (∀ cg1 cg2 provided_weights q,
       default 0
         (Architect._calculate_quality_weights self
            (SatisfiableGroup.mk [cg1; cg1; cg2]) Architect.INFERRED
            provided_weights !! q)
       = 2 * quality_count q cg1 + quality_count q cg2).
Proof.
  intros cgs n. split; [|split; [|split; [|split; [|split]]]].
  - intros cg1 cg2 rest Hcgs Hsgs. rewrite parse_spec, Hsgs. fold cgs.
    by rewrite Hcgs, parsed_groups_1_1_2.
  - intros response. apply parse_spec.
  - intros segment.
    apply comprehension_select, segment_indices_range.
  - apply segment_indices_occurrences.
  - apply inferred_weight.
  - intros cg1 cg2 pw q. rewrite inferred_weight. simpl. lia.
Qed.

Lemma repeated_index_kept_witness :
  Architect._parse_satisfiable_groups_response "(1,1,2)"
    (Sample.architect Sample.ragged [] [Sample.cg1; Sample.cg2])
  = (Ok (),
     Architect.set_satisfiable_groups
       (Sample.architect Sample.ragged [] [Sample.cg1; Sample.cg2])
       [SatisfiableGroup.mk [Sample.cg1; Sample.cg1; Sample.cg2]]).
Proof.
  apply (proj1 (repeated_index_kept
                  (Sample.architect Sample.ragged []
                     [Sample.cg1; Sample.cg2]))
           Sample.cg1 Sample.cg2 []); reflexivity.
Defined.

(** ** The satisfiable-grouping stage *)

Ltac simpl_self :=
  cbn [Architect.matrix Architect.asrs Architect.condition_groups
       Architect.satisfiable_groups Architect.oracle_calls
       Architect.set_asrs Architect.set_condition_groups
       Architect.set_satisfiable_groups Architect.set_oracle_calls
       app] in *.

Lemma retry_step ollama_call n self :
  Architect.satisfiable_groups self = [] →
  Architect.retry ollama_call (S n) self
  = let self1 :=
      Architect.set_oracle_calls self (S (Architect.oracle_calls self)) in
    match attempt_groups ollama_call (Architect.condition_groups self)
            (Architect.oracle_calls self) with
    | [] => Architect.retry ollama_call n self1
    | gs => (Ok (), Architect.set_satisfiable_groups self1 gs)
    end.
Proof.
  intros Hsgs. destruct self as [m asrs cgs sgs c]. simpl in Hsgs. subst sgs.
  cbn [Architect.retry]. unfold Architect.call, attempt_groups. simpl.
  destruct (ollama_call c) as [response|e]; [|done].
  rewrite parse_spec. simpl.
  by destruct (parsed_groups cgs response).
Qed.

Lemma select_elem cgs ids cg : cg ∈ select cgs ids → cg ∈ cgs.
Proof.
  unfold select. intros Hin.
  apply list_elem_of_omap in Hin as (i & _ & Hi).
  by eapply list_elem_of_lookup_2.
Qed.

Lemma parsed_groups_elem cgs response sg :
  sg ∈ parsed_groups cgs response →
  SatisfiableGroup.condition_groups sg ≠ []
  ∧ ∀ cg, cg ∈ SatisfiableGroup.condition_groups sg → cg ∈ cgs.
Proof.
  unfold parsed_groups. intros Hin.
  apply list_elem_of_omap in Hin as (segment & _ & Hsg).
  unfold segment_group in Hsg.
  pose proof (segment_indices_range (length cgs) segment) as Hrange.
  destruct (segment_indices (length cgs) segment) as [|i ids]; [done|].
  injection Hsg as <-. cbn [SatisfiableGroup.condition_groups].
  destruct (comprehension_select _ _ Hrange) as [_ Hall].
  split.
  - intros Hnil. change (select cgs (i :: ids) = []) in Hnil.
    rewrite Hnil in Hall. inversion Hall.
  - intros cg Hcg. by apply (select_elem cgs (i :: ids)).
Qed.

Lemma attempt_groups_elem ollama_call cgs k sg :
  sg ∈ attempt_groups ollama_call cgs k →
  SatisfiableGroup.condition_groups sg ≠ []
  ∧ ∀ cg, cg ∈ SatisfiableGroup.condition_groups sg → cg ∈ cgs.
Proof.
  unfold attempt_groups. destruct (ollama_call k).
  - apply parsed_groups_elem.
  - by intros ?%elem_of_nil.
Qed.

Lemma stage_cases
    (ollama_call : nat → result string) (self : Architect.t) :
  (2 ≤ length (Architect.condition_groups self))%nat →
  Architect.satisfiable_groups self = [] →
  let cgs := Architect.condition_groups self in
  let c := Architect.oracle_calls self in
  let g := λ k, attempt_groups ollama_call cgs (c + k) in
  ∃ self',
    Architect._generate_satisfiable_groups ollama_call self = (Ok (), self')
    ∧ Architect.condition_groups self' = cgs
    ∧ (Architect.oracle_calls self' ≤ c + 3)%nat
    ∧ (∀ k sg, sg ∈ g k → SatisfiableGroup.condition_groups sg ≠ [])
    ∧ ((g 0%nat ≠ [] ∧ Architect.satisfiable_groups self' = g 0%nat
        ∧ Architect.oracle_calls self' = (c + 1)%nat)
       ∨ (g 0%nat = [] ∧ g 1%nat ≠ []
          ∧ Architect.satisfiable_groups self' = g 1%nat
          ∧ Architect.oracle_calls self' = (c + 2)%nat)
       ∨ (g 0%nat = [] ∧ g 1%nat = [] ∧ g 2%nat ≠ []
          ∧ Architect.satisfiable_groups self' = g 2%nat
          ∧ Architect.oracle_calls self' = (c + 3)%nat)
       ∨ (g 0%nat = [] ∧ g 1%nat = [] ∧ g 2%nat = []
          ∧ Architect.satisfiable_groups self' = [SatisfiableGroup.mk cgs]
          ∧ Architect.oracle_calls self' = (c + 3)%nat)).
Proof.
  intros Hlen Hsgs cgs c g.
  unfold Architect._generate_satisfiable_groups.
  rewrite bool_decide_eq_false_2 by lia.
  assert (∀ k sg, sg ∈ g k → SatisfiableGroup.condition_groups sg ≠ [])
    as Hne.
  { intros k sg Hin. by apply (attempt_groups_elem _ _ _ _ Hin). }
  destruct self as [m asrs cgs0 sgs c0]. simpl_self. subst sgs.
  subst cgs c. unfold g in *. clear g. simpl_self.
  rewrite retry_step by done. simpl_self.
  replace (c0 + 0)%nat with c0 by lia.
  destruct (attempt_groups ollama_call cgs0 c0) as [|sg0 gs0] eqn:H0.
  2:{ eexists. split; [done|]. simpl_self. repeat split; [lia|done|].
      left. repeat split; [done|lia]. }
  rewrite retry_step by done. simpl_self.
  replace (c0 + 1)%nat with (S c0) by lia.
  destruct (attempt_groups ollama_call cgs0 (S c0)) as [|sg1 gs1] eqn:H1.
  2:{ eexists. split; [done|]. simpl_self. repeat split; [lia|done|].
      right. left. repeat split; [done|lia]. }
  rewrite retry_step by done. simpl_self.
  replace (c0 + 2)%nat with (S (S c0)) by lia.
  destruct (attempt_groups ollama_call cgs0 (S (S c0))) as [|sg2 gs2] eqn:H2.
  2:{ eexists. split; [done|]. simpl_self. repeat split; [lia|done|].
      right. right. left. repeat split; [done|lia]. }
  cbn [Architect.retry]. simpl_self.
  eexists. split; [done|]. simpl_self. repeat split; [lia|done|].
  right. right. right. repeat split; lia.
Qed.

(** C5: with two or more condition groups the stage calls the oracle at
    most three times, keeps the groups of the first attempt that yields
    any (each of them non-empty), and after three attempts without any
    produces the one group of all condition groups in list order; it
    returns normally whatever the oracle answers or raises. *)
Theorem generate_satisfiable_groups_retry
    (ollama_call : nat → result string) (self : Architect.t) :
  (2 ≤ length (Architect.condition_groups self))%nat →
  Architect.satisfiable_groups self = [] →
  let cgs := Architect.condition_groups self in
  let c := Architect.oracle_calls self in
  let g := λ k, attempt_groups ollama_call cgs (c + k) in
  ∃ self',
    Architect._generate_satisfiable_groups ollama_call self = (Ok (), self')
    ∧ Architect.condition_groups self' = cgs
    ∧ (Architect.oracle_calls self' ≤ c + 3)%nat
    ∧ (∀ k sg, sg ∈ g k → SatisfiableGroup.condition_groups sg ≠ [])
    ∧ ((g 0%nat ≠ [] ∧ Architect.satisfiable_groups self' = g 0%nat
        ∧ Architect.oracle_calls self' = (c + 1)%nat)
       ∨ (g 0%nat = [] ∧ g 1%nat ≠ []
          ∧ Architect.satisfiable_groups self' = g 1%nat
          ∧ Architect.oracle_calls self' = (c + 2)%nat)
       ∨ (g 0%nat = [] ∧ g 1%nat = [] ∧ g 2%nat ≠ []
          ∧ Architect.satisfiable_groups self' = g 2%nat
          ∧ Architect.oracle_calls self' = (c + 3)%nat)
       ∨ (g 0%nat = [] ∧ g 1%nat = [] ∧ g 2%nat = []
          ∧ Architect.satisfiable_groups self' = [SatisfiableGroup.mk cgs]
          ∧ Architect.oracle_calls self' = (c + 3)%nat)).
Proof. apply stage_cases. Qed.

Lemma generate_satisfiable_groups_retry_witness :
  ∃ self',
    Architect._generate_satisfiable_groups Sample.oracle_second
      (Sample.architect Sample.ragged []
         [Sample.cg_any; Sample.cg1; Sample.cg2])
    = (Ok (), self')
    ∧ Architect.satisfiable_groups self'
      = [SatisfiableGroup.mk [Sample.cg_any; Sample.cg1];
         SatisfiableGroup.mk [Sample.cg_any; Sample.cg2]]
    ∧ Architect.oracle_calls self' = 2%nat.
Proof.
  destruct (generate_satisfiable_groups_retry Sample.oracle_second
              (Sample.architect Sample.ragged []
                 [Sample.cg_any; Sample.cg1; Sample.cg2]))
    as (self' & Hrun & _).
  - simpl. lia.
  - reflexivity.
  - exists self'. split; [exact Hrun|].
    vm_compute in Hrun. injection Hrun as <-. split; reflexivity.
Defined.

Lemma segment_group_members cgs segment sg cg :
  segment_group cgs segment = Some sg →
  cg ∈ SatisfiableGroup.condition_groups sg
  ↔ ∃ i, i ∈ segment_indices (length cgs) segment
         ∧ cgs !! Z.to_nat (i - 1) = Some cg.
Proof.
  unfold segment_group. intros Hsg.
  assert (SatisfiableGroup.condition_groups sg
          = select cgs (segment_indices (length cgs) segment)) as ->.
  { destruct (segment_indices (length cgs) segment); [done|].
    by injection Hsg as <-. }
  unfold select. apply list_elem_of_omap.
Qed.

(** C2, as stated, fails: the oracle may leave a condition group out, here
    the unconditional one, and the stage does not put it back. *)
Lemma sentinel_group_left_out :
  let self :=
    Sample.architect Sample.ragged []
      [Sample.cg_any; Sample.cg1; Sample.cg2] in
  let out :=
    Architect.satisfiable_groups
      (Architect._generate_satisfiable_groups Sample.oracle_2_3 self).2 in
  out = [SatisfiableGroup.mk [Sample.cg1]; SatisfiableGroup.mk [Sample.cg2]]
  ∧ ¬ (∃ sg, sg ∈ out
             ∧ Sample.cg_any ∈ SatisfiableGroup.condition_groups sg).
Proof.
  intros self out.
  assert (out = [SatisfiableGroup.mk [Sample.cg1];
                 SatisfiableGroup.mk [Sample.cg2]]) as Hout by reflexivity.
  split; [exact Hout|].
  intros (sg & Hin & Hcg). rewrite Hout in Hin.
  apply elem_of_cons in Hin as [->|Hin].
  - apply list_elem_of_singleton in Hcg. discriminate.
  - apply list_elem_of_singleton in Hin as ->.
    apply list_elem_of_singleton in Hcg. discriminate.
Qed.

(** C2, amended: every satisfiable group the stage produces is a non-empty
    list of condition groups of the input list, and some group is produced
    when there is a condition group.  With one condition group, or after
    three attempts that yield nothing, the one group produced holds every
    condition group.  Otherwise the groups are those read in the accepted
    answer of the oracle: a condition group, the unconditional one too,
    is in the group of a segment exactly when its index is a valid token of
    that segment. *)
Theorem satisfiable_groups_members
    (ollama_call : nat → result string) (self : Architect.t) :
  Architect.satisfiable_groups self = [] →
  let cgs := Architect.condition_groups self in
  let c := Architect.oracle_calls self in
  let out :=
    Architect.satisfiable_groups
      (Architect._generate_satisfiable_groups ollama_call self).2 in
  (∀ sg, sg ∈ out →
     SatisfiableGroup.condition_groups sg ≠ []
     ∧ ∀ cg, cg ∈ SatisfiableGroup.condition_groups sg → cg ∈ cgs)
  ∧ (cgs ≠ [] → out ≠ [])
  ∧ (length cgs = 1%nat
     ∨ ((2 ≤ length cgs)%nat
        ∧ ∀ k, (k < 3)%nat → attempt_groups ollama_call cgs (c + k) = []) →
     out = [SatisfiableGroup.mk cgs])
  ∧ (out = [SatisfiableGroup.mk cgs]
     ∨ (cgs = [] ∧ out = [])
     ∨ ∃ k response,
         (k < 3)%nat ∧ ollama_call (c + k)%nat = Ok response
         ∧ out = parsed_groups cgs response)
  ∧ (∀ segment sg cg,
       segment_group cgs segment = Some sg →
       cg ∈ SatisfiableGroup.condition_groups sg
       ↔ ∃ i, i ∈ segment_indices (length cgs) segment
              ∧ cgs !! Z.to_nat (i - 1) = Some cg).
Proof.
  intros Hsgs cgs c out.
  assert (out = [SatisfiableGroup.mk cgs] ∧ cgs ≠ []
          ∧ (length cgs = 1%nat
             ∨ ∀ k, (k < 3)%nat → attempt_groups ollama_call cgs (c + k) = [])
          ∨ (cgs = [] ∧ out = [])
          ∨ ∃ k, (2 ≤ length cgs)%nat ∧ (k < 3)%nat
                 ∧ attempt_groups ollama_call cgs (c + k) ≠ []
                 ∧ out = attempt_groups ollama_call cgs (c + k)) as Hcases.
  { destruct (decide (2 ≤ length cgs)%nat) as [Hlen|Hlen].
    - destruct (stage_cases ollama_call self Hlen Hsgs)
        as (self' & Hrun & _ & _ & _ & Hcase).
      subst out. rewrite Hrun. cbn [snd].
      assert (cgs ≠ []) by (intros Hnil; fold cgs in Hlen;
                            rewrite Hnil in Hlen; simpl in Hlen; lia).
      destruct Hcase as [(H0 & -> & _)|[(H0 & H1 & -> & _)
                        |[(H0 & H1 & H2 & -> & _)|(H0 & H1 & H2 & -> & _)]]].
      + right. right. exists 0%nat. repeat split; [done|lia|done].
      + right. right. exists 1%nat. repeat split; [done|lia|done].
      + right. right. exists 2%nat. repeat split; [done|lia|done].
      + left. repeat split; [done|]. right. intros k Hk.
        destruct k as [|[|[|k]]]; [done|done|done|lia].
    - subst out. unfold Architect._generate_satisfiable_groups.
      rewrite bool_decide_eq_true_2 by (unfold cgs in Hlen; lia). fold cgs.
      destruct cgs as [|cg [|cg' cgs']] eqn:Hcgs.
      + right. left. cbn [Architect.truthy snd]. by rewrite Hsgs.
      + left. cbn [Architect.truthy snd]. simpl_self. rewrite Hsgs.
        repeat split; [done|]. by left.
      + simpl in Hlen. lia. }
  split; [|split; [|split; [|split]]].
  - intros sg Hin.
    destruct Hcases as [(-> & Hne & _)|[(_ & ->)|(k & _ & _ & _ & ->)]].
    + apply list_elem_of_singleton in Hin as ->. done.
    + by apply elem_of_nil in Hin.
    + by apply (attempt_groups_elem _ _ _ _ Hin).
  - intros Hne.
    destruct Hcases as [(-> & _)|[(Hnil & _)|(k & _ & _ & Hk & ->)]]; done.
  - intros Hsmall.
    destruct Hcases as [(-> & _)|[(Hnil & _)|(k & Hlen & Hk & Hne & _)]].
    + done.
    + rewrite Hnil in Hsmall. simpl in Hsmall.
      destruct Hsmall as [?|[? _]]; lia.
    + destruct Hsmall as [?|[_ Hall]]; [lia|]. by rewrite Hall in Hne.
  - destruct Hcases as [(-> & _)|[?|(k & _ & Hk & Hne & ->)]].
    + by left.
    + by right; left.
    + right. right. unfold attempt_groups in *.
      destruct (ollama_call (c + k)%nat) as [response|e] eqn:Hcall; [|done].
      by exists k, response.
  - intros segment sg cg. apply segment_group_members.
Qed.

Lemma satisfiable_groups_members_witness :
  Architect.satisfiable_groups
    (Architect._generate_satisfiable_groups Sample.oracle_down
       (Sample.architect Sample.ragged []
          [Sample.cg_any; Sample.cg1; Sample.cg2])).2
  = [SatisfiableGroup.mk [Sample.cg_any; Sample.cg1; Sample.cg2]].
Proof.
  apply (satisfiable_groups_members Sample.oracle_down
           (Sample.architect Sample.ragged []
              [Sample.cg_any; Sample.cg1; Sample.cg2])).
  - reflexivity.
  - right. split; [simpl; lia|]. intros k _. reflexivity.
Defined.

(** ** The condition-grouping stage *)

(** When fewer than two embeddings are non-empty, every requirement with a
    condition gets a group of its own. *)
Lemma singleton_groups_fold (reqs : list Requirement.t) (self : Architect.t) :
  Architect.condition_groups
    (foldl (λ self req,
              Architect.set_condition_groups self
                (Architect.condition_groups self
                 ++ [ConditionGroup.mk (Requirement.condition_text req) [req]]))
           self reqs)
  = Architect.condition_groups self
    ++ ((λ req, ConditionGroup.mk (Requirement.condition_text req) [req])
        <$> reqs).
Proof.
  revert self. induction reqs as [|req reqs IH]; intros self; simpl.
  - by rewrite app_nil_r.
  - rewrite IH. simpl. by rewrite <- app_assoc.
Qed.

Lemma truthy_nonempty {A : Type} (l : list A) :
  l ≠ [] → Architect.truthy l = true.
Proof. by destruct l. Qed.

Lemma condition_groups_without_clustering ollama_call get_embeddings
    KMeans_inertia KMeans_fit_predict (self : Architect.t) :
  let any_condition := RequirementParser.ANY_CIRCUMSTANCES_CONDITION in
  let with_condition :=
    filter (λ r, Requirement.condition_text r ≠ any_condition) in
  let without :=
    filter (λ r, Requirement.condition_text r = any_condition)
           (Architect.asrs self) in
  let embeddings :=
    get_embeddings
      (Requirement.condition_text <$> with_condition (Architect.asrs self)) in
  with_condition (Architect.asrs self) ≠ [] →
  (length (filter (λ e, Architect.truthy e) embeddings) < 2)%nat →
  (Architect._generate_condition_groups ollama_call get_embeddings
     KMeans_inertia KMeans_fit_predict self).1 = Ok ()
  ∧ Architect.condition_groups
      (Architect._generate_condition_groups ollama_call get_embeddings
         KMeans_inertia KMeans_fit_predict self).2
    = Architect.condition_groups self
      ++ (if Architect.truthy without
          then [ConditionGroup.mk any_condition without] else [])
      ++ ((λ req, ConditionGroup.mk (Requirement.condition_text req) [req])
          <$> with_condition
                (Architect.store_embeddings embeddings 0
                   (Architect.asrs self))).
Proof.
  intros any_condition with_condition without embeddings Hwith Hvalid.
  unfold Architect._generate_condition_groups.
  fold any_condition. fold (with_condition (Architect.asrs self)).
  fold without.
  rewrite (truthy_nonempty _ Hwith). cbn [negb].
  rewrite bool_decide_eq_true_2 by exact Hvalid. cbn [fst snd].
  split; [done|].
  rewrite singleton_groups_fold.
  destruct (Architect.truthy without); simpl_self.
  - by rewrite <- app_assoc.
  - done.
Qed.

(** C3 (the code departs from the claim): three requirements with
    conditions, the embedding of the first one empty.  The two non-empty
    embeddings are clustered and zipped with the three requirements, so
    the third requirement is in no condition group. *)
Theorem requirement_dropped_on_partial_embeddings :
  let self := Sample.architect Sample.ragged [Sample.r1; Sample.r2; Sample.r3] [] in
  let run :=
    Architect._generate_condition_groups Sample.oracle_down
      Sample.partial_embeddings Sample.no_inertia Sample.no_fit_predict self in
  let self' := run.2 in
  Forall (λ r, Requirement.is_architecturally_significant r = true
               ∧ Requirement.condition_text r
                 ≠ RequirementParser.ANY_CIRCUMSTANCES_CONDITION)
         (Architect.asrs self)
  ∧ run.1 = Ok ()
  ∧ (λ cg, Requirement.id <$> ConditionGroup.requirements cg)
      <$> Architect.condition_groups self' = [[1]; [2]]
  ∧ groups_holding 1 (Architect.condition_groups self') = 1%nat
  ∧ groups_holding 2 (Architect.condition_groups self') = 1%nat
  ∧ groups_holding 3 (Architect.condition_groups self') = 0%nat.
Proof.
  intros self run self'. split.
  - repeat constructor; discriminate.
  - by vm_compute.
Qed.

(** ** Dictionaries *)

Section dict_facts.
Context {K V : Type} `{EqDecision K}.
Implicit Types (d : list (K * V)) (k : K) (v : V).

Lemma dict_get_None d k : Dict.get d k = None ↔ k ∉ Dict.keys d.
Proof.
  unfold Dict.keys. induction d as [|[k' v'] d IH]; simpl.
  - split; [intros _; apply not_elem_of_nil|done].
  - rewrite not_elem_of_cons. case_decide; [|rewrite IH]; naive_solver.
Qed.

Lemma dict_get_Some d k v : Dict.get d k = Some v → (k, v) ∈ d.
Proof.
  induction d as [|[k' v'] d IH]; simpl; [done|].
  case_decide as Hk.
  - intros [= ->]. subst. left.
  - intros Hget. right. by apply IH.
Qed.

Lemma dict_elem_get d k v :
  NoDup (Dict.keys d) → (k, v) ∈ d → Dict.get d k = Some v.
Proof.
  unfold Dict.keys. induction d as [|[k' v'] d IH]; simpl.
  - by intros _ ?%elem_of_nil.
  - rewrite NoDup_cons. intros [Hk' Hd] [[= -> ->]|Hin]%elem_of_cons.
    + by rewrite decide_True.
    + rewrite decide_False; [by apply IH|].
      intros ->. apply Hk'. by apply (list_elem_of_fmap_2 fst _ (k, v)).
Qed.

Lemma dict_get_is_Some d k : k ∈ Dict.keys d → is_Some (Dict.get d k).
Proof.
  intros Hk. destruct (Dict.get d k) eqn:Hget; [done|].
  by apply dict_get_None in Hget.
Qed.

Lemma dict_set_fresh d k v : k ∉ Dict.keys d → Dict.set d k v = d ++ [(k, v)].
Proof.
  unfold Dict.keys. induction d as [|[k' v'] d IH]; simpl; [done|].
  rewrite not_elem_of_cons. intros [Hne Hk].
  rewrite decide_False by done. by rewrite IH.
Qed.

Lemma dict_functional d k v v' :
  NoDup (Dict.keys d) → (k, v) ∈ d → (k, v') ∈ d → v = v'.
Proof.
  intros Hd Hv Hv'.
  apply (dict_elem_get _ _ _ Hd) in Hv, Hv'. congruence.
Qed.
End dict_facts.

(** ** Sums *)

Lemma foldl_add {A : Type} (f : A → Z) (l : list A) (a : Z) :
  foldl (λ acc x, acc + f x) a l = a + Zsum f l.
Proof.
  revert a. induction l as [|x l IH]; intros a; simpl; [lia|].
  rewrite IH. lia.
Qed.

Lemma py_sum_Zsum {A : Type} (f : A → Z) (l : list A) :
  Py.sum (f <$> l) = Zsum f l.
Proof.
  unfold Py.sum.
  assert (∀ a, foldl Z.add a (f <$> l) = a + Zsum f l) as H; [|by rewrite H].
  induction l as [|x l IH]; intros a; simpl; [lia|]. rewrite IH. lia.
Qed.

Lemma Zsum_cons {A : Type} (f : A → Z) x (l : list A) :
  Zsum f (x :: l) = f x + Zsum f l.
Proof. done. Qed.

Lemma Zsum_ext {A : Type} (f g : A → Z) (l : list A) :
  (∀ x, x ∈ l → f x = g x) → Zsum f l = Zsum g l.
Proof.
  induction l as [|x l IH]; intros Hfg; simpl; [done|].
  rewrite (Hfg x) by left. rewrite IH; [done|].
  intros y Hy. apply Hfg. by right.
Qed.

Lemma Zsum_nonneg {A : Type} (f : A → Z) (l : list A) :
  (∀ x, x ∈ l → 0 ≤ f x) → 0 ≤ Zsum f l.
Proof.
  induction l as [|x l IH]; intros Hf; simpl; [done|].
  specialize (Hf x (list_elem_of_here _ _)) as Hx.
  assert (0 ≤ Zsum f l); [|lia].
  apply IH. intros y Hy. apply Hf. by right.
Qed.

(** Two distinct members of a list of non-negative terms weigh no more
    than the whole sum. *)
Lemma Zsum_two {A : Type} (f : A → Z) (l : list A) x y :
  NoDup l → x ∈ l → y ∈ l → x ≠ y →
  (∀ z, z ∈ l → 0 ≤ f z) → f x + f y ≤ Zsum f l.
Proof.
  intros Hl Hx Hy Hxy Hf.
  assert (∀ l z, z ∈ l → (∀ u, u ∈ l → 0 ≤ f u) → f z ≤ Zsum f l) as Hone.
  { clear. intros l z Hz Hf. induction l as [|u l IH]; simpl.
    - by apply elem_of_nil in Hz.
    - apply elem_of_cons in Hz as [->|Hz].
      + assert (0 ≤ Zsum f l); [|lia].
        apply Zsum_nonneg. intros v Hv. apply Hf. by right.
      + specialize (Hf u (list_elem_of_here _ _)) as Hu.
        assert (f z ≤ Zsum f l); [|lia].
        apply IH; [done|]. intros v Hv. apply Hf. by right. }
  induction l as [|u l IH]; simpl.
  - by apply elem_of_nil in Hx.
  - apply NoDup_cons in Hl as [Hu Hl].
    assert (∀ z, z ∈ l → 0 ≤ f z) as Hf' by (intros z Hz; apply Hf; by right).
    apply elem_of_cons in Hx as [->|Hx]; apply elem_of_cons in Hy as [->|Hy].
    + done.
    + specialize (Hone l y Hy Hf'). lia.
    + specialize (Hone l x Hx Hf'). lia.
    + specialize (Hf u (list_elem_of_here _ _)) as Hu0.
      specialize (IH Hl Hx Hy Hf'). lia.
Qed.

(** ** The scoring matrix *)

Lemma patterns_of_elem m group p columns :
  (p, columns) ∈ patterns_of m group
  ↔ (p, group) ∈ Matrix.row_groups m
    ∧ Dict.get (Matrix._rows m) p = Some columns.
Proof.
  unfold patterns_of. rewrite list_elem_of_omap. split.
  - intros ([p' g] & Hin & Hsome). case_decide; [|done]. subst g.
    destruct (Dict.get (Matrix._rows m) p') eqn:Hget; [|done].
    simpl in Hsome. by injection Hsome as -> ->.
  - intros [Hin Hget]. exists (p, group). split; [done|].
    rewrite decide_True by done. by rewrite Hget.
Qed.

Lemma patterns_of_keys_sub m group p :
  p ∈ Dict.keys (patterns_of m group) → (p, group) ∈ Matrix.row_groups m.
Proof.
  unfold Dict.keys. intros ([p' columns] & -> & Hin)%list_elem_of_fmap.
  by apply patterns_of_elem in Hin as [? _].
Qed.

Lemma patterns_of_NoDup m group :
  NoDup (Dict.keys (Matrix.row_groups m)) →
  NoDup (Dict.keys (patterns_of m group)).
Proof.
  unfold patterns_of, Dict.keys.
  induction (Matrix.row_groups m) as [|[p g] l IH]; simpl.
  - intros _. constructor.
  - rewrite NoDup_cons. intros [Hp Hl].
    case_decide as Hg; [|by apply IH].
    destruct (Dict.get (Matrix._rows m) p) as [columns|]; simpl; [|by apply IH].
    apply NoDup_cons. split; [|by apply IH].
    intros ([p' columns'] & -> & Hin)%list_elem_of_fmap.
    apply list_elem_of_omap in Hin as ([p'' g'] & Hin & Hsome).
    case_decide; [|done].
    destruct (Dict.get (Matrix._rows m) p''); [|done].
    simpl in Hsome. injection Hsome as -> ->.
    apply Hp. by apply (list_elem_of_fmap_2 fst _ (p', g')).
Qed.

(** On a well-formed matrix [get_rows_by_group] returns, and returns the
    patterns of the category with their rows, in the order of the table. *)
Lemma get_rows_by_group_spec m group :
  matrix_wf m → Matrix.get_rows_by_group m group = Ok (patterns_of m group).
Proof.
  intros (_ & Hgroups & _ & Hrows). rewrite Forall_forall in Hrows.
  unfold Matrix.get_rows_by_group, patterns_of.
  match goal with
  | |- foldl ?F _ _ = Ok (omap ?G _) =>
      assert (∀ l acc,
                NoDup (Dict.keys acc ++ Dict.keys l) →
                (∀ p, p ∈ Dict.keys l → p ∈ Dict.keys (Matrix._rows m)) →
                foldl F (Ok acc) l = Ok (acc ++ omap G l)) as Hfold
  end.
  { induction l as [|[p g] l IH]; intros acc Hnd Hin.
    - simpl. by rewrite app_nil_r.
    - cbn [foldl bind]. rewrite omap_cons.
      assert (NoDup (Dict.keys acc ++ Dict.keys l)) as Hnd'.
      { unfold Dict.keys in *. rewrite fmap_cons in Hnd.
        apply NoDup_app in Hnd as (Ha & Hdisj & Hl%NoDup_cons).
        apply NoDup_app. split; [done|]. split; [|by destruct Hl].
        intros x Hx Hxl. apply (Hdisj x Hx). by right. }
      assert (∀ q, q ∈ Dict.keys l → q ∈ Dict.keys (Matrix._rows m)) as Hin'.
      { intros q Hq. apply Hin. unfold Dict.keys in *. rewrite fmap_cons.
        by right. }
      case_decide as Hg; [|by apply IH].
      destruct (dict_get_is_Some (Matrix._rows m) p) as [r Hr].
      { apply Hin. unfold Dict.keys. rewrite fmap_cons. left. }
      unfold Dict.getitem. rewrite Hr. cbn [bind fmap option_fmap option_map].
      rewrite dict_set_fresh.
      + rewrite IH; [by rewrite <- app_assoc|..|done].
        unfold Dict.keys in *. rewrite fmap_app, fmap_cons in *. simpl in *.
        rewrite <- app_assoc. done.
      + unfold Dict.keys in *. rewrite fmap_cons in Hnd.
        apply NoDup_app in Hnd as (_ & Hdisj & _).
        intros Hp. apply (Hdisj p Hp). left. }
  rewrite Hfold; [done| |done]. by rewrite app_nil_l.
Qed.

(** ** Row scores *)

Lemma documented_score_cons desired (w : gmap string Z) c v columns :
  c ∉ Dict.keys columns → NoDup desired →
  documented_score desired w ((c, v) :: columns)
  = (if bool_decide (c ∈ desired) then v * default 0 (w !! c) else 0)
    + documented_score desired w columns.
Proof.
  intros Hc%dict_get_None. unfold documented_score.
  induction desired as [|q desired IH]; intros Hnd.
  - done.
  - rewrite !Zsum_cons. apply NoDup_cons in Hnd as [Hq Hnd].
    rewrite IH by done. cbn [Dict.get].
    destruct (decide (c = q)) as [->|Hne].
    + rewrite (bool_decide_eq_true_2 (q ∈ q :: desired)) by left.
      rewrite (bool_decide_eq_false_2 (q ∈ desired)) by done.
      rewrite Hc. simpl. lia.
    + destruct (decide (c ∈ desired)) as [Hin|Hin].
      * rewrite (bool_decide_eq_true_2 (c ∈ q :: desired)) by (by right).
        rewrite (bool_decide_eq_true_2 (c ∈ desired)) by done. lia.
      * rewrite (bool_decide_eq_false_2 (c ∈ q :: desired))
          by (by rewrite not_elem_of_cons).
        rewrite (bool_decide_eq_false_2 (c ∈ desired)) by done. lia.
Qed.

(** The score the greedy scan accumulates over the columns of a row is the
    documented row score. *)
Lemma row_value_documented desired (w : gmap string Z) columns :
  NoDup desired → NoDup (Dict.keys columns) →
  Optimizer.row_value desired w columns = documented_score desired w columns.
Proof.
  intros Hd Hc. unfold Optimizer.row_value.
  match goal with
  | |- foldl ?F _ _ = _ =>
      assert (∀ a cols,
                foldl F a cols
                = a + Zsum (λ '(col_name, col_value),
                              if bool_decide (col_name ∈ desired)
                              then col_value * default 0 (w !! col_name)
                              else 0) cols) as Hfold
  end.
  { intros a cols. revert a. induction cols as [|[c v] cols IH]; intros a.
    - simpl. lia.
    - cbn [foldl]. rewrite IH, Zsum_cons. case_bool_decide; lia. }
  rewrite Hfold. clear Hfold.
  induction columns as [|[c v] columns IH].
  - unfold documented_score. clear. simpl.
    induction desired; simpl; [done|]. lia.
  - unfold Dict.keys in Hc. rewrite fmap_cons in Hc.
    apply NoDup_cons in Hc as [Hc Hcs].
    rewrite documented_score_cons, Zsum_cons by done.
    specialize (IH Hcs). lia.
Qed.

(** So is the score of the objective and of the decisions of the exact
    mode. *)
Lemma row_score_documented desired (w : gmap string Z) columns :
  Optimizer.row_score desired w columns = documented_score desired w columns.
Proof. unfold Optimizer.row_score. apply py_sum_Zsum. Qed.

(** ** The greedy mode *)

Lemma patterns_of_columns_NoDup m group p columns :
  matrix_wf m → (p, columns) ∈ patterns_of m group →
  NoDup (Dict.keys columns).
Proof.
  intros (_ & _ & Hcols & _) [_ Hget%dict_get_Some]%patterns_of_elem.
  rewrite Forall_forall in Hcols. apply (Hcols (p, columns) Hget).
Qed.

(** A group of the matrix has a pattern. *)
Lemma patterns_of_nonempty m group :
  matrix_wf m → group ∈ Matrix.get_all_groups m → patterns_of m group ≠ [].
Proof.
  intros Hwf Hg. unfold Matrix.get_all_groups, Dict.values in Hg.
  apply elem_of_list_to_set, list_elem_of_fmap in Hg as ([p g] & -> & Hin).
  destruct Hwf as (_ & _ & _ & Hrows). rewrite Forall_forall in Hrows.
  destruct (dict_get_is_Some (Matrix._rows m) p) as [columns Hget].
  { apply Hrows. by apply (list_elem_of_fmap_2 fst _ (p, g)). }
  intros Hnil.
  assert ((p, columns) ∈ patterns_of m g) as Hp by by apply patterns_of_elem.
  simpl in Hnil. rewrite Hnil in Hp. by apply elem_of_nil in Hp.
Qed.

(** The scan of a non-empty group ends on a pattern of greatest row
    value. *)
Lemma greedy_scan_spec desired (w : gmap string Z) group
    (rows : list (string * Matrix.row)) :
  rows ≠ [] →
  ∃ p columns,
    (p, columns) ∈ rows
    ∧ Optimizer.greedy_scan desired w group rows
        (Decision.mk group "" NegInf [] [])
      = Decision.mk group p (Int (Optimizer.row_value desired w columns))
          (Optimizer.collect desired columns).1
          (Optimizer.collect desired columns).2
    ∧ ∀ p' columns',
        (p', columns') ∈ rows →
        Optimizer.row_value desired w columns'
        ≤ Optimizer.row_value desired w columns.
Proof.
  unfold Optimizer.greedy_scan.
  induction rows as [|[q cols] rows IH] using rev_ind; [done|]. intros _.
  rewrite foldl_snoc.
  destruct (Optimizer.collect desired cols) as [satisfied unsatisfied] eqn:Hc.
  destruct (decide (rows = [])) as [->|Hne].
  - simpl. exists q, cols. rewrite Hc. simpl. split; [left|]. split; [done|].
    intros p' columns' Hin. apply list_elem_of_singleton in Hin.
    injection Hin as -> ->. done.
  - destruct (IH Hne) as (p & columns & Hin & -> & Hmax).
    cbn [Optimizer.exceeds Decision.score]. case_bool_decide as Hlt.
    + exists q, cols. rewrite Hc. simpl. split.
      { apply elem_of_app. right. left. }
      split; [done|]. intros p' columns' [Hin'|Hin']%elem_of_app.
      * specialize (Hmax _ _ Hin'). lia.
      * apply list_elem_of_singleton in Hin'. injection Hin' as -> ->. done.
    + exists p, columns. split.
      { apply elem_of_app. by left. }
      split; [done|]. intros p' columns' [Hin'|Hin']%elem_of_app.
      * by apply (Hmax p').
      * apply list_elem_of_singleton in Hin'. injection Hin' as -> ->. lia.
Qed.

Lemma satisfaction_scores_ok m (w : gmap string Z) decisions :
  matrix_wf m →
  ∃ scores, Optimizer._calculate_satisfaction_scores m w decisions = Ok scores.
Proof.
  intros Hwf. unfold Optimizer._calculate_satisfaction_scores.
  generalize (∅ : gmap string Z).
  induction decisions as [|d decisions IH]; intros scores.
  - by exists scores.
  - cbn [foldl bind]. rewrite get_rows_by_group_spec by done.
    cbn [bind].
    destruct (Dict.get (patterns_of m (Decision.arch_pattern_name d))
                (Decision.selected_pattern d)) as [[|]|]; apply IH.
Qed.

Lemma greedy_decisions set_iter desired m (w : gmap string Z) :
  matrix_wf m →
  ∃ scores,
    Optimizer._greedy set_iter desired m w
    = Ok ((λ group,
             Optimizer.greedy_scan desired w group (patterns_of m group)
               (Decision.mk group "" NegInf [] []))
            <$> set_iter (Matrix.get_all_groups m), scores).
Proof.
  intros Hwf. unfold Optimizer._greedy.
  match goal with
  | |- ∃ _, bind (foldl ?F _ _) _ = Ok (?h <$> _, _) =>
      assert (∀ l acc, foldl F (Ok acc) l = Ok (acc ++ (h <$> l))) as Hfold
  end.
  { induction l as [|g l IH]; intros acc.
    - simpl. by rewrite app_nil_r.
    - cbn [foldl bind]. rewrite get_rows_by_group_spec by done.
      cbn [bind]. rewrite IH, fmap_cons. by rewrite <- app_assoc. }
  rewrite Hfold. cbn [bind app].
  destruct (satisfaction_scores_ok m w
              ((λ group,
                  Optimizer.greedy_scan desired w group (patterns_of m group)
                    (Decision.mk group "" NegInf [] []))
                 <$> set_iter (Matrix.get_all_groups m)) Hwf) as [scores ->].
  by exists scores.
Qed.

(** The greedy mode selects, in every category, a pattern of greatest
    documented row score. *)
Lemma greedy_selects_maximum set_iter desired m (w : gmap string Z) :
  set_iter_spec set_iter → NoDup desired → matrix_wf m →
  ∃ decisions scores,
    Optimizer._greedy set_iter desired m w = Ok (decisions, scores)
    ∧ Forall2 (selects_maximum desired m w)
        (set_iter (Matrix.get_all_groups m)) decisions.
Proof.
  intros Hiter Hd Hwf.
  destruct (greedy_decisions set_iter desired m w Hwf) as [scores Hrun].
  eexists _, scores. split; [exact Hrun|].
  apply Forall2_fmap_r, Forall_Forall2_diag, Forall_forall.
  intros g Hg. apply (Hiter (Matrix.get_all_groups m)) in Hg.
  unfold compose.
  destruct (greedy_scan_spec desired w g (patterns_of m g))
    as (p & columns & Hin & -> & Hmax).
  { by apply patterns_of_nonempty. }
  split; [done|]. exists columns. cbn [Decision.selected_pattern Decision.score].
  split; [done|].
  rewrite row_value_documented
    by eauto using patterns_of_columns_NoDup.
  split; [done|]. intros p' columns' Hin'.
  rewrite <- !row_value_documented
    by eauto using patterns_of_columns_NoDup.
  by eapply Hmax.
Qed.

(** ** The exact mode: the model handed to the solver *)

Lemma NoDup_keys_snoc {K V : Type} (acc : list (K * V)) k v (l : list K) :
  NoDup (Dict.keys acc ++ k :: l) → NoDup (Dict.keys (acc ++ [(k, v)]) ++ l).
Proof.
  unfold Dict.keys. rewrite fmap_app. simpl. rewrite <- app_assoc. done.
Qed.

Lemma NoDup_keys_fresh {K V : Type} (acc : list (K * V)) k (l : list K) :
  NoDup (Dict.keys acc ++ k :: l) → k ∉ Dict.keys acc.
Proof.
  intros (_ & Hdisj & _)%NoDup_app Hin. apply (Hdisj _ Hin). left.
Qed.

Lemma ilp_variables_spec m :
  NoDup (Dict.keys (Matrix._rows m)) →
  Optimizer.ilp_variables m
  = (λ '(p, _), (p, pywraplp.mkIntVar 0 1 p)) <$> Matrix._rows m.
Proof.
  intros Hnd. unfold Optimizer.ilp_variables, Matrix.get_rows.
  match goal with
  | |- foldl ?F _ _ = ?h <$> _ =>
      assert (∀ (l : list (string * Matrix.row)) acc,
                NoDup (Dict.keys acc ++ Dict.keys l) →
                foldl F acc l = acc ++ (h <$> l)) as Hfold
  end.
  { induction l as [|[p columns] l IH]; intros acc Hacc.
    - simpl. by rewrite app_nil_r.
    - cbn [foldl]. unfold Dict.keys at 2 in Hacc. rewrite fmap_cons in Hacc.
      rewrite dict_set_fresh by by eapply NoDup_keys_fresh.
      rewrite IH by by apply NoDup_keys_snoc.
      by rewrite fmap_cons, <- app_assoc. }
  by rewrite Hfold.
Qed.

Lemma ilp_variable_lookup m p :
  NoDup (Dict.keys (Matrix._rows m)) →
  p ∈ Dict.keys (Matrix._rows m) →
  Dict.getitem (Optimizer.ilp_variables m) p = Ok (pywraplp.mkIntVar 0 1 p).
Proof.
  intros Hnd Hp. rewrite ilp_variables_spec by done.
  unfold Dict.getitem. rewrite (dict_elem_get _ p (pywraplp.mkIntVar 0 1 p)).
  - done.
  - unfold Dict.keys. rewrite <- list_fmap_compose.
    erewrite list_fmap_ext; [exact Hnd|]. by intros i [q columns].
  - unfold Dict.keys in Hp.
    apply list_elem_of_fmap in Hp as ([q columns] & -> & Hin).
    by apply (list_elem_of_fmap_2
                (λ '(p, _), (p, pywraplp.mkIntVar 0 1 p)) _ (q, columns)).
Qed.

Lemma patterns_of_keys_rows m group p :
  matrix_wf m → p ∈ Dict.keys (patterns_of m group) →
  p ∈ Dict.keys (Matrix._rows m).
Proof.
  intros (_ & _ & _ & Hrows) Hp%patterns_of_keys_sub.
  rewrite Forall_forall in Hrows. apply Hrows.
  by apply (list_elem_of_fmap_2 fst _ (p, group)).
Qed.

Lemma ilp_coefficients_spec m (keys : list string) :
  NoDup (Dict.keys (Matrix._rows m)) →
  NoDup keys → (∀ p, p ∈ keys → p ∈ Dict.keys (Matrix._rows m)) →
  foldl (λ acc pattern,
           coefs ←! acc;
           var ←! Dict.getitem (Optimizer.ilp_variables m) pattern;
           Ok (Dict.set coefs (pywraplp.var_name var) 1))
        (Ok []) keys
  = Ok ((λ p, (p, 1)) <$> keys).
Proof.
  intros Hrows Hnd Hin.
  match goal with
  | |- foldl ?F _ _ = _ =>
      assert (∀ l acc,
                NoDup (Dict.keys acc ++ l) →
                (∀ p, p ∈ l → p ∈ Dict.keys (Matrix._rows m)) →
                foldl F (Ok acc) l = Ok (acc ++ ((λ p, (p, 1)) <$> l)))
        as Hfold
  end.
  { induction l as [|p l IH]; intros acc Hacc Hl.
    - simpl. by rewrite app_nil_r.
    - cbn [foldl bind]. rewrite ilp_variable_lookup; [|done|apply Hl; left].
      cbn [bind pywraplp.var_name].
      rewrite dict_set_fresh by by eapply NoDup_keys_fresh.
      rewrite IH.
      + by rewrite fmap_cons, <- app_assoc.
      + by apply NoDup_keys_snoc.
      + intros q Hq. apply Hl. by right. }
  by rewrite Hfold.
Qed.

Lemma ilp_constraints_spec m groups :
  matrix_wf m →
  Optimizer.ilp_constraints m (Optimizer.ilp_variables m) groups
  = Ok ((λ g, pywraplp.mkConstraint 1 1 ("OnlyOneRowInGroup_" +:+ g)
                ((λ p, (p, 1)) <$> Dict.keys (patterns_of m g))) <$> groups).
Proof.
  intros Hwf. unfold Optimizer.ilp_constraints.
  match goal with
  | |- foldl ?F _ _ = Ok (?h <$> _) =>
      assert (∀ l acc, foldl F (Ok acc) l = Ok (acc ++ (h <$> l))) as Hfold
  end.
  { induction l as [|g l IH]; intros acc.
    - simpl. by rewrite app_nil_r.
    - cbn [foldl bind]. rewrite get_rows_by_group_spec by done. cbn [bind].
      rewrite ilp_coefficients_spec.
      + cbn [bind]. rewrite IH, fmap_cons. by rewrite <- app_assoc.
      + by destruct Hwf.
      + apply patterns_of_NoDup. by destruct Hwf as (_ & ? & _).
      + intros p. by apply patterns_of_keys_rows. }
  by rewrite Hfold.
Qed.

Lemma ilp_objective_spec desired m (w : gmap string Z) :
  NoDup (Dict.keys (Matrix._rows m)) →
  Optimizer.ilp_objective desired m w (Optimizer.ilp_variables m)
  = Ok ((λ '(p, columns), (p, documented_score desired w columns))
          <$> Matrix._rows m).
Proof.
  intros Hnd. unfold Optimizer.ilp_objective, Matrix.get_rows.
  match goal with
  | |- foldl ?F _ _ = Ok (?h <$> _) =>
      assert (∀ l acc,
                NoDup (Dict.keys acc ++ Dict.keys l) →
                (∀ p, p ∈ Dict.keys l → p ∈ Dict.keys (Matrix._rows m)) →
                foldl F (Ok acc) l = Ok (acc ++ (h <$> l))) as Hfold
  end.
  { induction l as [|[p columns] l IH]; intros acc Hacc Hl.
    - simpl. by rewrite app_nil_r.
    - cbn [foldl bind]. rewrite ilp_variable_lookup; [|done|apply Hl; left].
      cbn [bind pywraplp.var_name]. unfold Dict.keys at 2 in Hacc.
      rewrite fmap_cons in Hacc.
      rewrite dict_set_fresh by by eapply NoDup_keys_fresh.
      rewrite IH.
      + rewrite fmap_cons, row_score_documented. by rewrite <- app_assoc.
      + by apply NoDup_keys_snoc.
      + intros q Hq. apply Hl. unfold Dict.keys. rewrite fmap_cons.
        by right. }
  rewrite Hfold; [done| |done]. by rewrite app_nil_l.
Qed.

(** On a well-formed matrix the exact mode builds the model of the
    specification. *)
Lemma ilp_model_spec set_iter desired m (w : gmap string Z) :
  matrix_wf m →
  Optimizer.ilp_model set_iter desired m w
  = Ok (exact_model (set_iter (Matrix.get_all_groups m)) desired m w).
Proof.
  intros Hwf. unfold Optimizer.ilp_model.
  rewrite ilp_constraints_spec by done. cbn [bind].
  rewrite ilp_objective_spec by by destruct Hwf. cbn [bind].
  unfold exact_model. f_equal. f_equal.
  rewrite ilp_variables_spec by by destruct Hwf.
  unfold Dict.values. rewrite <- list_fmap_compose.
  apply list_fmap_ext. by intros i [p columns].
Qed.

(** ** The exact mode: what an optimal solution selects *)

Lemma linear_ones (keys : list string) (x : string → Z) :
  pywraplp.linear ((λ p, (p, 1)) <$> keys) x = Zsum x keys.
Proof.
  unfold pywraplp.linear. rewrite <- list_fmap_compose, py_sum_Zsum.
  apply Zsum_ext. intros p _. simpl. lia.
Qed.

Lemma linear_objective desired m (w : gmap string Z) (x : string → Z) :
  pywraplp.linear
    ((λ '(p, columns), (p, documented_score desired w columns))
       <$> Matrix._rows m) x
  = Zsum (λ '(p, columns), documented_score desired w columns * x p)
         (Matrix._rows m).
Proof.
  unfold pywraplp.linear. rewrite <- list_fmap_compose, py_sum_Zsum.
  apply Zsum_ext. by intros [p columns] _.
Qed.

Lemma feasible_exact groups desired m (w : gmap string Z) (x : string → Z) :
  pywraplp.feasible (exact_model groups desired m w) x
  ↔ (∀ p, p ∈ Dict.keys (Matrix._rows m) → 0 ≤ x p ≤ 1)
    ∧ (∀ g, g ∈ groups → Zsum x (Dict.keys (patterns_of m g)) = 1).
Proof.
  unfold pywraplp.feasible, exact_model. simpl. split.
  - intros [Hvars Hcons]. split.
    + intros p ([q columns] & -> & Hin)%list_elem_of_fmap.
      apply (Hvars (pywraplp.mkIntVar 0 1 q)).
      by apply (list_elem_of_fmap_2
                  (λ '(p, _), pywraplp.mkIntVar 0 1 p) _ (q, columns)).
    + intros g Hg.
      specialize (Hcons _ (list_elem_of_fmap_2 _ _ g Hg)). simpl in Hcons.
      rewrite linear_ones in Hcons. lia.
  - intros [Hvars Hcons]. split.
    + intros v ([q columns] & -> & Hin)%list_elem_of_fmap. simpl.
      apply Hvars. by apply (list_elem_of_fmap_2 fst _ (q, columns)).
    + intros c (g & -> & Hg)%list_elem_of_fmap. simpl.
      rewrite linear_ones, (Hcons g Hg). lia.
Qed.

Lemma Zsum_swap_keys (l : list string) (x : string → Z) p p' :
  NoDup l → p ≠ p' → x p = 1 → x p' = 0 → (p ∈ l ↔ p' ∈ l) →
  Zsum (swap x p p') l = Zsum x l.
Proof.
  intros Hnd Hne Hp Hp' Hiff.
  assert (∀ l, NoDup l →
               Zsum (swap x p p') l
               = Zsum x l + (if bool_decide (p' ∈ l) then 1 else 0)
                 - (if bool_decide (p ∈ l) then 1 else 0)) as Hgen.
  { clear l Hnd Hiff. induction l as [|q l IH]; intros Hnd.
    - done.
    - apply NoDup_cons in Hnd as [Hq Hnd]. rewrite !Zsum_cons, IH by done.
      unfold swap at 1.
      repeat case_decide; subst; repeat case_bool_decide;
        try lia; set_solver. }
  rewrite Hgen by done.
  repeat case_bool_decide; try lia; tauto.
Qed.

Lemma Zsum_swap_rows (rows : list (string * Matrix.row)) (s : Matrix.row → Z)
    (x : string → Z) p p' :
  NoDup (Dict.keys rows) → p ≠ p' → x p = 1 → x p' = 0 →
  Zsum (λ '(q, columns), s columns * swap x p p' q) rows
  = Zsum (λ '(q, columns), s columns * x q) rows
    + default 0 (s <$> Dict.get rows p') - default 0 (s <$> Dict.get rows p).
Proof.
  intros Hnd Hne Hp Hp'. induction rows as [|[q columns] rows IH].
  - done.
  - unfold Dict.keys in Hnd. rewrite fmap_cons in Hnd.
    apply NoDup_cons in Hnd as [Hq Hnd]. rewrite !Zsum_cons, IH by done.
    cbn [Dict.get]. unfold swap at 1.
    pose proof (proj2 (dict_get_None rows q) Hq) as Hnone.
    repeat case_decide; subst; rewrite ?Hnone; simpl; try lia; congruence.
Qed.

(** A 0/1 assignment that sums to 1 over a list has a 1 in it. *)
Lemma Zsum_one_elem (l : list string) (x : string → Z) :
  (∀ p, p ∈ l → 0 ≤ x p ≤ 1) → Zsum x l = 1 → ∃ p, p ∈ l ∧ x p = 1.
Proof.
  induction l as [|q l IH]; intros Hx Hsum; [done|].
  rewrite Zsum_cons in Hsum.
  destruct (decide (x q = 1)) as [Hq|Hq].
  - exists q. split; [left|done].
  - specialize (Hx q (list_elem_of_here _ _)) as Hq01.
    destruct IH as (p & Hp & Hp1).
    + intros p Hp. apply Hx. by right.
    + lia.
    + exists p. split; [by right|done].
Qed.

(** In an optimal solution the pattern chosen in a category has the
    greatest row score of the category. *)
Lemma optimal_selects_maximum groups desired m (w : gmap string Z)
    (x : string → Z) g p columns :
  matrix_wf m → g ∈ groups →
  pywraplp.optimal (exact_model groups desired m w) x →
  (p, columns) ∈ patterns_of m g → x p = 1 →
  ∀ p' columns',
    (p', columns') ∈ patterns_of m g →
    documented_score desired w columns' ≤ documented_score desired w columns.
Proof.
  intros Hwf Hg [Hfeas Hopt] Hp Hx p' columns' Hp'.
  destruct (decide (documented_score desired w columns'
                    ≤ documented_score desired w columns)) as [|Hlt]; [done|].
  exfalso.
  pose proof Hwf as (Hrows & Hgroups & _ & _).
  pose proof (proj1 (patterns_of_elem _ _ _ _) Hp) as [Hpg Hpc].
  pose proof (proj1 (patterns_of_elem _ _ _ _) Hp') as [Hpg' Hpc'].
  assert (p ≠ p') as Hne by (intros ->; rewrite Hpc in Hpc'; naive_solver).
  apply feasible_exact in Hfeas as [Hvars Hcons].
  assert (p ∈ Dict.keys (patterns_of m g)) as Hkp
    by apply (list_elem_of_fmap_2 fst _ _ Hp).
  assert (p' ∈ Dict.keys (patterns_of m g)) as Hkp'
    by apply (list_elem_of_fmap_2 fst _ _ Hp').
  assert (∀ q, q ∈ Dict.keys (patterns_of m g) → 0 ≤ x q) as Hpos.
  { intros q Hq. by apply Hvars, (patterns_of_keys_rows m g). }
  assert (x p' = 0) as Hx'.
  { pose proof (Zsum_two x _ p p' (patterns_of_NoDup m g Hgroups)
                  Hkp Hkp' Hne Hpos) as Htwo.
    rewrite (Hcons g Hg) in Htwo. specialize (Hpos p' Hkp'). lia. }
  assert (pywraplp.feasible (exact_model groups desired m w) (swap x p p'))
    as Hfeas'.
  { apply feasible_exact. split.
    - intros q Hq. unfold swap. repeat case_decide; try lia. by apply Hvars.
    - intros g0 Hg0. rewrite Zsum_swap_keys; [by apply Hcons|..|done|done|].
      + by apply patterns_of_NoDup.
      + done.
      + assert (∀ q, (q, g) ∈ Matrix.row_groups m →
                     q ∈ Dict.keys (patterns_of m g0) ↔ g0 = g) as Hiff.
        { intros q Hqg. split.
          - intros Hq%patterns_of_keys_sub.
            by apply (dict_functional _ q g0 g Hgroups).
          - intros ->. destruct Hwf as (_ & _ & _ & Hin).
            rewrite Forall_forall in Hin.
            destruct (dict_get_is_Some (Matrix._rows m) q) as [c Hc].
            { apply Hin. by apply (list_elem_of_fmap_2 fst _ (q, g)). }
            apply (list_elem_of_fmap_2 fst _ (q, c)).
            by apply patterns_of_elem. }
        by rewrite !Hiff. }
  specialize (Hopt _ Hfeas'). unfold exact_model in Hopt. simpl in Hopt.
  rewrite !linear_objective in Hopt.
  rewrite (Zsum_swap_rows _ (documented_score desired w)) in Hopt by done.
  rewrite Hpc, Hpc' in Hopt. simpl in Hopt. lia.
Qed.

(** The extraction loop finds the pattern whose variable is 1. *)
Lemma ilp_extract_spec desired m (w : gmap string Z) (x : string → Z) g rows :
  NoDup (Dict.keys (Matrix._rows m)) →
  (∀ p, p ∈ Dict.keys rows → p ∈ Dict.keys (Matrix._rows m)) →
  (∃ p, p ∈ Dict.keys rows ∧ x p = 1) →
  ∃ p columns,
    (p, columns) ∈ rows ∧ x p = 1
    ∧ Optimizer.ilp_extract desired w (Optimizer.ilp_variables m) x g rows
      = Ok (Some (Decision.mk g p (Int (documented_score desired w columns))
                    (Optimizer.collect desired columns).1
                    (Optimizer.collect desired columns).2)).
Proof.
  intros Hnd. induction rows as [|[q columns] rows IH]; intros Hin Hex.
  - destruct Hex as (p & Hp & _). by apply elem_of_nil in Hp.
  - cbn [Optimizer.ilp_extract].
    rewrite ilp_variable_lookup;
      [|done|apply Hin; unfold Dict.keys; rewrite fmap_cons; left].
    cbn [bind pywraplp.var_name]. case_bool_decide as Hq.
    + exists q, columns. split; [left|]. split; [done|].
      rewrite row_score_documented.
      by destruct (Optimizer.collect desired columns).
    + destruct IH as (p & columns' & Hp & Hx & ->).
      * intros p Hp. apply Hin. unfold Dict.keys. rewrite fmap_cons.
        by right.
      * destruct Hex as (p & Hp & Hx). exists p. split; [|done].
        unfold Dict.keys in Hp. rewrite fmap_cons in Hp.
        apply elem_of_cons in Hp as [->|Hp]; [done|exact Hp].
      * exists p, columns'. split; [by right|done].
Qed.

(** With a correct solver the exact mode selects, in every category, a
    pattern of greatest documented row score. *)
Lemma exact_selects_maximum set_iter solve desired m (w : gmap string Z) :
  set_iter_spec set_iter → matrix_wf m →
  pywraplp.correct_on solve
    (exact_model (set_iter (Matrix.get_all_groups m)) desired m w) →
  ∃ decisions scores,
    Optimizer._ilp set_iter (Some solve) desired m w = Ok (decisions, scores)
    ∧ Forall2 (selects_maximum desired m w)
        (set_iter (Matrix.get_all_groups m)) decisions.
Proof.
  intros Hiter Hwf Hsolve. unfold Optimizer._ilp.
  rewrite ilp_model_spec by done. cbn [bind].
  set (groups := set_iter (Matrix.get_all_groups m)) in *.
  assert (∀ g, g ∈ groups → patterns_of m g ≠ []) as Hne.
  { intros g Hg. apply patterns_of_nonempty; [done|].
    by apply (Hiter (Matrix.get_all_groups m)). }
  assert (∃ y, pywraplp.feasible (exact_model groups desired m w) y)
    as [y Hy].
  { exists (λ q, if bool_decide
                      (Exists (λ g, head (Dict.keys (patterns_of m g)) = Some q)
                              groups)
                 then 1 else 0).
    apply feasible_exact. split; [intros; case_bool_decide; lia|].
    intros g Hg. specialize (Hne g Hg).
    pose proof (patterns_of_NoDup m g (proj1 (proj2 Hwf))) as Hnd.
    destruct (Dict.keys (patterns_of m g)) as [|q l] eqn:Hkeys.
    { unfold Dict.keys in Hkeys. by apply fmap_nil_inv in Hkeys. }
    rewrite Zsum_cons.
    rewrite bool_decide_eq_true_2
      by (apply Exists_exists; exists g; split; [done|by rewrite Hkeys]).
    rewrite (Zsum_ext _ (λ _, 0)).
    - clear. induction l; simpl; lia.
    - intros q' Hq'. rewrite bool_decide_eq_false_2; [done|].
      intros (g' & Hg' & Hhead)%Exists_exists.
      assert (q' ∈ Dict.keys (patterns_of m g')) as Hin'.
      { destruct (Dict.keys (patterns_of m g')); [done|].
        injection Hhead as ->. left. }
      assert (q' ∈ Dict.keys (patterns_of m g)) as Hin
        by (rewrite Hkeys; by right).
      apply patterns_of_keys_sub in Hin, Hin'.
      pose proof (dict_functional _ _ _ _ (proj1 (proj2 Hwf)) Hin Hin')
        as <-.
      rewrite Hkeys in Hhead. injection Hhead as ->.
      apply NoDup_cons in Hnd as [Hq _]. done. }
  unfold pywraplp.correct_on in Hsolve.
  destruct (solve (exact_model groups desired m w)) as [x|];
    [|by destruct (Hsolve y)].
  pose proof Hsolve as [Hfeas _]. apply feasible_exact in Hfeas as [Hv Hc].
  match goal with
  | |- ∃ _ _, bind (foldl ?F _ _) _ = _ ∧ _ =>
      assert (∀ l acc,
                (∀ g, g ∈ l → g ∈ groups) →
                ∃ ds, foldl F (Ok acc) l = Ok (acc ++ ds)
                      ∧ Forall2 (selects_maximum desired m w) l ds) as Hfold
  end.
  { induction l as [|g l IH]; intros acc Hl.
    - exists []. simpl. by rewrite app_nil_r.
    - cbn [foldl bind]. rewrite get_rows_by_group_spec by done. cbn [bind].
      assert (g ∈ groups) as Hg by (apply Hl; left).
      destruct (ilp_extract_spec desired m w x g (patterns_of m g))
        as (p & columns & Hp & Hx & ->).
      + by destruct Hwf.
      + intros p. by apply patterns_of_keys_rows.
      + apply Zsum_one_elem; [|by apply Hc].
        intros p Hp. by apply Hv, (patterns_of_keys_rows m g).
      + cbn [bind].
        destruct (IH (acc ++ [Decision.mk g p
                                (Int (documented_score desired w columns))
                                (Optimizer.collect desired columns).1
                                (Optimizer.collect desired columns).2]))
          as (ds & -> & Hds).
        { intros g' Hg'. apply Hl. by right. }
        eexists (_ :: ds). rewrite <- app_assoc. split; [done|].
        constructor; [|done]. split; [done|]. exists columns.
        cbn [Decision.selected_pattern Decision.score].
        split; [done|]. split; [done|].
        by eapply optimal_selects_maximum. }
  destruct (Hfold groups []) as (ds & -> & Hds); [done|].
  cbn [bind app].
  destruct (satisfaction_scores_ok m w ds Hwf) as [scores ->].
  by exists ds, scores.
Qed.

(** ** Greedy and exact *)

Lemma deployment_wf : matrix_wf Sample.deployment.
Proof. apply (bool_decide_unpack _). vm_compute. exact I. Qed.

Lemma total_score_le desired m (w : gmap string Z) groups d1 d2 :
  Forall2 (selects_maximum desired m w) groups d1 →
  Forall2 (selects_maximum desired m w) groups d2 →
  ∃ t1 t2, total_score d1 = Int t1 ∧ total_score d2 = Int t2 ∧ t1 ≤ t2.
Proof.
  unfold total_score. intros H1 H2.
  assert (∀ a1 a2, a1 ≤ a2 →
            ∃ t1 t2,
              foldl (λ acc d, score_add acc (Decision.score d)) (Int a1) d1
              = Int t1
              ∧ foldl (λ acc d, score_add acc (Decision.score d)) (Int a2) d2
                = Int t2
              ∧ t1 ≤ t2) as Hgen; [|by apply Hgen].
  revert d2 H2. induction H1 as [|g d1 groups ds1 Hd1 _ IH]; intros d2 H2.
  - inversion H2; subst. intros a1 a2 Ha. by exists a1, a2.
  - inversion H2 as [|? d2' ? ds2 Hd2 Hds2]; subst. intros a1 a2 Ha.
    destruct Hd1 as (_ & c1 & Hin1 & Hs1 & _).
    destruct Hd2 as (_ & c2 & _ & Hs2 & Hmax2).
    cbn [foldl]. rewrite Hs1, Hs2. cbn [score_add].
    apply IH; [done|]. specialize (Hmax2 _ _ Hin1). lia.
Qed.

Lemma all_groups_spec (set_iter : gset string → list string) m :
  set_iter_spec set_iter →
  NoDup (set_iter (Matrix.get_all_groups m))
  ∧ ∀ g, g ∈ set_iter (Matrix.get_all_groups m)
         ↔ ∃ p, (p, g) ∈ Matrix.row_groups m.
Proof.
  intros Hiter. destruct (Hiter (Matrix.get_all_groups m)) as [Hnd Hin].
  split; [done|]. intros g. rewrite Hin.
  unfold Matrix.get_all_groups, Dict.values.
  rewrite elem_of_list_to_set, list_elem_of_fmap. split.
  - intros ([p g'] & -> & Hpg). by exists p.
  - intros [p Hpg]. by exists (p, g).
Qed.

(** C1, amended: on a table whose dictionaries have distinct keys and in
    which every pattern with a category has a row, for a list of distinct
    desired qualities and any weight map (its values need not even sum to
    at most 100), and for a solver that answers the model of the exact mode
    correctly, both modes return one decision for each category that
    [row_groups] names, each selecting a pattern of the category whose row
    score is the greatest of the category, and the total score of the exact
    mode is not less than that of the greedy mode. *)
Theorem greedy_and_exact_select_maximum
    (set_iter : gset string → list string)
    (solve : pywraplp.Model → pywraplp.Outcome)
    (desired : list string) (m : Matrix.t) (w : gmap string Z) :
  set_iter_spec set_iter → NoDup desired → matrix_wf m →
  (∀ model, Optimizer.ilp_model set_iter desired m w = Ok model →
            pywraplp.correct_on solve model) →
  ∃ groups greedy greedy_scores exact exact_scores,
    NoDup groups
    ∧ (∀ g, g ∈ groups ↔ ∃ p, (p, g) ∈ Matrix.row_groups m)
    ∧ Optimizer.optimize set_iter (Some solve) Optimizer.GREEDY desired m w
      = Ok (greedy, greedy_scores)
    ∧ Optimizer.optimize set_iter (Some solve) Optimizer.ILP desired m w
      = Ok (exact, exact_scores)
    ∧ Forall2 (selects_maximum desired m w) groups greedy
    ∧ Forall2 (selects_maximum desired m w) groups exact
    ∧ ∃ tg te,
        total_score greedy = Int tg ∧ total_score exact = Int te ∧ tg ≤ te.
Proof.
  intros Hiter Hd Hwf Hsolve.
  destruct (greedy_selects_maximum set_iter desired m w Hiter Hd Hwf)
    as (greedy & gs & Hg & Hgmax).
  destruct (exact_selects_maximum set_iter solve desired m w Hiter Hwf)
    as (exact & es & He & Hemax).
  { apply Hsolve. by apply ilp_model_spec. }
  destruct (all_groups_spec set_iter m Hiter) as [Hnd Hgroups].
  exists (set_iter (Matrix.get_all_groups m)), greedy, gs, exact, es.
  cbn [Optimizer.optimize].
  repeat split; [done| apply Hgroups | apply Hgroups | done..|].
  by eapply total_score_le.
Qed.

Lemma greedy_and_exact_select_maximum_witness :
  ∃ groups greedy greedy_scores exact exact_scores,
    NoDup groups
    ∧ (∀ g, g ∈ groups ↔ ∃ p, (p, g) ∈ Matrix.row_groups Sample.deployment)
    ∧ Optimizer.optimize elements (Some Sample.solve_monolith)
        Optimizer.GREEDY Sample.desired_perf_sec Sample.deployment
        Sample.weights_50_50
      = Ok (greedy, greedy_scores)
    ∧ Optimizer.optimize elements (Some Sample.solve_monolith) Optimizer.ILP
        Sample.desired_perf_sec Sample.deployment Sample.weights_50_50
      = Ok (exact, exact_scores)
    ∧ Forall2 (selects_maximum Sample.desired_perf_sec Sample.deployment
                 Sample.weights_50_50) groups greedy
    ∧ Forall2 (selects_maximum Sample.desired_perf_sec Sample.deployment
                 Sample.weights_50_50) groups exact
    ∧ ∃ tg te,
        total_score greedy = Int tg ∧ total_score exact = Int te ∧ tg ≤ te.
Proof.
  assert (∀ g, g ∈ elements (Matrix.get_all_groups Sample.deployment)
               ↔ g = "Deployment") as Hgroups.
  { intros g. rewrite elem_of_elements.
    unfold Matrix.get_all_groups. simpl. set_solver. }
  apply (greedy_and_exact_select_maximum elements Sample.solve_monolith
           Sample.desired_perf_sec Sample.deployment Sample.weights_50_50).
  - intros X. split; [apply NoDup_elements|apply elem_of_elements].
  - apply (bool_decide_unpack _). vm_compute. exact I.
  - apply deployment_wf.
  - intros model Hmodel.
    rewrite ilp_model_spec in Hmodel by apply deployment_wf.
    injection Hmodel as <-.
    unfold pywraplp.correct_on, Sample.solve_monolith. split.
    + apply feasible_exact. split.
      * intros p _. case_decide; lia.
      * intros g ->%Hgroups. reflexivity.
    + intros y [Hv Hc]%feasible_exact.
      assert (0 ≤ y "Monolith" ≤ 1) as HM
        by (apply Hv, (bool_decide_unpack _); vm_compute; exact I).
      assert (0 ≤ y "Microservices" ≤ 1) as HS
        by (apply Hv, (bool_decide_unpack _); vm_compute; exact I).
      specialize (Hc "Deployment" (proj2 (Hgroups _) eq_refl)).
      unfold exact_model. cbn [pywraplp.objective].
      rewrite !linear_objective.
      change (y "Monolith" + (y "Microservices" + 0) = 1) in Hc.
      change (100 * y "Monolith" + (0 * y "Microservices" + 0)
              ≤ 100 * 1 + (0 * 0 + 0)).
      lia.
Defined.

(** C1, the claim as it was stated, fails on two kinds of input.  With a
    desired quality listed twice the exact mode counts it twice and the
    greedy mode once: on the table of one pattern, with a solver that
    answers the model correctly, the total of the exact mode is -200 and
    that of the greedy mode -100.  And on a table in which a pattern has a
    category and no row both modes raise [KeyError]. *)
Lemma exact_total_below_greedy_total :
  (∃ model greedy greedy_scores exact exact_scores,
     Optimizer.ilp_model elements Sample.security_twice Sample.one_pattern
       Sample.weights_security = Ok model
     ∧ pywraplp.correct_on Sample.solve_monolith model
     ∧ Optimizer.optimize elements (Some Sample.solve_monolith)
         Optimizer.GREEDY Sample.security_twice Sample.one_pattern
         Sample.weights_security
       = Ok (greedy, greedy_scores)
     ∧ Optimizer.optimize elements (Some Sample.solve_monolith)
         Optimizer.ILP Sample.security_twice Sample.one_pattern
         Sample.weights_security
       = Ok (exact, exact_scores)
     ∧ total_score greedy = Int (-100)
     ∧ total_score exact = Int (-200))
  ∧ Optimizer.optimize elements (Some Sample.solve_monolith)
      Optimizer.GREEDY Sample.desired_perf_sec Sample.missing_row
      Sample.weights_50_50
    = Raise KeyError
  ∧ Optimizer.optimize elements (Some Sample.solve_monolith) Optimizer.ILP
      Sample.desired_perf_sec Sample.missing_row Sample.weights_50_50
    = Raise KeyError.
Proof.
  split; [|split; by vm_compute].
  eexists _, _, _, _, _. split; [by vm_compute|].
  split; [|split; [by vm_compute|split; [by vm_compute|by vm_compute]]].
  unfold pywraplp.correct_on, Sample.solve_monolith, pywraplp.optimal,
    pywraplp.feasible.
  cbn [pywraplp.variables pywraplp.constraints pywraplp.objective].
  split.
  - split.
    + intros v ->%list_elem_of_singleton. by vm_compute.
    + intros c ->%list_elem_of_singleton. by vm_compute.
  - intros y [_ Hc].
    specialize (Hc _ (list_elem_of_here _ _)).
    unfold pywraplp.linear, Py.sum in *. simpl in *.
    destruct (decide ("Monolith" = "Monolith")); [lia|done].
Qed.

(** * Further properties of the code *)

(** ** Dictionaries: lookup after assignment *)

Section dict_set_facts.
Context {K V : Type} `{EqDecision K}.
Implicit Types (d : list (K * V)) (k : K) (v : V).

Lemma dict_get_set_same d k v : Dict.get (Dict.set d k v) k = Some v.
Proof.
  induction d as [|[k' v'] d IH]; simpl.
  - by rewrite decide_True.
  - case_decide as Hk; simpl.
    + by rewrite decide_True.
    + by rewrite decide_False.
Qed.

Lemma dict_get_set_other d k k' v :
  k ≠ k' → Dict.get (Dict.set d k v) k' = Dict.get d k'.
Proof.
  intros Hne. induction d as [|[k0 v0] d IH]; simpl.
  - by rewrite decide_False.
  - case_decide as Hk; simpl.
    + subst k0. by rewrite !decide_False.
    + by rewrite IH.
Qed.

Lemma dict_keys_set d k v :
  Dict.keys (Dict.set d k v)
  = Dict.keys d ++ (if decide (k ∈ Dict.keys d) then [] else [k]).
Proof.
  unfold Dict.keys. induction d as [|[k' v'] d IH].
  - destruct (decide (k ∈ ([] : list (K * V)).*1)) as [Hin|_]; [|done].
    by apply elem_of_nil in Hin.
  - cbn [Dict.set]. destruct (decide (k' = k)) as [->|Hk].
    + rewrite decide_True by (rewrite fmap_cons; left).
      by rewrite app_nil_r.
    + rewrite !fmap_cons, IH. cbn [fst]. rewrite <- app_comm_cons. f_equal.
      f_equal. destruct (decide (k ∈ d.*1)) as [Hin|Hin].
      * by rewrite decide_True by by right.
      * rewrite decide_False; [done|]. rewrite not_elem_of_cons. naive_solver.
Qed.

Lemma dict_set_NoDup d k v :
  NoDup (Dict.keys d) → NoDup (Dict.keys (Dict.set d k v)).
Proof.
  intros Hd. rewrite dict_keys_set. case_decide.
  - by rewrite app_nil_r.
  - apply NoDup_app. split; [done|]. split; [|apply NoDup_singleton].
    intros x Hx ->%list_elem_of_singleton. done.
Qed.

Lemma dict_set_elem d k v k' v' :
  (k', v') ∈ Dict.set d k v → (k', v') = (k, v) ∨ (k', v') ∈ d.
Proof.
  induction d as [|[k0 v0] d IH]; simpl.
  - intros ->%list_elem_of_singleton. by left.
  - case_decide.
    + intros [->|Hin]%elem_of_cons; [by left|]. right. by right.
    + intros [->|Hin]%elem_of_cons; [right; left|].
      destruct (IH Hin) as [?|?]; [by left|]. right. by right.
Qed.
End dict_set_facts.

(** ** The scoring table: elements *)

(** X1. Reading an element back after [set_element] gives the value that was
    set, and every other position of the table reads as before: the same
    value, or the same [KeyError].  The categories are left alone. *)
Theorem set_element_get_element m row_key column_key value :
  Matrix.get_element (Matrix.set_element m row_key column_key value)
    row_key column_key = Ok value
  ∧ (∀ row_key' column_key',
       (row_key', column_key') ≠ (row_key, column_key) →
       Matrix.get_element (Matrix.set_element m row_key column_key value)
         row_key' column_key'
       = Matrix.get_element m row_key' column_key')
  ∧ Matrix.row_groups (Matrix.set_element m row_key column_key value)
    = Matrix.row_groups m.
Proof.
  unfold Matrix.get_element, Matrix.set_element. cbn [Matrix._rows].
  split; [|split; [|done]].
  - by rewrite !dict_get_set_same.
  - intros r' c' Hne. destruct (decide (r' = row_key)) as [->|Hr].
    + assert (c' ≠ column_key) as Hc by congruence.
      rewrite dict_get_set_same, dict_get_set_other by done.
      destruct (Dict.get (Matrix._rows m) row_key) as [columns|] eqn:Hrow.
      * by rewrite Hrow.
      * by rewrite dict_get_set_same.
    + rewrite dict_get_set_other by done.
      destruct (Dict.get (Matrix._rows m) row_key); [done|].
      by rewrite dict_get_set_other.
Qed.

(** ** The scoring table: the rows of a category *)

Lemma get_rows_by_group_raised m (group : string) e l :
  foldl (λ acc '(row_key, row_group),
           group_rows ←! acc;
           if decide (row_group = group) then
             r ←! Dict.getitem (Matrix._rows m) row_key;
             Ok (Dict.set group_rows row_key r)
           else Ok group_rows)
        (Raise e) l = Raise e.
Proof. induction l as [|[p g] l IH]; [done|]. simpl. apply IH. Qed.

(** X2. On a well-formed table [get_rows_by_group] returns the patterns of
    the category in the order in which the table lists them, each once and
    each with its own row. *)
Theorem get_rows_by_group_table_order m group :
  matrix_wf m →
  ∃ group_rows,
    Matrix.get_rows_by_group m group = Ok group_rows
    ∧ Dict.keys group_rows
      = Dict.keys (filter (λ pg, pg.2 = group) (Matrix.row_groups m))
    ∧ NoDup (Dict.keys group_rows)
    ∧ ∀ p columns,
        (p, columns) ∈ group_rows →
        Dict.get (Matrix._rows m) p = Some columns.
Proof.
  intros Hwf. exists (patterns_of m group).
  split; [by apply get_rows_by_group_spec|]. split; [|split].
  - destruct Hwf as (_ & _ & _ & Hrows). rewrite Forall_forall in Hrows.
    unfold patterns_of, Dict.keys in *.
    induction (Matrix.row_groups m) as [|[p g] l IH]; [done|].
    rewrite omap_cons, filter_cons. cbn [snd].
    assert (is_Some (Dict.get (Matrix._rows m) p)) as [columns Hcolumns].
    { apply dict_get_is_Some, Hrows. rewrite fmap_cons. left. }
    specialize (IH (λ x Hx, Hrows x ltac:(rewrite fmap_cons; by right))).
    case_decide; [|done]. rewrite Hcolumns. simpl. f_equal. apply IH.
  - apply patterns_of_NoDup, Hwf.
  - intros p columns Hin. by apply patterns_of_elem in Hin as [_ ?].
Qed.

Lemma get_rows_by_group_table_order_witness :
  ∃ group_rows,
    Matrix.get_rows_by_group Sample.deployment "Deployment" = Ok group_rows
    ∧ Dict.keys group_rows
      = Dict.keys (filter (λ pg, pg.2 = "Deployment")
                     (Matrix.row_groups Sample.deployment))
    ∧ NoDup (Dict.keys group_rows)
    ∧ ∀ p columns,
        (p, columns) ∈ group_rows →
        Dict.get (Matrix._rows Sample.deployment) p = Some columns.
Proof.
  apply (get_rows_by_group_table_order Sample.deployment "Deployment").
  apply (bool_decide_unpack _). vm_compute. exact I.
Defined.

Lemma get_rows_by_group_returns m (group : string) :
  (∀ p, (p, group) ∈ Matrix.row_groups m →
        is_Some (Dict.get (Matrix._rows m) p)) →
  ∃ group_rows, Matrix.get_rows_by_group m group = Ok group_rows.
Proof.
  unfold Matrix.get_rows_by_group. generalize (@nil (string * Matrix.row)).
  induction (Matrix.row_groups m) as [|[p g] l IH]; intros acc Hall;
    [by eexists|].
  simpl. case_decide as Hg.
  - subst g. destruct (Hall p) as [columns Hcolumns]; [left|].
    unfold Dict.getitem. rewrite Hcolumns. simpl. apply IH.
    intros p' Hp'. apply Hall. by right.
  - apply IH. intros p' Hp'. apply Hall. by right.
Qed.

Lemma get_rows_by_group_missing m (group p : string) :
  (p, group) ∈ Matrix.row_groups m → Dict.get (Matrix._rows m) p = None →
  Matrix.get_rows_by_group m group = Raise KeyError.
Proof.
  unfold Matrix.get_rows_by_group. generalize (@nil (string * Matrix.row)).
  induction (Matrix.row_groups m) as [|[p' g] l IH]; intros acc Hin Hmissing.
  { by apply elem_of_nil in Hin. }
  simpl. case_decide as Hg.
  - subst g. unfold Dict.getitem.
    destruct (Dict.get (Matrix._rows m) p') as [columns|] eqn:Hrow.
    + simpl. apply IH; [|done].
      apply elem_of_cons in Hin as [Heq|Hin]; [congruence|done].
    + simpl. apply get_rows_by_group_raised.
  - apply IH; [|done].
    apply elem_of_cons in Hin as [Heq|Hin]; [congruence|done].
Qed.

Lemma get_rows_by_group_cases m (group : string) :
  (∃ group_rows, Matrix.get_rows_by_group m group = Ok group_rows)
  ∨ Matrix.get_rows_by_group m group = Raise KeyError.
Proof.
  destruct (decide (Forall (λ pg, pg.2 = group →
                             is_Some (Dict.get (Matrix._rows m) pg.1))
                      (Matrix.row_groups m))) as [Hall|Hsome].
  - left. rewrite Forall_forall in Hall. apply get_rows_by_group_returns.
    intros p Hp. by apply (Hall (p, group)).
  - right. apply not_Forall_Exists in Hsome; [|apply _].
    apply Exists_exists in Hsome as ([p g] & Hin & Hnot).
    simpl in Hnot. destruct (decide (g = group)) as [->|Hg]; [|naive_solver].
    apply (get_rows_by_group_missing m group p); [done|].
    destruct (Dict.get _ p) eqn:?; [|done].
    exfalso. apply Hnot. intros _. by eexists.
Qed.

(** X3. [get_rows_by_group] raises [KeyError] exactly when the table gives
    the category a pattern that has no row; in every other case it returns.
    A category the table does not know has no rows. *)
Theorem get_rows_by_group_KeyError m group :
  (Matrix.get_rows_by_group m group = Raise KeyError
   ↔ ∃ p, (p, group) ∈ Matrix.row_groups m
          ∧ Dict.get (Matrix._rows m) p = None)
  ∧ ((∀ p, (p, group) ∈ Matrix.row_groups m →
           is_Some (Dict.get (Matrix._rows m) p)) →
     ∃ group_rows, Matrix.get_rows_by_group m group = Ok group_rows)
  ∧ (group ∉ Dict.values (Matrix.row_groups m) →
     Matrix.get_rows_by_group m group = Ok []).
Proof.
  split; [split|split].
  - intros Hraised.
    destruct (decide (Exists (λ pg, pg.2 = group
                                    ∧ Dict.get (Matrix._rows m) pg.1 = None)
                        (Matrix.row_groups m))) as [Hex|Hnone].
    + apply Exists_exists in Hex as ([p g] & Hin & Hg & Hrow).
      simpl in *. subst g. by exists p.
    + destruct (get_rows_by_group_returns m group) as [rs Hrs];
        [|congruence].
      intros p Hp. destruct (Dict.get _ p) eqn:Hrow; [done|].
      exfalso. apply Hnone, Exists_exists. by exists (p, group).
  - intros (p & Hin & Hmissing).
    by apply (get_rows_by_group_missing m group p).
  - apply get_rows_by_group_returns.
  - unfold Matrix.get_rows_by_group, Dict.values.
    generalize (@nil (string * Matrix.row)).
    induction (Matrix.row_groups m) as [|[p g] l IH]; intros acc Hnot;
      [done|].
    rewrite fmap_cons, not_elem_of_cons in Hnot.
    destruct Hnot as [Hne Hnot]. simpl in Hne |- *.
    rewrite decide_False by done. by apply IH.
Qed.

(** ** Clustering *)

Lemma elbow_scan_bound (wcss_list : list float) (l : list nat) (n : nat)
    (acc : float * nat) :
  (acc.2 ≤ n)%nat → Forall (λ i, i ≤ n)%nat l →
  ((foldl (λ '(max_diff, optimal_k_index) i,
             let diff :=
               PrimFloat.sub
                 (default PrimFloat.zero (wcss_list !! (i - 1)%nat))
                 (default PrimFloat.zero (wcss_list !! i)) in
             if PrimFloat.ltb max_diff diff then (diff, i)
             else (max_diff, optimal_k_index))
          acc l).2 ≤ n)%nat.
Proof.
  revert acc. induction l as [|i l IH]; intros [max_diff k] Hacc Hl; [done|].
  apply Forall_cons in Hl as [Hi Hl]. cbn [foldl]. apply IH; [|done].
  cbv zeta. by destruct (PrimFloat.ltb _ _).
Qed.

Lemma find_elbow_bound_aux (wcss_list : list float) :
  (ClusteringService._find_elbow_point wcss_list ≤ length wcss_list - 2)%nat.
Proof.
  unfold ClusteringService._find_elbow_point. case_bool_decide; [lia|].
  apply elbow_scan_bound; [simpl; lia|].
  apply Forall_forall. intros i Hi%elem_of_seq. lia.
Qed.

(** X4. For a list of at most two values the elbow index is 0.  For a
    list of three values or more it is at most [len(wcss_list) - 2], so
    the index of the last value is never returned. *)
Theorem find_elbow_point_bound (wcss_list : list float) :
  ((length wcss_list ≤ 2)%nat →
   ClusteringService._find_elbow_point wcss_list = 0%nat)
  ∧ ((3 ≤ length wcss_list)%nat →
     (ClusteringService._find_elbow_point wcss_list + 2
      ≤ length wcss_list)%nat).
Proof.
  split.
  - intros Hlen. unfold ClusteringService._find_elbow_point.
    by rewrite bool_decide_eq_true_2.
  - intros Hlen. pose proof (find_elbow_bound_aux wcss_list). lia.
Qed.

Lemma find_elbow_point_bound_witness :
  ClusteringService._find_elbow_point [1%float] = 0%nat
  ∧ (ClusteringService._find_elbow_point [9%float; 4%float; 1%float] + 2
     ≤ 3)%nat.
Proof.
  split.
  - apply (proj1 (find_elbow_point_bound [1%float])). simpl. lia.
  - apply (proj2 (find_elbow_point_bound [9%float; 4%float; 1%float])).
    simpl. lia.
Defined.

Lemma comprehension_returns {A B : Type} (f : A → result B) (l : list A) :
  (∀ x, x ∈ l → ∃ y, f x = Ok y) →
  ∃ ys, comprehension f l = Ok ys ∧ length ys = length l.
Proof.
  induction l as [|x l IH]; intros Hall; [by exists []|].
  destruct (Hall x) as [y Hy]; [left|].
  destruct IH as (ys & Hys & Hlen).
  { intros x' Hx'. apply Hall. by right. }
  exists (y :: ys). cbn [comprehension bind]. rewrite Hy. cbn [bind].
  rewrite Hys. simpl. by rewrite Hlen.
Qed.

Lemma comprehension_raises {A B : Type} (f : A → result B) (l : list A)
    (j : nat) (x : A) (e : exn) :
  l !! j = Some x → f x = Raise e →
  (∀ j' x', (j' < j)%nat → l !! j' = Some x' → ∃ y, f x' = Ok y) →
  comprehension f l = Raise e.
Proof.
  revert j. induction l as [|x0 l IH]; intros j Hj Hx Hbefore; [done|].
  cbn [comprehension]. destruct j as [|j].
  - injection Hj as ->. by rewrite Hx.
  - destruct (Hbefore 0%nat x0) as [y ->]; [lia|done|]. cbn [bind].
    rewrite (IH j); [done|done|done|].
    intros j' x' Hj' Hx'. apply (Hbefore (S j') x'); [lia|done].
Qed.

Lemma same_length_Forall (embeddings : list (list float)) (n : nat) :
  Forall (λ v, length v = n) embeddings → same_length embeddings.
Proof.
  rewrite Forall_forall. intros Hall v v' Hv Hv'.
  by rewrite (Hall v Hv), (Hall v' Hv').
Qed.

(** X5. When [cluster_conditions] runs K-Means (two or more vectors, all
    of one length, and [min_k < max_k]) and the fit of every candidate from
    [min_k] to [max_k] succeeds, the final clustering is that of K-Means
    for a number of clusters that is at least [min_k] and strictly below
    [max_k]: at least 2, below [max_clusters], and below a fifth of the
    number of vectors.  When the fit of a candidate raises, what the first
    failing fit raised is raised. *)
Theorem cluster_conditions_cluster_count
    (KMeans_inertia : list (list float) → Z → result float)
    (KMeans_fit_predict : list (list float) → Z → result (list Z))
    (embeddings : list (list float)) (max_clusters max_cluster_size : Z) :
  let n := Z.of_nat (length embeddings) in
  let min_k := 2 `max` (n `div` 10) in
  let max_k := max_clusters `min` ((n `div` 5) `min` (n - 1)) in
  2 ≤ n → same_length embeddings → min_k < max_k →
  ((∀ k, min_k ≤ k ≤ max_k → ∃ wcss, KMeans_inertia embeddings k = Ok wcss) →
   ∃ k, min_k ≤ k < max_k
        ∧ 2 ≤ k < max_clusters ∧ 5 * k < n
        ∧ ClusteringService.cluster_conditions KMeans_inertia
            KMeans_fit_predict embeddings max_clusters max_cluster_size
          = KMeans_fit_predict embeddings k)
  ∧ (∀ k e,
       min_k ≤ k ≤ max_k → KMeans_inertia embeddings k = Raise e →
       (∀ k', min_k ≤ k' < k →
              ∃ wcss, KMeans_inertia embeddings k' = Ok wcss) →
       ClusteringService.cluster_conditions KMeans_inertia
         KMeans_fit_predict embeddings max_clusters max_cluster_size
       = Raise e).
Proof.
  intros n min_k max_k Hn Hsame Hk.
  unfold ClusteringService.cluster_conditions.
  rewrite (bool_decide_eq_false_2 (embeddings = []))
    by (intros ->; simpl in n; lia).
  rewrite (bool_decide_eq_false_2 (length embeddings < 2)%nat)
    by (unfold n in Hn; lia).
  cbn [orb]. rewrite np_array_same_length by done. cbn [bind].
  fold n. fold min_k. fold max_k.
  rewrite bool_decide_eq_false_2 by lia.
  set (ks := (λ i, min_k + Z.of_nat i)
               <$> seq 0 (Z.to_nat (max_k + 1 - min_k))).
  assert (∀ j k, ks !! j = Some k
                 ↔ k = min_k + Z.of_nat j ∧ min_k ≤ k ≤ max_k) as Hks.
  { intros j k. unfold ks. rewrite list_lookup_fmap. split.
    - intros Hj. destruct (seq _ _ !! j) as [i|] eqn:Hi; [|done].
      apply lookup_seq in Hi as [-> Hi]. injection Hj as <-. simpl. lia.
    - intros [-> Hj]. rewrite lookup_seq_lt by lia. done. }
  split.
  - intros Hfit.
    destruct (comprehension_returns (λ k, KMeans_inertia embeddings k) ks)
      as (wcss_list & -> & Hlen).
    { intros k [j Hj]%list_elem_of_lookup_1. apply Hfit.
      by apply Hks in Hj as [_ ?]. }
    cbn [bind].
    pose proof (find_elbow_bound_aux wcss_list) as Hbound.
    set (i := ClusteringService._find_elbow_point wcss_list) in *.
    unfold ks in Hlen. rewrite length_fmap, length_seq in Hlen.
    exists (min_k + Z.of_nat i). split; [lia|]. split; [|split; [|done]].
    + assert (2 ≤ min_k) by (unfold min_k; lia).
      assert (max_k ≤ max_clusters) by (unfold max_k; lia). lia.
    + assert (max_k ≤ n `div` 5) by (unfold max_k; lia).
      pose proof (Z.mul_div_le n 5). lia.
  - intros k e Hrange Hraise Hbefore.
    rewrite (comprehension_raises (λ k, KMeans_inertia embeddings k) ks
               (Z.to_nat (k - min_k)) k e); [done| |done|].
    + apply Hks. split; [lia|done].
    + intros j' k' Hj' Hk'. apply Hks in Hk' as [-> Hk']. apply Hbefore.
      lia.
Qed.

Lemma cluster_conditions_cluster_count_witness :
  ∃ k, 2 ≤ k < 3 ∧ 2 ≤ k < 20 ∧ 5 * k < 15
       ∧ ClusteringService.cluster_conditions Sample.some_inertia
           Sample.some_fit_predict Sample.fifteen_points 20 30
         = Sample.some_fit_predict Sample.fifteen_points k.
Proof.
  apply (cluster_conditions_cluster_count Sample.some_inertia
           Sample.some_fit_predict Sample.fifteen_points 20 30).
  - by vm_compute.
  - apply (same_length_Forall _ 1), (bool_decide_unpack _). by vm_compute.
  - by vm_compute.
  - intros k _. by eexists.
Defined.

Lemma filter_cluster_absent {A : Type} (pairs : list (A * Z)) (c : Z) :
  c ∉ pairs.*2 → filter (λ p, p.2 = c) pairs = [].
Proof.
  induction pairs as [|[x c'] pairs IH]; [done|].
  rewrite fmap_cons, not_elem_of_cons. intros [Hne Hnot].
  rewrite filter_cons_False by (simpl; naive_solver). by apply IH.
Qed.

Lemma filter_cluster_present {A : Type} (pairs : list (A * Z)) (c : Z) :
  c ∈ pairs.*2 → (filter (λ p, p.2 = c) pairs).*1 ≠ [].
Proof.
  intros ([x c'] & -> & Hin)%list_elem_of_fmap Hnil.
  apply fmap_nil_inv in Hnil.
  assert ((x, c') ∈ filter (λ p : A * Z, p.2 = c') pairs) as Hx.
  { by apply list_elem_of_filter. }
  simpl in Hnil. rewrite Hnil in Hx. by apply elem_of_nil in Hx.
Qed.

Lemma dict_values_set_app {A : Type} (d : list (Z * list A)) (k : Z)
    (l : list A) (x : A) :
  Dict.get d k = Some l →
  concat (Dict.values (Dict.set d k (l ++ [x])))
  ≡ₚ concat (Dict.values d) ++ [x].
Proof.
  unfold Dict.values. induction d as [|[k' l'] d IH]; [done|].
  cbn [Dict.get Dict.set]. case_decide as Hk.
  - intros [= ->]. rewrite !fmap_cons. cbn [snd concat].
    rewrite <- !(assoc_L (++)). f_equiv. apply Permutation_app_comm.
  - intros Hget. rewrite !fmap_cons. cbn [snd concat].
    rewrite (IH Hget). by rewrite (assoc_L (++)).
Qed.

Lemma fst_zip_take {A B : Type} (l : list A) (k : list B) :
  (zip l k).*1 = take (length k) l.
Proof.
  revert k. induction l as [|x l IH]; intros [|y k]; simpl; [done..|].
  by rewrite IH.
Qed.

Lemma map_to_clusters_get {A : Type} (items : list A)
    (cluster_assignments : list Z) :
  let pairs := zip items cluster_assignments in
  let cluster_map :=
    ClusteringService.map_to_clusters items cluster_assignments in
  NoDup (Dict.keys cluster_map)
  ∧ ∀ cluster_id,
      Dict.get cluster_map cluster_id
      = if decide (cluster_id ∈ pairs.*2)
        then Some (filter (λ p, p.2 = cluster_id) pairs).*1
        else None.
Proof.
  intros pairs cluster_map. unfold cluster_map.
  unfold ClusteringService.map_to_clusters. fold pairs.
  generalize pairs. clear. intros pairs.
  induction pairs as [|[item c0] pairs [IHnd IH]] using rev_ind.
  { split; [constructor|]. intros c. rewrite decide_False; [done|].
    apply not_elem_of_nil. }
  rewrite foldl_snoc.
  set (acc := foldl _ [] pairs) in *. split.
  - destruct (Dict.get acc c0); by repeat apply dict_set_NoDup.
  - intros c. rewrite filter_app, !fmap_app.
    rewrite (decide_ext (c ∈ pairs.*2 ++ [(item, c0)].*2)
               (c ∈ pairs.*2 ∨ c = c0))
      by (rewrite elem_of_app; simpl; by rewrite list_elem_of_singleton).
    destruct (decide (c = c0)) as [->|Hc].
    + rewrite decide_True by by right.
      rewrite filter_cons_True, filter_nil by done.
      pose proof (IH c0) as IH0.
      destruct (Dict.get acc c0) as [l0|] eqn:Hget.
      * rewrite dict_get_set_same, Hget. case_decide; [|done].
        by injection IH0 as ->.
      * rewrite !dict_get_set_same. case_decide; [done|].
        by rewrite filter_cluster_absent.
    + rewrite filter_cons_False, filter_nil, app_nil_r by (simpl; congruence).
      rewrite dict_get_set_other by done.
      assert (Dict.get (match Dict.get acc c0 with
                        | Some _ => acc
                        | None => Dict.set acc c0 []
                        end) c = Dict.get acc c) as ->.
      { destruct (Dict.get acc c0); [done|]. by rewrite dict_get_set_other. }
      rewrite IH. repeat case_decide; naive_solver.
Qed.

Lemma map_to_clusters_concat {A : Type} (items : list A)
    (cluster_assignments : list Z) :
  concat (Dict.values
            (ClusteringService.map_to_clusters items cluster_assignments))
  ≡ₚ take (length cluster_assignments) items.
Proof.
  rewrite <- fst_zip_take. unfold ClusteringService.map_to_clusters.
  generalize (zip items cluster_assignments). intros pairs.
  induction pairs as [|[item c0] pairs IH] using rev_ind; [done|].
  rewrite foldl_snoc.
  set (acc := foldl _ [] pairs) in *.
  destruct (Dict.get acc c0) as [l0|] eqn:Hget.
  - rewrite Hget. cbn [default].
    rewrite (dict_values_set_app _ _ _ _ Hget), IH. by rewrite fmap_app.
  - rewrite dict_get_set_same. cbn [default].
    rewrite (dict_values_set_app _ _ [] item) by apply dict_get_set_same.
    apply dict_get_None in Hget.
    rewrite (dict_set_fresh acc c0 []) by done.
    unfold Dict.values. rewrite fmap_app, concat_app. simpl.
    rewrite !app_nil_r, fmap_app. by rewrite IH.
Qed.

Lemma map_to_clusters_nonempty {A : Type} (items : list A)
    (cluster_assignments : list Z) :
  Forall (λ cluster, cluster ≠ [])
    (Dict.values (ClusteringService.map_to_clusters items cluster_assignments)).
Proof.
  destruct (map_to_clusters_get items cluster_assignments) as [Hnd Hget].
  apply Forall_forall. intros l Hl. unfold Dict.values in Hl.
  apply list_elem_of_fmap in Hl as ([c l'] & -> & Hin).
  apply (dict_elem_get _ _ _ Hnd) in Hin. rewrite Hget in Hin.
  case_decide as Hc; [|done]. injection Hin as <-.
  by apply filter_cluster_present.
Qed.

(** X6. [map_to_clusters] pairs the items with the assignments as [zip]
    does.  The result has one entry per cluster id that occurs among the
    paired assignments; the entry of a cluster id holds the items paired with
    that id, in the order of the input. *)
Theorem map_to_clusters_lookup {A : Type} (items : list A)
    (cluster_assignments : list Z) :
  let pairs := zip items cluster_assignments in
  let cluster_map :=
    ClusteringService.map_to_clusters items cluster_assignments in
  NoDup (Dict.keys cluster_map)
  ∧ ∀ cluster_id,
      Dict.get cluster_map cluster_id
      = if decide (cluster_id ∈ pairs.*2)
        then Some (filter (λ p, p.2 = cluster_id) pairs).*1
        else None.
Proof. apply map_to_clusters_get. Qed.

(** X7. The clusters of [map_to_clusters] partition the paired items: no
    cluster is empty, and together the clusters hold the first
    [len(cluster_assignments)] items, each once. *)
Theorem map_to_clusters_partition {A : Type} (items : list A)
    (cluster_assignments : list Z) :
  let cluster_map :=
    ClusteringService.map_to_clusters items cluster_assignments in
  Forall (λ cluster, cluster ≠ []) (Dict.values cluster_map)
  ∧ concat (Dict.values cluster_map)
    ≡ₚ take (length cluster_assignments) items.
Proof.
  split; [apply map_to_clusters_nonempty|apply map_to_clusters_concat].
Qed.

(** ** The greedy mode: ties *)




(** ** The exact mode, whatever the solver answers *)

Lemma collect_filter desired (columns : Matrix.row) :
  Optimizer.collect desired columns
  = (filter (λ c, c.1 ∈ desired ∧ 0 < c.2) columns,
     filter (λ c, c.1 ∈ desired ∧ c.2 < 0) columns).
Proof.
  unfold Optimizer.collect.
  match goal with
  | |- foldl ?F _ _ = _ =>
      assert (∀ cols satisfied unsatisfied,
                foldl F (satisfied, unsatisfied) cols
                = (satisfied
                   ++ filter (λ c, c.1 ∈ desired ∧ 0 < c.2) cols,
                   unsatisfied
                   ++ filter (λ c, c.1 ∈ desired ∧ c.2 < 0) cols)) as Hfold
  end.
  { induction cols as [|[q v] cols IH]; intros satisfied unsatisfied.
    - simpl. by rewrite !app_nil_r.
    - cbn [foldl]. rewrite !filter_cons. cbn [fst snd].
      repeat case_bool_decide; rewrite IH; repeat case_decide;
        try (exfalso; naive_solver lia);
        by rewrite <- ?app_assoc. }
  apply Hfold.
Qed.

Lemma ilp_extract_first desired m (w : gmap string Z) (x : string → Z) g
    (rows : list (string * Matrix.row)) :
  NoDup (Dict.keys (Matrix._rows m)) →
  (∀ p, p ∈ Dict.keys rows → p ∈ Dict.keys (Matrix._rows m)) →
  Optimizer.ilp_extract desired w (Optimizer.ilp_variables m) x g rows
  = Ok ((λ pc, Decision.mk g pc.1
                 (Int (Optimizer.row_score desired w pc.2))
                 (Optimizer.collect desired pc.2).1
                 (Optimizer.collect desired pc.2).2)
          <$> head (filter (λ pc, x pc.1 = 1) rows)).
Proof.
  intros Hnd. induction rows as [|[q columns] rows IH]; intros Hin; [done|].
  cbn [Optimizer.ilp_extract].
  rewrite ilp_variable_lookup;
    [|done|apply Hin; unfold Dict.keys; rewrite fmap_cons; left].
  cbn [bind pywraplp.var_name]. case_bool_decide as Hq.
  - rewrite filter_cons_True by done. simpl.
    by destruct (Optimizer.collect desired columns).
  - rewrite filter_cons_False by done. apply IH.
    intros p Hp. apply Hin. unfold Dict.keys. rewrite fmap_cons. by right.
Qed.

Lemma ilp_decisions (set_iter : gset string → list string) solve desired m
    (w : gmap string Z) :
  matrix_wf m →
  ∃ scores,
    Optimizer._ilp set_iter (Some solve) desired m w
    = Ok (match solve (exact_model (set_iter (Matrix.get_all_groups m))
                         desired m w) with
          | pywraplp.NOT_OPTIMAL => []
          | pywraplp.OPTIMAL x =>
              omap (λ group,
                      (λ pc, Decision.mk group pc.1
                               (Int (Optimizer.row_score desired w pc.2))
                               (Optimizer.collect desired pc.2).1
                               (Optimizer.collect desired pc.2).2)
                        <$> head (filter (λ pc, x pc.1 = 1)
                                    (patterns_of m group)))
                   (set_iter (Matrix.get_all_groups m))
          end, scores)
    ∧ (solve (exact_model (set_iter (Matrix.get_all_groups m)) desired m w)
       = pywraplp.NOT_OPTIMAL → scores = ∅).
Proof.
  intros Hwf. unfold Optimizer._ilp.
  rewrite ilp_model_spec by done. cbn [bind].
  destruct (solve _) as [x|]; [|by exists ∅].
  match goal with
  | |- ∃ _, bind (foldl ?F _ _) _ = Ok (omap ?h _, _) ∧ _ =>
      assert (∀ l acc, foldl F (Ok acc) l = Ok (acc ++ omap h l)) as Hfold
  end.
  { induction l as [|g l IH]; intros acc.
    - simpl. by rewrite app_nil_r.
    - cbn [foldl bind]. rewrite get_rows_by_group_spec by done. cbn [bind].
      rewrite ilp_extract_first;
        [|by destruct Hwf|intros p; by apply patterns_of_keys_rows].
      cbn [bind]. rewrite omap_cons.
      destruct (head _) as [pc|]; simpl; rewrite IH; [|done].
      by rewrite <- app_assoc. }
  rewrite Hfold. cbn [bind app].
  destruct (satisfaction_scores_ok m w
              (omap (λ group,
                      (λ pc, Decision.mk group pc.1
                               (Int (Optimizer.row_score desired w pc.2))
                               (Optimizer.collect desired pc.2).1
                               (Optimizer.collect desired pc.2).2)
                        <$> head (filter (λ pc, x pc.1 = 1)
                                    (patterns_of m group)))
                   (set_iter (Matrix.get_all_groups m))) Hwf)
    as [scores ->].
  exists scores. by split.
Qed.



(** ** What a decision reports *)

(** X10. On a well-formed table [optimize] returns in either mode, with or
    without a solver and whatever the solver answers.  Every decision names
    a pattern of its own category, and its satisfied and unsatisfied
    qualities are the desired columns of that pattern's row with a positive,
    respectively a negative, value, in the order of the row. *)
Theorem optimize_reports_row (set_iter : gset string → list string)
    CreateSolver mode desired m (w : gmap string Z) :
  set_iter_spec set_iter → matrix_wf m →
  ∃ decisions scores,
    Optimizer.optimize set_iter CreateSolver mode desired m w
    = Ok (decisions, scores)
    ∧ Forall
        (λ d,
           (Decision.selected_pattern d, Decision.arch_pattern_name d)
             ∈ Matrix.row_groups m
           ∧ ∃ columns,
               Dict.get (Matrix._rows m) (Decision.selected_pattern d)
               = Some columns
               ∧ Decision.satisfied_qualities d
                 = filter (λ c, c.1 ∈ desired ∧ 0 < c.2) columns
               ∧ Decision.unsatisfied_qualities d
                 = filter (λ c, c.1 ∈ desired ∧ c.2 < 0) columns)
        decisions.
Proof.
  intros Hiter Hwf. destruct mode; cbn [Optimizer.optimize].
  - destruct CreateSolver as [solve|]; [|by exists [], ∅].
    destruct (ilp_decisions set_iter solve desired m w Hwf)
      as (scores & Hrun & _).
    eexists _, scores. split; [exact Hrun|].
    destruct (solve _) as [x|]; [|constructor].
    apply Forall_forall. intros d Hd.
    apply list_elem_of_omap in Hd as (g & _ & Hd).
    destruct (head _) as [[p columns]|] eqn:Hhead; [|done].
    injection Hd as <-. apply head_Some_elem_of in Hhead.
    apply list_elem_of_filter in Hhead as [_ Hin].
    apply patterns_of_elem in Hin as [Hgroup Hrow].
    cbn [Decision.selected_pattern Decision.arch_pattern_name
         Decision.satisfied_qualities Decision.unsatisfied_qualities fst snd].
    split; [done|]. exists columns. by rewrite collect_filter.
  - destruct (greedy_decisions set_iter desired m w Hwf) as [scores Hrun].
    eexists _, scores. split; [exact Hrun|].
    apply Forall_fmap, Forall_forall. intros g Hg.
    apply (Hiter (Matrix.get_all_groups m)) in Hg. unfold compose.
    destruct (greedy_scan_spec desired w g (patterns_of m g))
      as (p & columns & Hin & -> & _).
    { by apply patterns_of_nonempty. }
    apply patterns_of_elem in Hin as [Hgroup Hrow].
    cbn [Decision.selected_pattern Decision.arch_pattern_name
         Decision.satisfied_qualities Decision.unsatisfied_qualities].
    split; [done|]. exists columns. by rewrite collect_filter.
Qed.

Lemma optimize_reports_row_witness :
  ∃ decisions scores,
    Optimizer.optimize elements (Some Sample.solve_monolith) Optimizer.GREEDY
      Sample.desired_perf_sec Sample.deployment Sample.weights_50_50
    = Ok (decisions, scores)
    ∧ Forall
        (λ d,
           (Decision.selected_pattern d, Decision.arch_pattern_name d)
             ∈ Matrix.row_groups Sample.deployment
           ∧ ∃ columns,
               Dict.get (Matrix._rows Sample.deployment)
                 (Decision.selected_pattern d)
               = Some columns
               ∧ Decision.satisfied_qualities d
                 = filter (λ c, c.1 ∈ Sample.desired_perf_sec ∧ 0 < c.2)
                     columns
               ∧ Decision.unsatisfied_qualities d
                 = filter (λ c, c.1 ∈ Sample.desired_perf_sec ∧ c.2 < 0)
                     columns)
        decisions.
Proof.
  apply (optimize_reports_row elements (Some Sample.solve_monolith)
           Optimizer.GREEDY Sample.desired_perf_sec Sample.deployment
           Sample.weights_50_50).
  - intros X. split; [apply NoDup_elements|apply elem_of_elements].
  - apply (bool_decide_unpack _). vm_compute. exact I.
Defined.

(** ** The satisfaction scores *)

Lemma satisfaction_row_fold (w : gmap string Z) (row : Matrix.row)
    (scores : gmap string Z) (q : string) :
  NoDup (Dict.keys row) →
  foldl (λ (satisfaction_scores : gmap string Z) '(col_name, col_value),
           let weight := default 0 (w !! col_name) in
           <[col_name := default 0 (satisfaction_scores !! col_name)
                         + col_value * weight]> satisfaction_scores)
        scores row !! q
  = match Dict.get row q with
    | Some v => Some (default 0 (scores !! q) + v * default 0 (w !! q))
    | None => scores !! q
    end.
Proof.
  revert scores. unfold Dict.keys.
  induction row as [|[c v] row IH]; intros scores Hnd; [done|].
  rewrite fmap_cons in Hnd. apply NoDup_cons in Hnd as [Hc Hnd].
  cbn [foldl Dict.get]. rewrite IH by done. cbv zeta. case_decide as Hq.
  - subst c. assert (Dict.get row q = None) as -> by by apply dict_get_None.
    by rewrite lookup_insert_eq.
  - by rewrite lookup_insert_ne.
Qed.

(** X11. On a well-formed table the satisfaction scores have one entry per
    column of the rows the decisions select, desired or not, and the entry
    of a quality is the sum, over the decisions, of the selected row's value
    for the quality times the weight of the quality (0 without a weight).  A
    decision whose pattern is not one of its category adds nothing. *)
Theorem satisfaction_scores_spec m (w : gmap string Z)
    (decisions : list Decision.t) :
  let selected_row d :=
    default [] (Dict.get (patterns_of m (Decision.arch_pattern_name d))
                  (Decision.selected_pattern d)) in
  matrix_wf m →
  ∃ scores,
    Optimizer._calculate_satisfaction_scores m w decisions = Ok scores
    ∧ ∀ q,
        scores !! q
        = if decide (Exists (λ d, q ∈ Dict.keys (selected_row d)) decisions)
          then Some (Zsum (λ d, default 0 (Dict.get (selected_row d) q)
                                * default 0 (w !! q)) decisions)
          else None.
Proof.
  intros selected_row Hwf.
  unfold Optimizer._calculate_satisfaction_scores.
  assert (∀ d, NoDup (Dict.keys (selected_row d))) as Hnd.
  { intros d. unfold selected_row.
    destruct (Dict.get _ _) as [row|] eqn:Hrow; [|constructor].
    apply dict_get_Some in Hrow. by eapply patterns_of_columns_NoDup. }
  match goal with
  | |- ∃ _, foldl ?F _ _ = _ ∧ _ =>
      assert (∀ ds acc,
                ∃ scores,
                  foldl F (Ok acc) ds = Ok scores
                  ∧ ∀ q,
                      scores !! q
                      = if decide (Exists (λ d, q ∈ Dict.keys (selected_row d))
                                     ds)
                        then Some (default 0 (acc !! q)
                                   + Zsum (λ d, default 0
                                                  (Dict.get (selected_row d) q)
                                                * default 0 (w !! q)) ds)
                        else acc !! q) as Hfold
  end.
  { induction ds as [|d ds IH]; intros acc.
    - exists acc. split; [done|]. intros q.
      rewrite decide_False; [done|]. by intros ?%Exists_nil.
    - cbn [foldl bind]. rewrite get_rows_by_group_spec by done. cbn [bind].
      match goal with
      | |- ∃ _, foldl _ ?a _ = _ ∧ _ =>
          assert (∃ acc', a = Ok acc'
                          ∧ ∀ q, acc' !! q
                                 = match Dict.get (selected_row d) q with
                                   | Some v =>
                                       Some (default 0 (acc !! q)
                                             + v * default 0 (w !! q))
                                   | None => acc !! q
                                   end) as (acc' & -> & Hacc')
      end.
      { specialize (Hnd d). unfold selected_row in *.
        destruct (Dict.get _ _) as [[|c row]|]; cbn [default] in *.
        - by exists acc.
        - eexists. split; [done|]. intros q.
          by apply satisfaction_row_fold.
        - by exists acc. }
      destruct (IH acc') as (scores & -> & Hscores).
      exists scores. split; [done|]. intros q.
      rewrite Hscores, Hacc', Zsum_cons.
      destruct (Dict.get (selected_row d) q) as [v|] eqn:Hq.
      + assert (q ∈ Dict.keys (selected_row d)) as Hin.
        { apply dict_get_Some in Hq. unfold Dict.keys.
          apply list_elem_of_fmap. by exists (q, v). }
        rewrite (decide_True (P := Exists _ (d :: ds)))
          by (apply Exists_cons; by left).
        cbn [from_option id]. case_decide as Hex; f_equal; [lia|].
        rewrite (Zsum_ext _ (λ _, 0)).
        * assert (Zsum (λ _ : Decision.t, 0) ds = 0) as ->; [|lia].
          clear. induction ds; simpl; lia.
        * intros d' Hd'.
          destruct (Dict.get (selected_row d') q) as [v'|] eqn:Hq';
            [|done].
          exfalso. apply Hex. apply Exists_exists. exists d'. split; [done|].
          apply dict_get_Some in Hq'. unfold Dict.keys.
          apply list_elem_of_fmap. by exists (q, v').
      + assert (q ∉ Dict.keys (selected_row d)) as Hnot
          by by apply dict_get_None.
        cbn [default].
        destruct (decide (Exists (λ d0, q ∈ Dict.keys (selected_row d0)) ds))
          as [Hex|Hex].
        * rewrite decide_True by (apply Exists_cons; by right). done.
        * rewrite decide_False; [done|].
          intros [?|?]%Exists_cons; done. }
  destruct (Hfold decisions ∅) as (scores & -> & Hscores).
  exists scores. split; [done|]. intros q. rewrite Hscores.
  rewrite lookup_empty. cbn [default]. by case_decide.
Qed.

Lemma satisfaction_scores_spec_witness :
  ∃ scores,
    Optimizer._calculate_satisfaction_scores Sample.deployment
      Sample.weights_50_50 [Decision.mk "Deployment" "Monolith" (Int 100) [] []]
    = Ok scores
    ∧ ∀ q,
        scores !! q
        = if decide
               (Exists
                  (λ d, q ∈ Dict.keys
                              (default []
                                 (Dict.get
                                    (patterns_of Sample.deployment
                                       (Decision.arch_pattern_name d))
                                    (Decision.selected_pattern d))))
                  [Decision.mk "Deployment" "Monolith" (Int 100) [] []])
          then Some (Zsum (λ d, default 0
                                  (Dict.get
                                     (default []
                                        (Dict.get
                                           (patterns_of Sample.deployment
                                              (Decision.arch_pattern_name d))
                                           (Decision.selected_pattern d))) q)
                                * default 0 (Sample.weights_50_50 !! q))
                       [Decision.mk "Deployment" "Monolith" (Int 100) [] []])
          else None.
Proof.
  apply (satisfaction_scores_spec Sample.deployment Sample.weights_50_50
           [Decision.mk "Deployment" "Monolith" (Int 100) [] []]).
  apply (bool_decide_unpack _). vm_compute. exact I.
Defined.

(** ** Row value and row score *)

Lemma row_value_ext desired desired' (w : gmap string Z)
    (columns : Matrix.row) :
  (∀ q, q ∈ desired ↔ q ∈ desired') →
  Optimizer.row_value desired w columns
  = Optimizer.row_value desired' w columns.
Proof.
  intros Hiff. unfold Optimizer.row_value.
  match goal with
  | |- foldl ?F _ _ = foldl ?G _ _ =>
      assert (∀ cols a, foldl F a cols = foldl G a cols) as Hfold
  end.
  { induction cols as [|[q v] cols IH]; intros a; [done|].
    cbn [foldl]. rewrite (bool_decide_ext _ _ (Hiff q)). apply IH. }
  apply Hfold.
Qed.

(** X12. The greedy mode scores a row over the set of the desired
    qualities, the exact mode over their list: on a row with distinct
    columns the greedy row value is the exact row score of the desired list
    without its duplicates, while the exact row score counts a quality once
    per occurrence in the list. *)
Theorem row_value_row_score desired desired' (w : gmap string Z)
    (columns : Matrix.row) :
  NoDup (Dict.keys columns) →
  Optimizer.row_value desired w columns
  = Optimizer.row_score (remove_dups desired) w columns
  ∧ Optimizer.row_score (desired ++ desired') w columns
    = Optimizer.row_score desired w columns
      + Optimizer.row_score desired' w columns.
Proof.
  intros Hnd. split.
  - rewrite (row_value_ext desired (remove_dups desired))
      by (intros q; by rewrite elem_of_remove_dups).
    rewrite row_value_documented by (done || apply NoDup_remove_dups).
    by rewrite row_score_documented.
  - rewrite !row_score_documented. unfold documented_score.
    induction desired as [|q desired IH]; simpl; [done|]. rewrite IH. lia.
Qed.

Lemma row_value_row_score_witness :
  Optimizer.row_value ["Security"; "Security"] Sample.weights_50_50
    [("Security", 1); ("Maintainability", -1)]
  = Optimizer.row_score (remove_dups ["Security"; "Security"])
      Sample.weights_50_50 [("Security", 1); ("Maintainability", -1)]
  ∧ Optimizer.row_score (["Security"; "Security"] ++ ["Security"])
      Sample.weights_50_50 [("Security", 1); ("Maintainability", -1)]
    = Optimizer.row_score ["Security"; "Security"] Sample.weights_50_50
        [("Security", 1); ("Maintainability", -1)]
      + Optimizer.row_score ["Security"] Sample.weights_50_50
          [("Security", 1); ("Maintainability", -1)].
Proof.
  apply (row_value_row_score ["Security"; "Security"] ["Security"]
           Sample.weights_50_50 [("Security", 1); ("Maintainability", -1)]).
  apply (bool_decide_unpack _). vm_compute. exact I.
Defined.

(** ** A pattern without a row *)

Section fold_raise.
Context {A B : Type} (F : result A → B → result A) (e : exn).
Hypothesis F_raise : ∀ e' b, F (Raise e') b = Raise e'.
Hypothesis F_cases :
  ∀ a b, (∃ a', F (Ok a) b = Ok a') ∨ F (Ok a) b = Raise e.

Lemma foldl_raise_absorbs l e' : foldl F (Raise e') l = Raise e'.
Proof. induction l as [|b l IH]; [done|]. simpl. by rewrite F_raise. Qed.

Lemma foldl_cases l a :
  (∃ a', foldl F (Ok a) l = Ok a') ∨ foldl F (Ok a) l = Raise e.
Proof.
  revert a. induction l as [|b l IH]; intros a; [left; by eexists|].
  simpl. destruct (F_cases a b) as [[a' ->]| ->]; [apply IH|].
  right. apply foldl_raise_absorbs.
Qed.

Lemma foldl_raises l a b :
  b ∈ l → (∀ a', F (Ok a') b = Raise e) → foldl F (Ok a) l = Raise e.
Proof.
  intros Hin Hb. revert a.
  induction l as [|b' l IH]; intros a; [by apply elem_of_nil in Hin|].
  simpl. apply elem_of_cons in Hin as [->|Hin].
  - rewrite Hb. apply foldl_raise_absorbs.
  - destruct (F_cases a b') as [[a' ->]| ->]; [by apply IH|].
    apply foldl_raise_absorbs.
Qed.
End fold_raise.

Lemma ilp_constraints_raises (m : Matrix.t)
    (variables : list (string * pywraplp.IntVar)) (groups : list string)
    (group p : string) :
  group ∈ groups → (p, group) ∈ Matrix.row_groups m →
  Dict.get (Matrix._rows m) p = None →
  Optimizer.ilp_constraints m variables groups = Raise KeyError.
Proof.
  intros Hgroup Hin Hmissing. unfold Optimizer.ilp_constraints.
  apply (foldl_raises _ KeyError) with (b := group); [done| |done|].
  - intros constraints g. cbn [bind].
    destruct (get_rows_by_group_cases m g) as [[rs ->]| ->];
      [|by right].
    cbn [bind].
    match goal with
    | |- context [foldl ?G (Ok []) ?ks] =>
        assert ((∃ coefs, foldl G (Ok []) ks = Ok coefs)
                ∨ foldl G (Ok []) ks = Raise KeyError) as [[coefs ->]| ->]
    end; [|left; by eexists|by right].
    apply foldl_cases; [done|].
    intros coefs pattern. cbn [bind]. unfold Dict.getitem.
    destruct (Dict.get variables pattern); [left; by eexists|by right].
  - intros constraints. cbn [bind].
    by rewrite (get_rows_by_group_missing m group p).
Qed.

(** X13. A pattern the table puts in a category without giving it a row
    makes both modes raise [KeyError], the exact mode as soon as it has a
    solver; without a solver the exact mode still returns its empty
    result. *)
Theorem optimize_KeyError (set_iter : gset string → list string) solve mode
    desired m (w : gmap string Z) (group p : string) :
  set_iter_spec set_iter →
  (p, group) ∈ Matrix.row_groups m → Dict.get (Matrix._rows m) p = None →
  Optimizer.optimize set_iter (Some solve) mode desired m w = Raise KeyError
  ∧ Optimizer.optimize set_iter None Optimizer.GREEDY desired m w
    = Raise KeyError
  ∧ Optimizer.optimize set_iter None Optimizer.ILP desired m w = Ok ([], ∅).
Proof.
  intros Hiter Hin Hmissing.
  assert (group ∈ set_iter (Matrix.get_all_groups m)) as Hgroup.
  { apply Hiter. unfold Matrix.get_all_groups, Dict.values.
    apply elem_of_list_to_set, list_elem_of_fmap. by exists (p, group). }
  assert (Optimizer._greedy set_iter desired m w = Raise KeyError)
    as Hgreedy.
  { unfold Optimizer._greedy.
    match goal with
    | |- bind (foldl ?G _ _) _ = _ =>
        rewrite (foldl_raises G KeyError) with (b := group)
    end; [done|done| |done|].
    - intros decisions g. cbn [bind].
      destruct (get_rows_by_group_cases m g) as [[rs ->]| ->];
        [left; by eexists|by right].
    - intros decisions. cbn [bind].
      by rewrite (get_rows_by_group_missing m group p). }
  split; [|split; [apply Hgreedy|done]].
  destruct mode; cbn [Optimizer.optimize]; [|apply Hgreedy].
  unfold Optimizer._ilp, Optimizer.ilp_model.
  by rewrite (ilp_constraints_raises m _ _ group p).
Qed.

Lemma optimize_KeyError_witness :
  Optimizer.optimize elements (Some Sample.solve_monolith) Optimizer.ILP
    Sample.desired_perf_sec
    (Matrix.mk [] [("Monolith", "Deployment")]) Sample.weights_50_50
  = Raise KeyError
  ∧ Optimizer.optimize elements None Optimizer.GREEDY
      Sample.desired_perf_sec
      (Matrix.mk [] [("Monolith", "Deployment")]) Sample.weights_50_50
    = Raise KeyError
  ∧ Optimizer.optimize elements None Optimizer.ILP Sample.desired_perf_sec
      (Matrix.mk [] [("Monolith", "Deployment")]) Sample.weights_50_50
    = Ok ([], ∅).
Proof.
  apply (optimize_KeyError elements Sample.solve_monolith Optimizer.ILP
           Sample.desired_perf_sec
           (Matrix.mk [] [("Monolith", "Deployment")])
           Sample.weights_50_50 "Deployment" "Monolith").
  - intros X. split; [apply NoDup_elements|apply elem_of_elements].
  - apply (bool_decide_unpack _). vm_compute. exact I.
  - reflexivity.
Defined.

(** ** Normalized weights *)

Lemma sum_values_nonneg (w : gmap string Z) :
  map_Forall (λ _ v, 0 ≤ v) w → 0 ≤ Architect.sum_values w.
Proof.
  induction w as [|q v w Hq IH] using map_ind; intros Hw.
  - by rewrite sum_values_empty.
  - rewrite sum_values_insert by done.
    apply map_Forall_insert in Hw as [Hv Hw]; [|done].
    specialize (IH Hw). lia.
Qed.

Lemma sum_values_lookup_le (w : gmap string Z) q v :
  map_Forall (λ _ v, 0 ≤ v) w → w !! q = Some v → v ≤ Architect.sum_values w.
Proof.
  intros Hw Hq. rewrite <- (insert_delete_id w q v Hq).
  rewrite sum_values_insert by apply lookup_delete_eq.
  assert (0 ≤ Architect.sum_values (delete q w)); [|lia].
  apply sum_values_nonneg. intros q' v' Hq'.
  apply lookup_delete_Some in Hq' as [_ Hq']. by apply (Hw q').
Qed.

Lemma sum_values_normalized (total : Z) (w : gmap string Z) :
  0 < total → map_Forall (λ _ v, 0 ≤ v) w →
  total * Architect.sum_values ((λ v, (v * 100) `div` total) <$> w)
  ≤ 100 * Architect.sum_values w
  ∧ 100 * Architect.sum_values w
    ≤ total * Architect.sum_values ((λ v, (v * 100) `div` total) <$> w)
      + Z.of_nat (size w) * (total - 1).
Proof.
  intros Htotal. induction w as [|q v w Hq IH] using map_ind; intros Hw.
  - rewrite fmap_empty, map_size_empty, !sum_values_empty. lia.
  - apply map_Forall_insert in Hw as [Hv Hw]; [|done].
    specialize (IH Hw).
    rewrite fmap_insert, map_size_insert_None by done.
    rewrite !sum_values_insert by (done || by rewrite lookup_fmap, Hq).
    pose proof (Z.mod_pos_bound (v * 100) total Htotal).
    pose proof (Z.div_mod (v * 100) total ltac:(lia)).
    nia.
Qed.

(** X14. For weights none of which is negative and whose total is not 0,
    every normalized weight lies between 0 and 100, and the normalized
    weights sum to at most 100 and to more than 100 minus the number of
    qualities.  Weights that sum to exactly 100 are returned as they
    are. *)
Theorem normalize_weights_total (weights : gmap string Z) :
  let normalized := Architect._normalize_weights weights in
  ((∀ q v, weights !! q = Some v → 0 ≤ v) →
   Architect.sum_values weights ≠ 0 →
   (∀ q r, normalized !! q = Some r → 0 ≤ r ≤ 100)
   ∧ 100 - Z.of_nat (size weights) < Architect.sum_values normalized ≤ 100)
  ∧ (Architect.sum_values weights = 100 → normalized = weights).
Proof.
  intros normalized. unfold normalized, Architect._normalize_weights. split.
  - intros Hw Htotal. rewrite bool_decide_eq_false_2 by done.
    pose proof (sum_values_nonneg weights Hw) as Hnonneg.
    set (total := Architect.sum_values weights) in *.
    assert (0 < total) as Hpos by lia. split.
    + intros q r Hr. rewrite lookup_fmap in Hr.
      destruct (weights !! q) as [v|] eqn:Hq; [|done]. injection Hr as <-.
      pose proof (Hw q v Hq).
      pose proof (sum_values_lookup_le weights q v Hw Hq). fold total in H0.
      split; [apply Z.div_pos; lia|].
      apply Z.div_le_upper_bound; lia.
    + destruct (sum_values_normalized total weights Hpos Hw) as [Hle Hge].
      fold total in Hle, Hge.
      assert (weights ≠ ∅) as Hne.
      { intros ->. unfold total in Hpos. rewrite sum_values_empty in Hpos.
        lia. }
      apply map_size_non_empty_iff in Hne. nia.
  - intros Htotal. rewrite Htotal. rewrite bool_decide_eq_false_2 by lia.
    apply map_eq. intros q. rewrite lookup_fmap.
    destruct (weights !! q) as [v|]; [|done]. simpl. by rewrite Z.div_mul.
Qed.

Lemma normalize_weights_total_witness :
  ((∀ q r, Architect._normalize_weights Sample.weights_1_2 !! q = Some r →
           0 ≤ r ≤ 100)
   ∧ 100 - Z.of_nat (size Sample.weights_1_2)
     < Architect.sum_values (Architect._normalize_weights Sample.weights_1_2)
     ≤ 100)
  ∧ Architect._normalize_weights Sample.weights_50_50
    = Sample.weights_50_50.
Proof.
  split.
  - apply (normalize_weights_total Sample.weights_1_2).
    + intros q v Hq. unfold Sample.weights_1_2 in Hq.
      apply lookup_insert_Some in Hq as [[_ <-]|[_ Hq]]; [lia|].
      apply lookup_insert_Some in Hq as [[_ <-]|[_ Hq]]; [lia|done].
    + by vm_compute.
  - apply (normalize_weights_total Sample.weights_50_50). by vm_compute.
Defined.

(** ** Inferred weights *)

Lemma inferred_attrs_Some (attrs : list string) (w : gmap string Z) q :
  is_Some (foldl (λ (weights : gmap string Z) quality,
                    <[quality := default 0 (weights !! quality) + 1]> weights)
                 w attrs !! q)
  ↔ is_Some (w !! q) ∨ q ∈ attrs.
Proof.
  revert w. induction attrs as [|a attrs IH]; intros w; simpl.
  - rewrite elem_of_nil. naive_solver.
  - rewrite IH, elem_of_cons. destruct (decide (a = q)) as [->|Hne].
    + rewrite lookup_insert_eq. split; [naive_solver|]. intros _. left.
      by eexists.
    + rewrite lookup_insert_ne by done. naive_solver.
Qed.

Lemma inferred_groups_Some (cgs : list ConditionGroup.t) (w : gmap string Z)
    q :
  is_Some
    (foldl (λ (weights : gmap string Z) cg,
              foldl (λ (weights : gmap string Z) req,
                       foldl (λ (weights : gmap string Z) quality,
                                <[quality := default 0 (weights !! quality) + 1]>
                                  weights)
                             weights (Requirement.quality_attributes req))
                    weights (ConditionGroup.requirements cg))
           w cgs !! q)
  ↔ is_Some (w !! q)
    ∨ ∃ cg req, cg ∈ cgs ∧ req ∈ ConditionGroup.requirements cg
                ∧ q ∈ Requirement.quality_attributes req.
Proof.
  revert w. induction cgs as [|cg cgs IH]; intros w.
  - simpl. split; [by left|]. intros [?|(cg & req & Hin & _)]; [done|].
    by apply elem_of_nil in Hin.
  - cbn [foldl]. rewrite IH.
    match goal with
    | |- is_Some (foldl ?F w _ !! q) ∨ _ ↔ _ =>
        assert (∀ reqs w,
                  is_Some (foldl F w reqs !! q)
                  ↔ is_Some (w !! q)
                    ∨ ∃ req, req ∈ reqs
                             ∧ q ∈ Requirement.quality_attributes req)
          as Hreqs
    end.
    { clear. induction reqs as [|req reqs IH]; intros w.
      - simpl. split; [by left|]. intros [?|(req & Hin & _)]; [done|].
        by apply elem_of_nil in Hin.
      - cbn [foldl]. rewrite IH, inferred_attrs_Some.
        setoid_rewrite elem_of_cons. naive_solver. }
    rewrite Hreqs. setoid_rewrite elem_of_cons. naive_solver.
Qed.

(** X15. Unless the mode is EQUALLY_IMPORTANT, or PROVIDED with weights
    that are given and not empty, the weights are the inferred ones, for
    ALL_REQUIRED as for INFERRED: a quality has an entry exactly when a
    requirement of the group lists it, and its weight is the number of times
    the requirements of the group list it, which is at least 1. *)
Theorem inferred_weights_entries self sg mode provided_weights q :
  mode ≠ Architect.EQUALLY_IMPORTANT →
  ¬ (mode = Architect.PROVIDED
     ∧ Architect.truthy_weights provided_weights = true) →
  let weights :=
    Architect._calculate_quality_weights self sg mode provided_weights in
  let occurrences :=
    Zsum (quality_count q) (SatisfiableGroup.condition_groups sg) in
  weights
  = Architect._calculate_quality_weights self sg Architect.INFERRED None
  ∧ (is_Some (weights !! q)
     ↔ ∃ cg req, cg ∈ SatisfiableGroup.condition_groups sg
                 ∧ req ∈ ConditionGroup.requirements cg
                 ∧ q ∈ Requirement.quality_attributes req)
  ∧ (∀ v, weights !! q = Some v → v = occurrences ∧ 1 ≤ v).
Proof.
  intros Hmode Hprovided weights occurrences.
  assert (weights
          = Architect._calculate_quality_weights self sg Architect.INFERRED
              None) as Heq.
  { unfold weights, Architect._calculate_quality_weights.
    rewrite (bool_decide_eq_false_2 (mode = Architect.EQUALLY_IMPORTANT))
      by done.
    destruct (bool_decide (mode = Architect.PROVIDED)) eqn:Hm; [|done].
    apply bool_decide_eq_true in Hm.
    destruct (Architect.truthy_weights provided_weights) eqn:Ht; [|done].
    by destruct Hprovided. }
  split; [done|].
  assert (is_Some (weights !! q)
          ↔ ∃ cg req, cg ∈ SatisfiableGroup.condition_groups sg
                      ∧ req ∈ ConditionGroup.requirements cg
                      ∧ q ∈ Requirement.quality_attributes req) as Hdom.
  { rewrite Heq. unfold Architect._calculate_quality_weights. simpl.
    rewrite inferred_groups_Some, lookup_empty.
    split; [intros [[? ?]|?]; done|by right]. }
  split; [done|]. intros v Hv.
  pose proof (inferred_weight self sg None q) as Hcount.
  rewrite <- Heq, Hv in Hcount. simpl in Hcount. fold occurrences in Hcount.
  split; [done|]. subst v.
  destruct Hdom as [Hdom _].
  destruct Hdom as (cg & req & Hcg & Hreq & Hq); [by eexists|].
  unfold occurrences. clear -Hcg Hreq Hq.
  induction (SatisfiableGroup.condition_groups sg) as [|cg' cgs IH];
    [by apply elem_of_nil in Hcg|].
  rewrite Zsum_cons.
  assert (∀ cgs', 0 ≤ Zsum (quality_count q) cgs') as Hnonneg.
  { intros cgs'. apply Zsum_nonneg. intros cg0 _. unfold quality_count.
    apply Zsum_nonneg. intros; lia. }
  apply elem_of_cons in Hcg as [<-|Hcg].
  - specialize (Hnonneg cgs).
    assert (1 ≤ quality_count q cg); [|lia].
    unfold quality_count. clear -Hreq Hq.
    induction (ConditionGroup.requirements cg) as [|req' reqs IH];
      [by apply elem_of_nil in Hreq|].
    rewrite Zsum_cons.
    assert (0 ≤ Zsum (λ req0, Z.of_nat (length (filter (λ a, a = q)
                         (Requirement.quality_attributes req0)))) reqs).
    { apply Zsum_nonneg. intros; lia. }
    apply elem_of_cons in Hreq as [<-|Hreq].
    + assert (q ∈ filter (λ a, a = q) (Requirement.quality_attributes req))
        as Hin by by apply list_elem_of_filter.
      destruct (filter _ _); [by apply elem_of_nil in Hin|]. simpl. lia.
    + specialize (IH Hreq). lia.
  - specialize (IH Hcg).
    assert (0 ≤ quality_count q cg'); [|lia].
    unfold quality_count. apply Zsum_nonneg. intros; lia.
Qed.

Lemma inferred_weights_entries_witness :
  Architect._calculate_quality_weights
    (Sample.architect Sample.ragged [] []) Sample.sg1 Architect.ALL_REQUIRED
    None
  = Architect._calculate_quality_weights
      (Sample.architect Sample.ragged [] []) Sample.sg1 Architect.INFERRED
      None
  ∧ (is_Some
       (Architect._calculate_quality_weights
          (Sample.architect Sample.ragged [] []) Sample.sg1
          Architect.ALL_REQUIRED None !! "Security")
     ↔ ∃ cg req, cg ∈ SatisfiableGroup.condition_groups Sample.sg1
                 ∧ req ∈ ConditionGroup.requirements cg
                 ∧ "Security" ∈ Requirement.quality_attributes req)
  ∧ (∀ v,
       Architect._calculate_quality_weights
         (Sample.architect Sample.ragged [] []) Sample.sg1
         Architect.ALL_REQUIRED None !! "Security" = Some v →
       v = Zsum (quality_count "Security")
             (SatisfiableGroup.condition_groups Sample.sg1)
       ∧ 1 ≤ v).
Proof.
  apply (inferred_weights_entries (Sample.architect Sample.ragged [] [])
           Sample.sg1 Architect.ALL_REQUIRED None "Security").
  - discriminate.
  - intros [Hmode _]. discriminate.
Defined.

(** ** Condition groups *)




















(** ** Few conditions *)




Lemma dict_set_set {K V : Type} `{EqDecision K} (d : list (K * V)) k v v' :
  Dict.set (Dict.set d k v) k v' = Dict.set d k v'.
Proof.
  induction d as [|[k0 v0] d IH]; simpl.
  - by rewrite decide_True.
  - case_decide; simpl.
    + by rewrite decide_True.
    + rewrite decide_False by done. by rewrite IH.
Qed.






(** ** The analysis *)




Lemma optimize_returns (set_iter : gset string → list string) CreateSolver
    mode desired m (w : gmap string Z) :
  matrix_wf m →
  ∃ decisions scores,
    Optimizer.optimize set_iter CreateSolver mode desired m w
    = Ok (decisions, scores).
Proof.
  intros Hwf. destruct mode; cbn [Optimizer.optimize].
  - destruct CreateSolver as [solve|]; [|by exists [], ∅].
    destruct (ilp_decisions set_iter solve desired m w Hwf)
      as (scores & Hrun & _).
    by eexists _, scores.
  - destruct (greedy_decisions set_iter desired m w Hwf) as [scores Hrun].
    by eexists _, scores.
Qed.




(** ** Loading the scoring table *)

Lemma dict_set_elem_ne {K V : Type} `{EqDecision K} (d : list (K * V)) k v
    k' v' :
  NoDup (Dict.keys d) → (k', v') ∈ Dict.set d k v →
  (k', v') = (k, v) ∨ ((k', v') ∈ d ∧ k' ≠ k).
Proof.
  unfold Dict.keys. induction d as [|[k0 v0] d IH]; simpl.
  - intros _ ->%list_elem_of_singleton. by left.
  - intros [Hk0 Hnd]%NoDup_cons. case_decide as Hk.
    + subst k0. intros [->|Hin]%elem_of_cons; [by left|]. right.
      split; [by right|]. intros ->. apply Hk0.
      apply list_elem_of_fmap. by exists (k, v').
    + intros [[= -> ->]|Hin]%elem_of_cons; [right; split; [left|done]|].
      destruct (IH Hnd Hin) as [?|[? ?]]; [by left|].
      right. split; [by right|done].
Qed.

Lemma dict_set_nonempty {K V : Type} `{EqDecision K} (d : list (K * V)) k v :
  Dict.set d k v ≠ [].
Proof. destruct d as [|[k0 v0] d]; simpl; [done|]. by case_decide. Qed.

Lemma set_element_rows m row_key column_key value :
  Matrix._rows (Matrix.set_element m row_key column_key value)
  = Dict.set (Matrix._rows m) row_key
      (Dict.set (default [] (Dict.get (Matrix._rows m) row_key))
         column_key value).
Proof.
  unfold Matrix.set_element. cbn [Matrix._rows].
  destruct (Dict.get (Matrix._rows m) row_key) eqn:Hrow.
  - by rewrite Hrow.
  - by rewrite dict_get_set_same, dict_set_set.
Qed.

Lemma set_element_loaded qualities m row_key column_key value :
  matrix_loaded qualities m →
  row_key ∈ Dict.keys (Matrix.row_groups m) → column_key ∈ qualities →
  matrix_loaded qualities (Matrix.set_element m row_key column_key value).
Proof.
  intros (Hrows & Hgroups & Hcols & Hsub) Hkey Hcol.
  rewrite Forall_forall in Hcols.
  unfold matrix_loaded. rewrite set_element_rows.
  change (Matrix.row_groups (Matrix.set_element m row_key column_key value))
    with (Matrix.row_groups m).
  split; [by apply dict_set_NoDup|]. split; [done|]. split.
  - apply Forall_forall. intros [p cols] Hin.
    apply dict_set_elem_ne in Hin as [[= -> ->]|[Hin _]]; [|by apply Hcols|done].
    cbn [snd].
    assert (NoDup (Dict.keys (default [] (Dict.get (Matrix._rows m) row_key)))
            ∧ ∀ q, q ∈ Dict.keys
                         (default [] (Dict.get (Matrix._rows m) row_key)) →
                   q ∈ qualities) as [Hnd Hq].
    { destruct (Dict.get _ row_key) as [cols0|] eqn:Hrow; simpl.
      - apply dict_get_Some in Hrow.
        destruct (Hcols _ Hrow) as (? & _ & ?). done.
      - split; [constructor|]. by intros q ?%elem_of_nil. }
    split; [by apply dict_set_NoDup|]. split; [apply dict_set_nonempty|].
    intros q. rewrite dict_keys_set, elem_of_app.
    intros [?|Hnew]; [by apply Hq|].
    case_decide; [by apply elem_of_nil in Hnew|].
    by apply list_elem_of_singleton in Hnew as ->.
  - intros p. rewrite dict_keys_set, elem_of_app.
    intros [?|Hnew]; [by apply Hsub|].
    case_decide; [by apply elem_of_nil in Hnew|].
    by apply list_elem_of_singleton in Hnew as ->.
Qed.

Lemma set_element_keys m row_key column_key value p :
  p ∈ Dict.keys (Matrix._rows (Matrix.set_element m row_key column_key value))
  ↔ p = row_key ∨ p ∈ Dict.keys (Matrix._rows m).
Proof.
  rewrite set_element_rows, dict_keys_set, elem_of_app.
  case_decide as Hin.
  - rewrite elem_of_nil. split; [naive_solver|]. intros [->|?]; by left.
  - rewrite list_elem_of_singleton. naive_solver.
Qed.

Lemma list_getitem_lookup {A : Type} (l : list A) (i : nat) x :
  l !! i = Some x → Py.list_getitem l (Z.of_nat i) = Ok x.
Proof.
  intros Hi. unfold Py.list_getitem.
  rewrite (bool_decide_eq_false_2 (Z.of_nat i < 0)) by lia.
  rewrite (bool_decide_eq_true_2 (0 ≤ Z.of_nat i)) by lia.
  by rewrite Nat2Z.id, Hi.
Qed.

Lemma load_cells qualities pattern (cells : list (nat * string)) m :
  matrix_loaded qualities m →
  pattern ∈ Dict.keys (Matrix.row_groups m) →
  ∃ m',
    foldl (λ acc '(i, value_str),
             matrix ←! acc;
             if bool_decide (i < length qualities)%nat then
               match Py.int value_str with
               | Ok value =>
                   quality ←! Py.list_getitem qualities (Z.of_nat i);
                   Ok (Matrix.set_element matrix pattern quality value)
               | Raise ValueError => Ok matrix
               | Raise e => Raise e
               end
             else Ok matrix)
          (Ok m) cells = Ok m'
    ∧ matrix_loaded qualities m'
    ∧ Matrix.row_groups m' = Matrix.row_groups m
    ∧ ∀ p, p ∈ Dict.keys (Matrix._rows m')
           ↔ p ∈ Dict.keys (Matrix._rows m)
             ∨ (p = pattern
                ∧ Exists (λ c, (c.1 < length qualities)%nat
                               ∧ ∃ value, Py.int c.2 = Ok value) cells).
Proof.
  revert m. induction cells as [|[i s] cells IH]; intros m Hm Hpattern.
  - exists m. split; [done|]. split; [done|]. split; [done|].
    intros p. rewrite Exists_nil. naive_solver.
  - cbn [foldl bind]. case_bool_decide as Hi.
    + destruct (Py.int s) as [value|e] eqn:Hint.
      * destruct (lookup_lt_is_Some_2 qualities i Hi) as [quality Hq].
        rewrite (list_getitem_lookup _ _ _ Hq). cbn [bind].
        destruct (IH (Matrix.set_element m pattern quality value))
          as (m' & -> & Hm' & Hgroups & Hkeys).
        { apply set_element_loaded; [done..|].
          by eapply list_elem_of_lookup_2. }
        { done. }
        exists m'. split; [done|]. split; [done|]. split; [done|].
        intros p. rewrite Hkeys, set_element_keys, Exists_cons. cbn [fst snd].
        split; [|naive_solver].
        intros [[->|?]|[-> ?]]; [right|by left|right]; (split; [done|]).
        -- left. split; [done|]. by exists value.
        -- by right.
      * pose proof (int_raises_ValueError _ _ Hint) as ->.
        destruct (IH m Hm Hpattern) as (m' & -> & Hm' & Hgroups & Hkeys).
        exists m'. split; [done|]. split; [done|]. split; [done|].
        intros p. rewrite Hkeys, Exists_cons. cbn [fst snd].
        split; [naive_solver|].
        intros [?|[-> [(_ & value & Hv)|?]]]; [by left|congruence|].
        right. by split.
    + destruct (IH m Hm Hpattern) as (m' & -> & Hm' & Hgroups & Hkeys).
      exists m'. split; [done|]. split; [done|]. split; [done|].
      intros p. rewrite Hkeys, Exists_cons. cbn [fst snd].
      split; [naive_solver|].
      intros [?|[-> [[? _]|?]]]; [by left|done|]. right. by split.
Qed.

Lemma cells_with_value (n : nat) (cells : list string) :
  Exists (λ c : nat * string, (c.1 < n)%nat ∧ ∃ value, Py.int c.2 = Ok value)
    (imap pair cells)
  ↔ ∃ i cell value,
      cells !! i = Some cell ∧ (i < n)%nat ∧ Py.int cell = Ok value.
Proof.
  rewrite Exists_exists. split.
  - intros ([i cell] & Hin & Hi & value & Hv).
    apply elem_of_lookup_imap in Hin as (i' & cell' & [= -> ->] & Hcell).
    by exists i', cell', value.
  - intros (i & cell & value & Hcell & Hi & Hv). exists (i, cell).
    split; [|split; [done|by exists value]].
    apply elem_of_lookup_imap. by exists i, cell.
Qed.

Lemma load_lines delimiter qualities (data : list string) m :
  matrix_loaded qualities m →
  ∃ m',
    foldl (λ acc line,
             matrix ←! acc;
             let parts := Matrix.stripped_parts delimiter line in
             if bool_decide (length parts < 3)%nat then Ok matrix
             else
               group ←! Py.list_getitem parts 0;
               pattern ←! Py.list_getitem parts 1;
               let matrix :=
                 Matrix.mk (Matrix._rows matrix)
                   (Dict.set (Matrix.row_groups matrix) pattern group) in
               foldl (λ acc '(i, value_str),
                        matrix ←! acc;
                        if bool_decide (i < length qualities)%nat then
                          match Py.int value_str with
                          | Ok value =>
                              quality ←!
                                Py.list_getitem qualities (Z.of_nat i);
                              Ok (Matrix.set_element matrix pattern quality
                                    value)
                          | Raise ValueError => Ok matrix
                          | Raise e => Raise e
                          end
                        else Ok matrix)
                     (Ok matrix) (imap pair (drop 2 parts)))
          (Ok m) data = Ok m'
    ∧ matrix_loaded qualities m'
    ∧ (∀ p, p ∈ Dict.keys (Matrix.row_groups m')
            ↔ p ∈ Dict.keys (Matrix.row_groups m)
              ∨ Exists (line_names delimiter p) data)
    ∧ (∀ p, p ∈ Dict.keys (Matrix._rows m')
            ↔ p ∈ Dict.keys (Matrix._rows m)
              ∨ Exists (line_gives_value delimiter (length qualities) p)
                  data).
Proof.
  revert m.
  match goal with
  | |- ∀ m, _ → ∃ _, foldl ?F _ _ = _ ∧ _ => set (step := F)
  end.
  induction data as [|line data IH]; intros m Hm.
  - exists m. split; [done|]. split; [done|].
    split; intros p; rewrite Exists_nil; naive_solver.
  - cbn [foldl]. unfold step at 2. cbn [bind]. cbv zeta.
    destruct (Matrix.stripped_parts delimiter line) as [|g [|p [|cell cells]]]
      eqn:Hparts.
    1-3: rewrite bool_decide_eq_true_2 by (simpl; lia).
    1-3: assert (∀ p', ¬ line_names delimiter p' line) as Hnames
      by (intros p' (? & ? & Heq & ?); rewrite Hparts in Heq;
          naive_solver).
    1-3: assert (∀ p', ¬ line_gives_value delimiter (length qualities) p'
                         line) as Hvalue
      by (intros p' (? & ? & ? & ? & ? & Heq & Hcell & _);
          rewrite Hparts in Heq; simplify_eq/=).
    1-3: destruct (IH m Hm) as (m' & -> & Hm' & Hgroups & Hrows).
    1-3: exists m'; split; [done|]; split; [done|].
    1-3: split; intros p'; [rewrite Hgroups|rewrite Hrows];
      rewrite Exists_cons; naive_solver.
    rewrite bool_decide_eq_false_2 by (simpl; lia).
    rewrite (list_getitem_lookup (g :: p :: cell :: cells) 0 g eq_refl
             : Py.list_getitem (g :: p :: cell :: cells) 0 = Ok g).
    cbn [bind].
    rewrite (list_getitem_lookup (g :: p :: cell :: cells) 1 p eq_refl
             : Py.list_getitem (g :: p :: cell :: cells) 1 = Ok p).
    cbn [bind drop].
    assert (∀ p', line_names delimiter p' line ↔ p' = p) as Hnames.
    { intros p'. unfold line_names. rewrite Hparts. split.
      - by intros (? & ? & [= _ ->] & _).
      - intros ->. by exists g, (cell :: cells). }
    assert (∀ p', line_gives_value delimiter (length qualities) p' line
                  ↔ p' = p
                    ∧ ∃ i c value,
                        (cell :: cells) !! i = Some c
                        ∧ (i < length qualities)%nat
                        ∧ Py.int c = Ok value) as Hvalue.
    { intros p'. unfold line_gives_value. rewrite Hparts. split.
      - intros (? & ? & i & c & v & [= _ -> <-] & ? & ? & ?).
        split; [done|]. by exists i, c, v.
      - intros [-> (i & c & v & ? & ? & ?)].
        by exists g, (cell :: cells), i, c, v. }
    set (m1 := Matrix.mk (Matrix._rows m)
                 (Dict.set (Matrix.row_groups m) p g)).
    assert (∀ p', p' ∈ Dict.keys (Matrix.row_groups m1)
                  ↔ p' ∈ Dict.keys (Matrix.row_groups m) ∨ p' = p)
      as Hgroups1.
    { intros p'. unfold m1. cbn [Matrix.row_groups].
      rewrite dict_keys_set, elem_of_app. case_decide.
      - rewrite elem_of_nil. naive_solver.
      - by rewrite list_elem_of_singleton. }
    assert (matrix_loaded qualities m1) as Hm1.
    { destruct Hm as (Hrows & Hgroups & Hcols & Hsub).
      split; [done|]. split; [by apply dict_set_NoDup|]. split; [done|].
      intros p' Hp'. apply Hgroups1. left. by apply Hsub. }
    destruct (load_cells qualities p (imap pair (cell :: cells)) m1 Hm1)
      as (m2 & -> & Hm2 & Hgroups2 & Hrows2).
    { apply Hgroups1. by right. }
    destruct (IH m2 Hm2) as (m' & -> & Hm' & Hgroups & Hrows).
    exists m'. split; [done|]. split; [done|]. split; intros p'.
    + rewrite Hgroups, Hgroups2, Hgroups1, Exists_cons, Hnames.
      naive_solver.
    + rewrite Hrows, Hrows2, Exists_cons, Hvalue, cells_with_value.
      change (Matrix._rows m1) with (Matrix._rows m). naive_solver.
Qed.

Lemma load_from_csv_lines header data (tab_separated : bool) :
  let delimiter := if tab_separated then "009"%char else ","%char in
  let qualities :=
    (λ abbr, default abbr (Dict.get Matrix.QA_MAPPINGS abbr))
      <$> Matrix.stripped_parts delimiter header in
  ∃ matrix,
    Matrix.load_from_csv (header :: data) tab_separated = Ok matrix
    ∧ matrix_loaded qualities matrix
    ∧ (∀ p, p ∈ Dict.keys (Matrix.row_groups matrix)
            ↔ Exists (line_names delimiter p) data)
    ∧ (∀ p, p ∈ Dict.keys (Matrix._rows matrix)
            ↔ Exists (line_gives_value delimiter (length qualities) p) data).
Proof.
  intros delimiter qualities. unfold Matrix.load_from_csv.
  rewrite (list_getitem_lookup (header :: data) 0 header eq_refl
           : Py.list_getitem (header :: data) 0 = Ok header).
  cbn [bind drop]. fold delimiter. fold qualities.
  destruct (load_lines delimiter qualities data (Matrix.mk [] []))
    as (matrix & Hrun & Hloaded & Hgroups & Hrows).
  { split; [constructor|]. split; [constructor|]. split; [constructor|].
    by intros p ?%elem_of_nil. }
  exists matrix. split; [exact Hrun|]. split; [done|].
  split; intros p; [rewrite Hgroups|rewrite Hrows];
    (split; [intros [Hin|?]; [by apply elem_of_nil in Hin|done]|by right]).
Qed.

(** X20. [load_from_csv] raises [IndexError] on a file without lines and
    returns on every other file, whatever the lines hold.  In the table it
    returns the keys are distinct, no row is without a category or without
    a column, and every column is named by the header (an abbreviation by
    its full name).  A pattern has a category exactly when a data line
    names it, and a row exactly when one of these lines has an integer in a
    cell under a header column. *)
Theorem load_from_csv_table (tab_separated : bool) :
  let delimiter := if tab_separated then "009"%char else ","%char in
  Matrix.load_from_csv [] tab_separated = Raise IndexError
  ∧ ∀ header data,
      let qualities :=
        (λ abbr, default abbr (Dict.get Matrix.QA_MAPPINGS abbr))
          <$> Matrix.stripped_parts delimiter header in
      ∃ matrix,
        Matrix.load_from_csv (header :: data) tab_separated = Ok matrix
        ∧ matrix_loaded qualities matrix
        ∧ (∀ p, p ∈ Dict.keys (Matrix.row_groups matrix)
                ↔ Exists (line_names delimiter p) data)
        ∧ (∀ p, p ∈ Dict.keys (Matrix._rows matrix)
                ↔ Exists (line_gives_value delimiter (length qualities) p)
                    data).
Proof.
  intros delimiter. split; [done|]. intros header data.
  apply load_from_csv_lines.
Qed.

(** X21. The table [load_from_csv] returns is well-formed, so that
    [optimize] returns on it, exactly when every pattern a data line names
    is given a value by a data line: a line all of whose cells fail to be
    integers, or lie beyond the header, leaves its pattern with a category
    and without a row. *)
Theorem load_from_csv_wf header data (tab_separated : bool) :
  let delimiter := if tab_separated then "009"%char else ","%char in
  let qualities :=
    (λ abbr, default abbr (Dict.get Matrix.QA_MAPPINGS abbr))
      <$> Matrix.stripped_parts delimiter header in
  ∃ matrix,
    Matrix.load_from_csv (header :: data) tab_separated = Ok matrix
    ∧ (matrix_wf matrix
       ↔ ∀ p, Exists (line_names delimiter p) data →
              Exists (line_gives_value delimiter (length qualities) p) data)
    ∧ (matrix_wf matrix →
       ∀ (set_iter : gset string → list string) CreateSolver mode desired
         (w : gmap string Z),
         ∃ decisions scores,
           Optimizer.optimize set_iter CreateSolver mode desired matrix w
           = Ok (decisions, scores)).
Proof.
  intros delimiter qualities.
  destruct (load_from_csv_lines header data tab_separated)
    as (matrix & Hrun & (Hrows & Hgroups & Hcols & Hsub) & Hg & Hr).
  fold delimiter in Hg, Hr. fold qualities in Hr.
  exists matrix. split; [done|]. split.
  - unfold matrix_wf. split.
    + intros (_ & _ & _ & Hall) p Hp. rewrite Forall_forall in Hall.
      apply (proj1 (Hr p)), Hall, (proj2 (Hg p)), Hp.
    + intros Hall. split; [done|]. split; [done|]. split.
      * eapply Forall_impl; [exact Hcols|]. by intros r [? _].
      * apply Forall_forall. intros p Hp.
        apply (proj2 (Hr p)), Hall, (proj1 (Hg p)), Hp.
  - intros Hwf set_iter CreateSolver mode desired w.
    by apply optimize_returns.
Qed.

(** ** Loading the requirements *)

Lemma load_from_text_fold (lines : list string) (n : nat)
    (acc : list Requirement.t) :
  foldl (λ '(_id_counter, requirements) line,
           if bool_decide (Py.strip line ≠ "") then
             (_id_counter + 1,
              requirements
              ++ [Requirement.mk (_id_counter + 1) (Py.strip line) false []
                    "" []])
           else (_id_counter, requirements))
        (Z.of_nat n, acc) lines
  = (Z.of_nat (n + length (filter (λ line, line ≠ "") (Py.strip <$> lines))),
     acc ++ imap (λ i line,
                    Requirement.mk (Z.of_nat (n + i) + 1) line false [] "" [])
              (filter (λ line, line ≠ "") (Py.strip <$> lines))).
Proof.
  revert n acc. induction lines as [|line lines IH]; intros n acc.
  - cbn. by rewrite Nat.add_0_r, app_nil_r.
  - cbn [foldl]. rewrite fmap_cons, filter_cons.
    destruct (decide (Py.strip line ≠ "")) as [Hline|Hline].
    + rewrite bool_decide_eq_true_2 by done.
      replace (Z.of_nat n + 1) with (Z.of_nat (S n)) by lia.
      rewrite IH. cbn [length imap]. rewrite <- (assoc_L (++)).
      f_equal; [f_equal; lia|]. f_equal. cbn [app]. f_equal.
      * f_equal. lia.
      * apply imap_ext. intros i d _. simpl. f_equal. lia.
    + rewrite bool_decide_eq_false_2 by done. apply IH.
Qed.

(** X22. [load_from_text] numbers the requirements 1, 2, 3, ... in the
    order of the text, so no two have the same id.  Their descriptions are
    the lines of the stripped text, each stripped, without the blank ones;
    every requirement starts with the empty condition text, no quality
    attribute and not marked as architecturally significant. *)
Theorem load_from_text_ids text :
  let requirements := RequirementParser.load_from_text text in
  Requirement.id <$> requirements
  = Z.of_nat <$> seq 1 (length requirements)
  ∧ NoDup (Requirement.id <$> requirements)
  ∧ Requirement.description <$> requirements
    = filter (λ line, line ≠ "")
        (Py.strip <$> Py.split "010" (Py.strip text))
  ∧ Forall (λ r, Requirement.description r ≠ ""
                 ∧ Requirement.condition_text r = ""
                 ∧ Requirement.quality_attributes r = []
                 ∧ Requirement.is_architecturally_significant r = false)
      requirements.
Proof.
  intros requirements. unfold requirements, RequirementParser.load_from_text.
  cbv zeta. rewrite (load_from_text_fold _ 0 []). cbn [snd app].
  set (ds := filter (λ line, line ≠ "") _).
  assert (Forall (λ d, d ≠ "") ds) as Hds.
  { apply Forall_forall. intros d Hd. unfold ds in Hd.
    by apply list_elem_of_filter in Hd as [? _]. }
  clearbody ds.
  assert (Requirement.id
            <$> imap (λ i line,
                        Requirement.mk (Z.of_nat (0 + i) + 1) line false []
                          "" []) ds
          = Z.of_nat <$> seq 1 (length ds)) as Hids.
  { rewrite fmap_imap. unfold compose. cbn [Requirement.id].
    apply list_eq. intros i. rewrite list_lookup_imap, list_lookup_fmap.
    destruct (ds !! i) as [d|] eqn:Hi; simpl.
    - rewrite lookup_seq_lt by by eapply lookup_lt_Some.
      simpl. f_equal. lia.
    - rewrite lookup_seq_ge; [done|]. by apply lookup_ge_None. }
  rewrite length_imap. split; [done|]. split; [|split].
  - rewrite Hids. apply NoDup_fmap; [apply Nat2Z.inj'|apply NoDup_seq].
  - rewrite fmap_imap. unfold compose. cbn [Requirement.description].
    clear. generalize 0%nat. induction ds as [|d ds IH]; intros n; [done|].
    cbn [imap]. f_equal. apply (IH (S n)).
  - apply Forall_forall. intros r Hr.
    apply elem_of_lookup_imap in Hr as (i & d & -> & Hi). simpl.
    split; [|done]. rewrite Forall_forall in Hds. apply Hds.
    by eapply list_elem_of_lookup_2.
Qed.
